(** * easy-sync batching: the batch manager, its scheduling and resolution policies

    A shallow embedding of [packages/batching/src]: [schedulers.ts],
    [resolvers.ts] and the [BatchManager] class of [index.ts].

    JavaScript objects that the code shares and mutates (the entries of the
    pending map, the promises handed to callers, the armed timeouts) live in
    explicit stores of the [World]; the manager's own fields are fields of the
    same record. Numbers are integers, and a synchronous stretch of code
    takes no time: the clock advances between operations only. *)

From stdpp Require Import base decidable option list strings gmap pretty.
From Stdlib Require Import ZArith Lia.

Local Open Scope Z_scope.
Local Set Warnings "-register-all".

(** ** JavaScript values *)

(** [RequestId = string | number | symbol]. Symbols are numbered in creation
    order; two symbols are the same key exactly when they are the same
    symbol. *)
Inductive Id : Type :=
  | IdStr (s : string)
  | IdNum (n : Z)
  | IdSym (k : nat).

#[global] Instance Id_eq_dec : EqDecision Id.
Proof. solve_decision. Defined.

#[global] Instance Id_countable : Countable Id.
Proof.
  refine (inj_countable'
    (fun i => match i with
              | IdStr s => inl s
              | IdNum n => inr (inl n)
              | IdSym k => inr (inr k)
              end)
    (fun x => match x with
              | inl s => IdStr s
              | inr (inl n) => IdNum n
              | inr (inr k) => IdSym k
              end) _).
  by intros [].
Defined.

(** Payloads, results and thrown values are untyped at run time. *)
Inductive value : Type :=
  | VUndefined
  | VNull
  | VBool (b : bool)
  | VNum (n : Z)
  | VStr (s : string)
  | VError (name message : string)
  | VObject (fields : list (string * value))
  (* a function or object built into the runtime, by the name
     [Object.prototype] holds it under *)
  | VBuiltin (name : string)
  (* the [TypeError] the runtime itself throws; its message is the
     runtime's own *)
  | VTypeError.

(** [x === undefined] *)
Definition is_undefined (v : value) : bool :=
  match v with VUndefined => true | _ => false end.

(** [x ?? y] *)
Definition nullish_or (x y : value) : value :=
  match x with
  | VUndefined | VNull => y
  | _ => x
  end.

(** [new BatchCancellationError()] *)
Definition BatchCancellationError : value :=
  VError "BatchCancellationError" "Batch request cancelled".

(** What a call that may throw, or a promise that may reject, yields. *)
Inductive outcome (A : Type) : Type :=
  | Returned (a : A)
  | Thrown (e : value).
Arguments Returned {A} a.
Arguments Thrown {A} e.

(** ** schedulers.ts *)

Module Schedulers.

(** [Scheduler = (firstRequestTime, lastRequestTime, batchSize) => number].
    Both reference policies read [Date.now()]; the clock reading is the
    first argument here.

    A JavaScript number is a double. The integers below agree with it as
    long as the configured times, the clock readings and every difference
    taken stay within the safe integers, of magnitude below [2 ^ 53];
    beyond them the code rounds and these definitions do not. The
    statements about the policies carry these bounds as hypotheses. *)
Definition Scheduler : Type := Z -> Z -> Z -> Z -> Z.

(** [maxBatchSize !== undefined && batchSize >= maxBatchSize] *)
Definition size_reached (maxBatchSize : option Z) (batchSize : Z) : bool :=
  match maxBatchSize with
  | Some m => bool_decide (m <= batchSize)
  | None => false
  end.

Definition createFixedWindowScheduler
    (windowMs : Z) (maxBatchSize : option Z) : Scheduler :=
  fun now firstRequestTime _lastRequestTime batchSize =>
    if size_reached maxBatchSize batchSize then 0
    else
      let elapsed := now - firstRequestTime in
      let remaining := windowMs - elapsed in
      Z.max 0 remaining.

Definition createDebouncedScheduler
    (delayMs maxWaitMs : Z) (maxBatchSize : option Z) : Scheduler :=
  fun now firstRequestTime lastRequestTime batchSize =>
    if size_reached maxBatchSize batchSize then 0
    else
      let timeSinceLast := now - lastRequestTime in
      let timeSinceFirst := now - firstRequestTime in
      let maxWaitRemaining := maxWaitMs - timeSinceFirst in
      let debounceRemaining := delayMs - timeSinceLast in
      let remaining := Z.min maxWaitRemaining debounceRemaining in
      Z.max 0 remaining.

End Schedulers.

(** ** resolvers.ts *)

Module Resolvers.

(** [{ id, payload }] *)
Definition descriptor : Type := Id * value.

(** [RequestResolver<Payload, Id, CombinedResponse, Result>]: the manager
    calls it inside [try], so the interface allows it to throw. *)
Definition RequestResolver (CombinedResponse : Type) : Type :=
  CombinedResponse -> descriptor -> outcome value.

(** Keys of an ordinary object are strings or symbols. *)
Inductive PropertyKey : Type :=
  | KeyStr (s : string)
  | KeySym (k : nat).

#[global] Instance PropertyKey_eq_dec : EqDecision PropertyKey.
Proof. solve_decision. Defined.

#[global] Instance PropertyKey_countable : Countable PropertyKey.
Proof.
  refine (inj_countable'
    (fun k => match k with KeyStr s => inl s | KeySym n => inr n end)
    (fun x => match x with inl s => KeyStr s | inr n => KeySym n end) _).
  by intros [].
Defined.

(** [obj[idKey]] converts a number to a string: for a safe integer, its
    decimal digits. Larger numbers are outside this model. *)
Definition to_property_key (i : Id) : PropertyKey :=
  match i with
  | IdStr s => KeyStr s
  | IdNum n => KeyStr (pretty n)
  | IdSym k => KeySym k
  end.

(** [Record<Id, Result> | Map<Id, Result>] *)
Inductive Keyed : Type :=
  | KeyedMap (entries : gmap Id value)
  | KeyedRecord (props : gmap PropertyKey value).

(** Types are erased at run time: where a response of type [A] is
    expected, the processor may as well have resolved with [undefined] or
    [null]. *)
Inductive nullable (A : Type) : Type :=
  | Undefined
  | Null
  | Present (a : A).
Arguments Undefined {A}.
Arguments Null {A}.
Arguments Present {A} a.

(** A lookup that finds nothing evaluates to [undefined]. *)
Definition or_undefined (o : option value) : value :=
  default VUndefined o.

(** The names every plain object inherits from [Object.prototype]. *)
Definition object_prototype : list string :=
  ["constructor"; "__defineGetter__"; "__defineSetter__"; "hasOwnProperty";
   "__lookupGetter__"; "__lookupSetter__"; "isPrototypeOf";
   "propertyIsEnumerable"; "toString"; "valueOf"; "__proto__";
   "toLocaleString"].

(** What a property read finds on the prototype. *)
Definition inherited (key : PropertyKey) : option value :=
  match key with
  | KeyStr s => if decide (s ∈ object_prototype) then Some (VBuiltin s) else None
  | KeySym _ => None
  end.

(** [record[key]] on a plain object with own properties [props]: the own
    property, else the inherited one, else [undefined]. *)
Definition record_get (props : gmap PropertyKey value) (key : PropertyKey) : value :=
  match props !! key with
  | Some v => v
  | None => or_undefined (inherited key)
  end.

Definition createKeyResolver : RequestResolver (nullable Keyed) :=
  fun combinedResponse request =>
    let idKey := fst request in
    match combinedResponse with
    | Undefined | Null =>
        (* not an instance of Map, and reading a property of it throws *)
        Thrown VTypeError
    | Present (KeyedMap entries) => Returned (or_undefined (entries !! idKey))
    | Present (KeyedRecord props) =>
        Returned (record_get props (to_property_key idKey))
    end.

(** [combinedResponse[idKey]] on an array. *)
Definition array_get (elems : list value) (n : Z) : value :=
  if bool_decide (0 <= n) then or_undefined (elems !! Z.to_nat n)
  else VUndefined.

(** The policy is typed [Id extends number]: only numbers index the array;
    for the keys the type excludes the model reads [undefined]. *)
Definition array_index (elems : list value) (i : Id) : value :=
  match i with
  | IdNum n => array_get elems n
  | IdStr _ | IdSym _ => VUndefined
  end.

Definition createArrayIndexResolver : RequestResolver (nullable (list value)) :=
  fun combinedResponse request =>
    let idKey := fst request in
    match combinedResponse with
    | Undefined | Null => Thrown VTypeError
    | Present elems => Returned (array_index elems idKey)
    end.

(** The identity is no key of the Map; no property of the plain object, own
    or inherited. *)
Definition key_absent (combinedResponse : Keyed) (i : Id) : Prop :=
  match combinedResponse with
  | KeyedMap entries => entries !! i = None
  | KeyedRecord props =>
      props !! to_property_key i = None /\ inherited (to_property_key i) = None
  end.

(** The integers a number holds exactly; their decimal digits are the
    string the number converts to. *)
Definition safe_integer (n : Z) : Prop := - 2 ^ 53 < n < 2 ^ 53.

Definition safe_id (i : Id) : Prop :=
  match i with
  | IdNum n => safe_integer n
  | IdStr _ | IdSym _ => True
  end.

#[global] Instance safe_id_dec i : Decision (safe_id i).
Proof. unfold safe_id, safe_integer. destruct i; apply _. Defined.

End Resolvers.

(** ** index.ts: the state the manager works on *)

Module Manager.

Export Schedulers Resolvers.

(** One element of an entry's [requests] array. [resolve] and [reject] are
    the settling functions of [promise]; [promise] is its index in the
    promise store. *)
Record Request : Type := {
  promise : nat;
  cancelled : bool;
}.

(** One value of the [pending] map. *)
Record Entry : Type := {
  id : Id;
  payload : value;
  requests : list Request;
}.

Inductive Settlement : Type :=
  | Pending
  | Fulfilled (v : value)
  | Rejected (e : value).

(** [BatchRequestHandle]: the promise extended with [id] and [cancel]. *)
Record Handle : Type := {
  handle_id : Id;
  handle_promise : nat;
}.

(** What [enqueue] reads of the [AbortSignal] it is given. *)
Record AbortSignal : Type := {
  signal_ref : nat;
  aborted : bool;
  reason : value;
}.

(** [request: Id | { payload: Payload; id?: Id }]; [payload] is [None]
    when the object has no such property. *)
Inductive EnqueueRequest : Type :=
  | BareId (i : Id)
  | WithPayload (i : option Id) (p : option value).

(** Calls that leave the manager. *)
Inductive Call : Type :=
  | ProcessorCalled (requestList : list descriptor)
  | ResolverCalled (request : descriptor).

(** Entry objects are referred to by their address in [heap]. *)
Abbreviation loc := nat (only parsing).

Record World : Type := {
  (* fields of the BatchManager instance *)
  pending : list (Id * loc);          (* Map<Id, entry>, in insertion order *)
  firstRequestTime : option Z;
  lastRequestTime : option Z;
  timer : option nat;
  (* objects shared with callers and with the runtime *)
  heap : list Entry;                  (* entry objects *)
  promises : list Settlement;         (* state of every promise created *)
  timeouts : list (nat * Z);          (* armed timeouts with their due time *)
  nextTimeout : nat;
  clock : Z;                          (* Date.now() *)
  nextSymbol : nat;
  listeners : list (nat * Handle);    (* 'abort' listeners, per signal *)
  awaiting : list (list loc);         (* flushes suspended at the await *)
  calls : list Call;
}.

Definition set_pending (f : list (Id * loc) -> list (Id * loc)) (w : World) : World :=
  {| pending := f (pending w); firstRequestTime := firstRequestTime w;
     lastRequestTime := lastRequestTime w; timer := timer w; heap := heap w;
     promises := promises w; timeouts := timeouts w;
     nextTimeout := nextTimeout w; clock := clock w;
     nextSymbol := nextSymbol w; listeners := listeners w;
     awaiting := awaiting w; calls := calls w |}.

Definition set_firstRequestTime (x : option Z) (w : World) : World :=
  {| pending := pending w; firstRequestTime := x;
     lastRequestTime := lastRequestTime w; timer := timer w; heap := heap w;
     promises := promises w; timeouts := timeouts w;
     nextTimeout := nextTimeout w; clock := clock w;
     nextSymbol := nextSymbol w; listeners := listeners w;
     awaiting := awaiting w; calls := calls w |}.

Definition set_lastRequestTime (x : option Z) (w : World) : World :=
  {| pending := pending w; firstRequestTime := firstRequestTime w;
     lastRequestTime := x; timer := timer w; heap := heap w;
     promises := promises w; timeouts := timeouts w;
     nextTimeout := nextTimeout w; clock := clock w;
     nextSymbol := nextSymbol w; listeners := listeners w;
     awaiting := awaiting w; calls := calls w |}.

Definition set_timer (x : option nat) (w : World) : World :=
  {| pending := pending w; firstRequestTime := firstRequestTime w;
     lastRequestTime := lastRequestTime w; timer := x; heap := heap w;
     promises := promises w; timeouts := timeouts w;
     nextTimeout := nextTimeout w; clock := clock w;
     nextSymbol := nextSymbol w; listeners := listeners w;
     awaiting := awaiting w; calls := calls w |}.

Definition set_heap (f : list Entry -> list Entry) (w : World) : World :=
  {| pending := pending w; firstRequestTime := firstRequestTime w;
     lastRequestTime := lastRequestTime w; timer := timer w;
     heap := f (heap w);
     promises := promises w; timeouts := timeouts w;
     nextTimeout := nextTimeout w; clock := clock w;
     nextSymbol := nextSymbol w; listeners := listeners w;
     awaiting := awaiting w; calls := calls w |}.

Definition set_promises (f : list Settlement -> list Settlement) (w : World) : World :=
  {| pending := pending w; firstRequestTime := firstRequestTime w;
     lastRequestTime := lastRequestTime w; timer := timer w; heap := heap w;
     promises := f (promises w); timeouts := timeouts w;
     nextTimeout := nextTimeout w; clock := clock w;
     nextSymbol := nextSymbol w; listeners := listeners w;
     awaiting := awaiting w; calls := calls w |}.

Definition set_timeouts (f : list (nat * Z) -> list (nat * Z)) (w : World) : World :=
  {| pending := pending w; firstRequestTime := firstRequestTime w;
     lastRequestTime := lastRequestTime w; timer := timer w; heap := heap w;
     promises := promises w; timeouts := f (timeouts w);
     nextTimeout := nextTimeout w; clock := clock w;
     nextSymbol := nextSymbol w; listeners := listeners w;
     awaiting := awaiting w; calls := calls w |}.

Definition set_nextTimeout (x : nat) (w : World) : World :=
  {| pending := pending w; firstRequestTime := firstRequestTime w;
     lastRequestTime := lastRequestTime w; timer := timer w; heap := heap w;
     promises := promises w; timeouts := timeouts w;
     nextTimeout := x; clock := clock w;
     nextSymbol := nextSymbol w; listeners := listeners w;
     awaiting := awaiting w; calls := calls w |}.

Definition set_clock (x : Z) (w : World) : World :=
  {| pending := pending w; firstRequestTime := firstRequestTime w;
     lastRequestTime := lastRequestTime w; timer := timer w; heap := heap w;
     promises := promises w; timeouts := timeouts w;
     nextTimeout := nextTimeout w; clock := x;
     nextSymbol := nextSymbol w; listeners := listeners w;
     awaiting := awaiting w; calls := calls w |}.

Definition set_nextSymbol (x : nat) (w : World) : World :=
  {| pending := pending w; firstRequestTime := firstRequestTime w;
     lastRequestTime := lastRequestTime w; timer := timer w; heap := heap w;
     promises := promises w; timeouts := timeouts w;
     nextTimeout := nextTimeout w; clock := clock w;
     nextSymbol := x; listeners := listeners w;
     awaiting := awaiting w; calls := calls w |}.

Definition set_listeners (f : list (nat * Handle) -> list (nat * Handle)) (w : World) : World :=
  {| pending := pending w; firstRequestTime := firstRequestTime w;
     lastRequestTime := lastRequestTime w; timer := timer w; heap := heap w;
     promises := promises w; timeouts := timeouts w;
     nextTimeout := nextTimeout w; clock := clock w;
     nextSymbol := nextSymbol w; listeners := f (listeners w);
     awaiting := awaiting w; calls := calls w |}.

Definition set_awaiting (f : list (list loc) -> list (list loc)) (w : World) : World :=
  {| pending := pending w; firstRequestTime := firstRequestTime w;
     lastRequestTime := lastRequestTime w; timer := timer w; heap := heap w;
     promises := promises w; timeouts := timeouts w;
     nextTimeout := nextTimeout w; clock := clock w;
     nextSymbol := nextSymbol w; listeners := listeners w;
     awaiting := f (awaiting w); calls := calls w |}.

Definition log_call (c : Call) (w : World) : World :=
  {| pending := pending w; firstRequestTime := firstRequestTime w;
     lastRequestTime := lastRequestTime w; timer := timer w; heap := heap w;
     promises := promises w; timeouts := timeouts w;
     nextTimeout := nextTimeout w; clock := clock w;
     nextSymbol := nextSymbol w; listeners := listeners w;
     awaiting := awaiting w; calls := calls w ++ [c] |}.

(** [options.scheduler || createFixedWindowScheduler(10_000)] *)
Definition scheduler_option (scheduler : option Scheduler) : Scheduler :=
  default (createFixedWindowScheduler 10000 None) scheduler.

(** A manager that has just been constructed, at clock reading [t0]. *)
Definition init (t0 : Z) : World :=
  {| pending := []; firstRequestTime := None; lastRequestTime := None;
     timer := None; heap := []; promises := []; timeouts := [];
     nextTimeout := 1%nat; clock := t0; nextSymbol := 0%nat;
     listeners := []; awaiting := []; calls := [] |}.

(** *** The pending [Map] *)

(** [Map.prototype.get] *)
Fixpoint map_get (k : Id) (m : list (Id * loc)) : option loc :=
  match m with
  | [] => None
  | (k', l) :: m' => if decide (k' = k) then Some l else map_get k m'
  end.

(** [Map.prototype.delete] *)
Fixpoint map_delete (k : Id) (m : list (Id * loc)) : list (Id * loc) :=
  match m with
  | [] => []
  | (k', l) :: m' =>
      if decide (k' = k) then map_delete k m' else (k', l) :: map_delete k m'
  end.

(** [Map.prototype.set]: a key already present keeps its place. *)
Fixpoint map_set (k : Id) (l : loc) (m : list (Id * loc)) : list (Id * loc) :=
  match m with
  | [] => [(k, l)]
  | (k', l') :: m' =>
      if decide (k' = k) then (k, l) :: m' else (k', l') :: map_set k l m'
  end.

(** [Array.from(this.pending.values())] *)
Definition map_values (m : list (Id * loc)) : list loc := m.*2.

(** *** Promises and timeouts *)

(** Settling a promise that is no longer pending does nothing. *)
Definition settle (p : nat) (s : Settlement) (store : list Settlement) : list Settlement :=
  match store !! p with
  | Some Pending => <[p:=s]> store
  | _ => store
  end.

(** [req.resolve(v)] *)
Definition resolve (p : nat) (v : value) (w : World) : World :=
  set_promises (settle p (Fulfilled v)) w.

(** [req.reject(e)] *)
Definition reject (p : nat) (e : value) (w : World) : World :=
  set_promises (settle p (Rejected e)) w.

(** [clearTimeout(t)] *)
Definition clearTimeout (t : nat) (w : World) : World :=
  set_timeouts (filter (fun x => x.1 <> t)) w.

(** The longest delay a timer of the runtime holds, in ms. *)
Definition TIMEOUT_MAX : Z := 2147483647.

(** The delay a timeout is armed with: one the runtime cannot hold is
    replaced by 1 ms. *)
Definition timer_delay (delay : Z) : Z :=
  if bool_decide (delay <= TIMEOUT_MAX) then delay else 1.

(** [setTimeout(this.triggerBatch, delay)]: the callback is always
    [this.triggerBatch], the method read off the manager without its
    receiver, so only the due time is kept. *)
Definition setTimeout (delay : Z) (w : World) : nat * World :=
  let t := nextTimeout w in
  (t, set_nextTimeout (S t)
        (set_timeouts (fun ts => ts ++ [(t, clock w + timer_delay delay)]) w)).

(** *** Private helpers of the class *)

Definition clearExistingTimer (w : World) : World :=
  match timer w with
  | Some t => set_timer None (clearTimeout t w)
  | None => w
  end.

Definition resetCurrentBatch (w : World) : World :=
  let w := set_pending (fun _ => []) w in
  let w := clearExistingTimer w in
  let w := set_firstRequestTime None w in
  set_lastRequestTime None w.

Definition with_requests (entry : Entry) (rs : list Request) : Entry :=
  {| id := id entry; payload := payload entry; requests := rs |}.

(** The [cancel] closure of a handle. *)
Definition handle_cancel (h : Handle) (reason : value) (w : World) : World :=
  match map_get (handle_id h) (pending w) with
  | None => w
  | Some l =>
      match heap w !! l with
      | None => w
      | Some entry =>
          (* entry.requests.findIndex((r) => r.promise === promise) *)
          match list_find (fun r => promise r = handle_promise h) (requests entry) with
          | None => w
          | Some (idx, req) =>
              let w :=
                if cancelled req then w
                else reject (promise req) (nullish_or reason BatchCancellationError) w in
              (* entry.requests.splice(idx, 1): the request object, marked
                 cancelled, is referred to by nothing from here on *)
              let remaining := delete idx (requests entry) in
              let w := set_heap <[l:=with_requests entry remaining]> w in
              let w :=
                match remaining with
                | [] => set_pending (map_delete (handle_id h)) w
                | _ => w
                end in
              match pending w with
              | [] => resetCurrentBatch w
              | _ => w
              end
          end
      end
  end.

Definition createPromiseHandle (reqId : Id) (signal : option AbortSignal)
    (w : World) : Handle * World :=
  let p := length (promises w) in
  let w := set_promises (fun store => store ++ [Pending]) w in
  let handle := {| handle_id := reqId; handle_promise := p |} in
  let w :=
    match signal with
    | None => w
    | Some s =>
        if aborted s then handle_cancel handle (reason s) w
        else set_listeners (fun ls => ls ++ [(signal_ref s, handle)]) w
    end in
  (handle, w).

(** The two loops of [cancel] over one entry: every request that is not
    cancelled is marked and rejected. *)
Definition cancel_request (w : World) (req : Request) : World :=
  if cancelled req then w else reject (promise req) BatchCancellationError w.

Definition mark_cancelled (req : Request) : Request :=
  {| promise := promise req; cancelled := true |}.

Definition cancel_entry (w : World) (l : loc) : World :=
  match heap w !! l with
  | None => w
  | Some entry =>
      let w := foldl cancel_request w (requests entry) in
      set_heap <[l:=with_requests entry (mark_cancelled <$> requests entry)]> w
  end.

Definition cancel (i : option Id) (w : World) : World :=
  match i with
  | None =>
      let w := foldl cancel_entry w (map_values (pending w)) in
      resetCurrentBatch w
  | Some i =>
      match map_get i (pending w) with
      | None => w
      | Some l =>
          let w := cancel_entry w l in
          let w := set_pending (map_delete i) w in
          match pending w with
          | [] => resetCurrentBatch w
          | _ => w
          end
      end
  end.

Definition descriptor_of (entry : Entry) : descriptor := (id entry, payload entry).

(** [triggerBatch] up to the [await]: what is passed to the processor, and
    the world in which the processor starts to run. Nothing is passed when
    the snapshot is empty. *)
Definition triggerBatch_begin (w : World)
    : option (list loc * list descriptor) * World :=
  let currentBatchEntries := map_values (pending w) in
  let w := resetCurrentBatch w in
  match currentBatchEntries with
  | [] => (None, w)
  | _ =>
      let requestList :=
        omap (fun l => descriptor_of <$> heap w !! l) currentBatchEntries in
      (Some (currentBatchEntries, requestList),
       log_call (ProcessorCalled requestList) w)
  end.

(** The [catch] branch for one entry. *)
Definition reject_live (error : value) (w : World) (req : Request) : World :=
  if cancelled req then w else reject (promise req) error w.

Definition reject_entry (error : value) (w : World) (l : loc) : World :=
  match heap w !! l with
  | None => w
  | Some entry => foldl (reject_live error) w (requests entry)
  end.

Section Configured.

Context {CombinedResponse : Type}.
Variable resolver : RequestResolver CombinedResponse.
Variable scheduler : Scheduler.

Definition manageTimersAndScheduler (w : World) : World :=
  let now := clock w in
  (* this.firstRequestTime ?? now *)
  let first := default now (firstRequestTime w) in
  let w := set_firstRequestTime (Some first) w in
  let w := set_lastRequestTime (Some now) w in
  let delay := scheduler (clock w) first now (Z.of_nat (length (pending w))) in
  let w := clearExistingTimer w in
  let '(t, w) := setTimeout (Z.max 0 delay) w in
  set_timer (Some t) w.

Definition push_request (req : Request) (entry : Entry) : Entry :=
  with_requests entry (requests entry ++ [req]).

(** The request id: the one provided, or a fresh [Symbol()]. *)
Definition determine_id (request : EnqueueRequest) (w : World) : Id * World :=
  match request with
  | BareId i => (i, w)
  | WithPayload (Some i) _ => (i, w)
  | WithPayload None _ =>
      (IdSym (nextSymbol w), set_nextSymbol (S (nextSymbol w)) w)
  end.

(** The request payload: the one provided, or [undefined]. *)
Definition determine_payload (request : EnqueueRequest) : value :=
  match request with
  | WithPayload _ (Some p) => p
  | _ => VUndefined
  end.

(** The deduplication check of [enqueue] and what follows it. *)
Definition enqueue_entry (reqId : Id) (payload : value)
    (signal : option AbortSignal) (w : World) : Handle * World :=
  match map_get reqId (pending w) with
  | Some l =>
      let '(handle, w) := createPromiseHandle reqId signal w in
      let req := {| promise := handle_promise handle; cancelled := false |} in
      let w := set_heap (alter (push_request req) l) w in
      (handle, manageTimersAndScheduler w)
  | None =>
      let '(handle, w) := createPromiseHandle reqId signal w in
      let req := {| promise := handle_promise handle; cancelled := false |} in
      let entry := {| id := reqId; payload := payload; requests := [req] |} in
      let l := length (heap w) in
      let w := set_heap (fun h => h ++ [entry]) w in
      let w := set_pending (map_set reqId l) w in
      (handle, manageTimersAndScheduler w)
  end.

Definition enqueue (request : EnqueueRequest) (signal : option AbortSignal)
    (w : World) : Handle * World :=
  let '(reqId, w) := determine_id request w in
  let payload := determine_payload request in
  enqueue_entry reqId payload signal w.

(** One round of the loop that maps the combined response to the requests
    of an entry. *)
Definition settle_live (entryResult entryError : value) (w : World)
    (req : Request) : World :=
  if cancelled req then w
  else if negb (is_undefined entryError) then reject (promise req) entryError w
  else resolve (promise req) entryResult w.

Definition resolve_entry (combinedResponse : CombinedResponse) (w : World)
    (l : loc) : World :=
  match heap w !! l with
  | None => w
  | Some entry =>
      if forallb cancelled (requests entry) then w
      else
        let w := log_call (ResolverCalled (descriptor_of entry)) w in
        let '(entryResult, entryError) :=
          match resolver combinedResponse (descriptor_of entry) with
          | Returned r => (r, VUndefined)
          | Thrown err => (VUndefined, err)
          end in
        foldl (settle_live entryResult entryError) w (requests entry)
  end.

(** [triggerBatch] from the point where the processor's promise has
    settled. *)
Definition triggerBatch_resume (currentBatchEntries : list loc)
    (result : outcome CombinedResponse) (w : World) : World :=
  match result with
  | Thrown error => foldl (reject_entry error) w currentBatchEntries
  | Returned combinedResponse =>
      foldl (resolve_entry combinedResponse) w currentBatchEntries
  end.

(** *** What can happen to a manager *)

Inductive Op : Type :=
  | OpEnqueue (request : EnqueueRequest) (signal : option AbortSignal)
  | OpCancel (i : option Id)
  | OpHandleCancel (h : Handle) (reason : value)
  | OpAbort (signal : nat) (reason : value)
  | OpTick (ms : N)
  | OpTimeout (t : nat)
  | OpProcessorSettles (k : nat) (result : outcome CombinedResponse).

(** The listeners of an aborted signal cancel their handle and detach. *)
Definition abort (signal : nat) (reason : value) (w : World) : World :=
  let fired := filter (fun x => x.1 = signal) (listeners w) in
  let w := set_listeners (filter (fun x => x.1 <> signal)) w in
  foldl (fun w x => handle_cancel x.2 reason w) w fired.

(** A flush that called the processor is suspended at its [await],
    holding on to its snapshot. *)
Definition suspend (r : option (list loc * list descriptor) * World) : World :=
  match r with
  | (None, w) => w
  | (Some (snapshot, _), w) => set_awaiting (fun a => a ++ [snapshot]) w
  end.

(** [triggerBatch] as a timer calls it. The callback is the bare function:
    its [this] is no manager, [this.pending] is no Map, and the first
    statement, [Array.from(this.pending.values())], throws a [TypeError].
    The function is [async], so the error rejects the promise it returns,
    which nobody holds; no field of the manager is read or written. *)
Definition triggerBatch_unbound (w : World) : World := w.

(** An armed timeout whose time has come is consumed and runs its
    callback. *)
Definition timeout_fires (t : nat) (w : World) : World :=
  match list_find (fun x => x.1 = t) (timeouts w) with
  | None => w
  | Some (_, (_, due)) =>
      if bool_decide (due <= clock w) then
        let w := set_timeouts (filter (fun x => x.1 <> t)) w in
        triggerBatch_unbound w
      else w
  end.

Definition processor_settles (k : nat) (result : outcome CombinedResponse)
    (w : World) : World :=
  match awaiting w !! k with
  | None => w
  | Some snapshot =>
      triggerBatch_resume snapshot result (set_awaiting (delete k) w)
  end.

Definition step (w : World) (op : Op) : World :=
  match op with
  | OpEnqueue request signal => (enqueue request signal w).2
  | OpCancel i => cancel i w
  | OpHandleCancel h reason => handle_cancel h reason w
  | OpAbort signal reason => abort signal reason w
  | OpTick ms => set_clock (clock w + Z.of_N ms) w
  | OpTimeout t => timeout_fires t w
  | OpProcessorSettles k result => processor_settles k result w
  end.

Definition run (ops : list Op) (w : World) : World := foldl step w ops.

End Configured.

(** *** Well-formed worlds *)

Definition entry_promises (entry : Entry) : list nat := promise <$> requests entry.

Definition heap_promises (h : list Entry) : list nat := h ≫= entry_promises.

(** A request nobody has settled or cancelled yet. *)
Definition live (store : list Settlement) (req : Request) : Prop :=
  cancelled req = false /\ store !! promise req = Some Pending.

Definition entry_ok (h : list Entry) (store : list Settlement) (l : loc) : Prop :=
  match h !! l with
  | Some entry => requests entry <> [] /\ Forall (live store) (requests entry)
  | None => False
  end.

Definition timer_ok (w : World) : Prop :=
  match timer w with
  | Some t =>
      pending w <> [] /\
      (* the timeout is armed, or it has fired *)
      ((timeouts w).*1 = [t] \/ timeouts w = []) /\
      match firstRequestTime w, lastRequestTime w with
      | Some first, Some last => first <= last <= clock w
      | _, _ => False
      end
  | None =>
      pending w = [] /\ timeouts w = [] /\
      firstRequestTime w = None /\ lastRequestTime w = None
  end.

(** Every promise held by an entry was created, and is held once. *)
Definition store_ok (h : list Entry) (store : list Settlement) : Prop :=
  NoDup (heap_promises h) /\
  Forall (fun p => (p < length store)%nat) (heap_promises h).

(** [m] is a pending map and [al] the entries of suspended flushes. *)
Definition core_ok (m : list (Id * loc)) (al : list loc)
    (h : list Entry) (store : list Settlement) : Prop :=
  NoDup m.*1 /\
  Forall (fun x => id <$> h !! x.2 = Some x.1) m /\
  NoDup (m.*2 ++ al) /\
  Forall (entry_ok h store) (m.*2 ++ al) /\
  store_ok h store.

Definition wf (w : World) : Prop :=
  core_ok (pending w) (concat (awaiting w)) (heap w) (promises w) /\
  timer_ok w.

#[global] Instance is_pending_dec (o : option Settlement) : Decision (o = Some Pending).
Proof. destruct o as [[| |]|]; (by left) || (by right). Defined.

#[global] Instance live_dec store req : Decision (live store req).
Proof. unfold live. apply _. Defined.

#[global] Instance entry_ok_dec h store l : Decision (entry_ok h store l).
Proof. unfold entry_ok. destruct (h !! l); apply _. Defined.

#[global] Instance timer_ok_dec w : Decision (timer_ok w).
Proof.
  unfold timer_ok.
  destruct (timer w), (firstRequestTime w), (lastRequestTime w); apply _.
Defined.

#[global] Instance wf_dec w : Decision (wf w).
Proof. unfold wf, core_ok, store_ok. apply _. Defined.

(** *** Vocabulary of the statements *)

(** What becomes of one promise when something settles it with [s]. *)
Definition settle_at (s : Settlement) (o : option Settlement) : option Settlement :=
  match o with
  | Some Pending => Some s
  | _ => o
  end.

(** Every request of the list that is not cancelled is settled with [s]. *)
Definition settle_reqs (s : Settlement) (store : list Settlement)
    (reqs : list Request) : list Settlement :=
  foldl (fun store r => if cancelled r then store else settle (promise r) s store)
    store reqs.

(** The promises of the requests that are not cancelled. *)
Definition live_promises (reqs : list Request) : list nat :=
  promise <$> filter (fun r => cancelled r = false) reqs.

(** What the loop over the requests of a resolved entry settles them with. *)
Definition entry_settlement (entryResult entryError : value) : Settlement :=
  if negb (is_undefined entryError) then Rejected entryError
  else Fulfilled entryResult.

(** Clearing the timer the manager refers to leaves no timeout armed. *)
Definition timeouts_clearable (w : World) : Prop :=
  match timer w with
  | Some t => filter (fun x => x.1 <> t) (timeouts w) = []
  | None => timeouts w = []
  end.

(** [cancel_entry] touches the entry and the promise store only. *)
Definition same_manager (w w' : World) : Prop :=
  pending w' = pending w /\ timer w' = timer w /\
  timeouts w' = timeouts w /\
  firstRequestTime w' = firstRequestTime w /\
  lastRequestTime w' = lastRequestTime w /\
  awaiting w' = awaiting w /\ calls w' = calls w /\ clock w' = clock w /\
  listeners w' = listeners w.

(** The flush leaves the manager and the entries as they are. *)
Definition same_entries (w w' : World) : Prop :=
  heap w' = heap w /\ pending w' = pending w /\ timer w' = timer w /\
  timeouts w' = timeouts w /\
  firstRequestTime w' = firstRequestTime w /\
  lastRequestTime w' = lastRequestTime w /\
  awaiting w' = awaiting w /\ clock w' = clock w /\
  listeners w' = listeners w.

(** The listener [createPromiseHandle] attaches, if any. *)
Definition new_listeners (handle : Handle) (signal : option AbortSignal)
    : list (nat * Handle) :=
  match signal with
  | Some s => if aborted s then [] else [(signal_ref s, handle)]
  | None => []
  end.

(** The units built from a snapshot. *)
Definition request_list (h : list Entry) (snapshot : list loc) : list descriptor :=
  omap (fun l => descriptor_of <$> h !! l) snapshot.

(** The entries of a snapshot that are not skipped. *)
Definition skipped (entry : Entry) : bool := forallb cancelled (requests entry).

(** The entry objects a snapshot refers to. *)
Definition snapshot_entries (h : list Entry) (snapshot : list loc) : list Entry :=
  omap (fun l => h !! l) snapshot.

(** Settling the live requests of each entry with what [f] says. *)
Definition settle_entries (f : Entry -> Settlement) (store : list Settlement)
    (es : list Entry) : list Settlement :=
  foldl (fun store e => settle_reqs (f e) store (requests e)) store es.

(** The entries for which the resolution policy is called. *)
Definition resolved_entries (h : list Entry) (snapshot : list loc) : list Entry :=
  filter (fun e => skipped e = false) (snapshot_entries h snapshot).

(** The requests of the entry at [l] that are not cancelled still wait for
    their result. *)
Definition entry_waiting (h : list Entry) (store : list Settlement) (l : loc) : Prop :=
  match h !! l with
  | Some entry =>
      Forall (fun r => cancelled r = false -> store !! promise r = Some Pending)
        (requests entry)
  | None => False
  end.

(** What a flush needs of its snapshot when the processor has settled. *)
Definition snapshot_ok (w : World) (snapshot : list loc) : Prop :=
  NoDup (heap_promises (heap w)) /\
  Forall (entry_waiting (heap w) (promises w)) snapshot.

#[global] Instance entry_waiting_dec h store l : Decision (entry_waiting h store l).
Proof. unfold entry_waiting. destruct (h !! l); apply _. Defined.

#[global] Instance snapshot_ok_dec w snapshot : Decision (snapshot_ok w snapshot).
Proof. unfold snapshot_ok. apply _. Defined.

(** From [w] to [w'] the entries that the pending map of [w] does not
    refer to stay as they are, and out of reach of the pending map. *)
Definition heap_frame (w w' : World) : Prop :=
  (length (heap w) <= length (heap w'))%nat /\
  forall l, (l < length (heap w))%nat -> l ∉ (pending w).*2 ->
    heap w' !! l = heap w !! l /\ l ∉ (pending w').*2.

(** The request names the identity [X] itself. *)
Definition names (X : Id) (request : EnqueueRequest) : Prop :=
  match request with
  | BareId i => i = X
  | WithPayload (Some i) _ => i = X
  | WithPayload None _ => False
  end.

#[global] Instance names_dec X request : Decision (names X request).
Proof. unfold names. destruct request as [i|[i|] p]; apply _. Defined.

(** The requests [enqueue_all] adds, for the promises it creates. *)
Definition fresh_requests (ps : list nat) : list Request :=
  (fun p => {| promise := p; cancelled := false |}) <$> ps.

(** The timer and the window timestamps of [w'] are those of [w]. *)
Definition window_kept (w w' : World) : Prop :=
  timer w' = timer w /\ timeouts w' = timeouts w /\
  firstRequestTime w' = firstRequestTime w /\
  lastRequestTime w' = lastRequestTime w.

(** What no cancellation touches; it keeps the window while requests
    remain pending. *)
Definition quiet (w w' : World) : Prop :=
  awaiting w' = awaiting w /\ calls w' = calls w /\ clock w' = clock w /\
  listeners w' = listeners w /\
  (pending w' <> [] -> window_kept w w').

(** The window timestamps are ordered, not in the future, and no armed
    timeout is due before the last enqueue. *)
Definition times_ok (w : World) : Prop :=
  forall first last,
    firstRequestTime w = Some first -> lastRequestTime w = Some last ->
    first <= last <= clock w /\ Forall (fun x => last <= x.2) (timeouts w).

(** The operation is the completion of a processor call. *)
Definition settles {CombinedResponse : Type}
    (op : Op (CombinedResponse:=CombinedResponse)) : bool :=
  match op with
  | OpProcessorSettles _ _ => true
  | _ => false
  end.

(** No pending identity is a symbol that [Symbol()] has yet to create. *)
Definition symbols_fresh (w : World) : Prop :=
  Forall (fun x => match x.1 with
                   | IdSym k => (k < nextSymbol w)%nat
                   | _ => True
                   end) (pending w).

#[global] Instance symbols_fresh_dec w : Decision (symbols_fresh w).
Proof.
  unfold symbols_fresh. apply Forall_dec. intros [[s|n|k] l]; simpl; apply _.
Defined.

Section Vocabulary.

Context {CombinedResponse : Type}.
Variable resolver : RequestResolver CombinedResponse.
Variable scheduler : Scheduler.

(** The delay the timer is armed with by an enqueue in world [w]. *)
Definition armed_delay (w : World) : Z :=
  Z.max 0
    (scheduler (clock w) (default (clock w) (firstRequestTime w)) (clock w)
       (Z.of_nat (length (pending w)))).

(** What the resolution policy makes of one entry. *)
Definition entry_outcome (combinedResponse : CombinedResponse) (entry : Entry)
    : Settlement :=
  match resolver combinedResponse (descriptor_of entry) with
  | Returned r => entry_settlement r VUndefined
  | Thrown err => entry_settlement VUndefined err
  end.

(** What the flush settles the live requests of an entry with. *)
Definition flush_outcome (result : outcome CombinedResponse) (entry : Entry)
    : Settlement :=
  match result with
  | Returned combinedResponse => entry_outcome combinedResponse entry
  | Thrown error => Rejected error
  end.

Definition resolver_calls (result : outcome CombinedResponse)
    (h : list Entry) (snapshot : list loc) : list Call :=
  match result with
  | Returned _ =>
      (fun e => ResolverCalled (descriptor_of e)) <$> resolved_entries h snapshot
  | Thrown _ => []
  end.

(** Enqueuing one request after the other; the handles come back in order. *)
Fixpoint enqueue_all (reqs : list (EnqueueRequest * option AbortSignal))
    (w : World) : list Handle * World :=
  match reqs with
  | [] => ([], w)
  | (request, signal) :: reqs =>
      let '(handle, w) := enqueue scheduler request signal w in
      let '(handles, w) := enqueue_all reqs w in
      (handle :: handles, w)
  end.

End Vocabulary.

End Manager.

Import Manager.

(** * Worlds and policies the statements are evaluated on *)

Definition example_scheduler : Scheduler := createFixedWindowScheduler 1 None.

Definition example_debounced : Scheduler := createDebouncedScheduler 1000 5000 None.

Definition example_aborted : AbortSignal :=
  {| signal_ref := 0; aborted := true;
     reason := VError "AbortError" "This operation was aborted" |}.

Definition throws_undefined : RequestResolver unit := fun _ _ => Thrown VUndefined.


(** An entry with a handle that was cancelled and rejected, and one that is
    still waiting, in the snapshot of a suspended flush. *)
Definition example_entry (i : Id) : Entry :=
  {| id := i; payload := VUndefined;
     requests := [{| promise := 0; cancelled := true |};
                  {| promise := 1; cancelled := false |}] |}.

Definition example_in_flight (i : Id) : World :=
  {| pending := []; firstRequestTime := None; lastRequestTime := None;
     timer := None;
     heap := [example_entry i];
     promises := [Rejected BatchCancellationError; Pending];
     timeouts := []; nextTimeout := 2%nat; clock := 1; nextSymbol := 0%nat;
     listeners := []; awaiting := [[0%nat]]; calls := [] |}.

Definition example_record : nullable Keyed :=
  Present (KeyedRecord {[ KeyStr "1" := VObject [("value", VStr "a")] ]}).

Definition example_array : nullable (list value) :=
  Present [VObject [("value", VStr "a")]; VObject [("value", VStr "b")]].

(** Two requests under one identity and one under another, in one window. *)
Definition example_pending : World :=
  run createKeyResolver example_scheduler
    [OpEnqueue (BareId (IdStr "1")) None; OpEnqueue (BareId (IdStr "1")) None;
     OpEnqueue (BareId (IdStr "2")) None]
    (init 0).

(** Two enqueues, 4500 ms apart, under the debounced policy. *)
Definition example_debounced_run : World :=
  run createKeyResolver example_debounced
    [OpEnqueue (BareId (IdStr "1")) None; OpTick 4500;
     OpEnqueue (BareId (IdStr "2")) None]
    (init 0).

(** Three requests under the identity "7": the first carries a payload,
    the second another, the third none. *)
Definition example_same_identity : list (EnqueueRequest * option AbortSignal) :=
  [(WithPayload (Some (IdStr "7")) (Some (VStr "first")), None);
   (WithPayload (Some (IdStr "7")) (Some (VStr "later")), None);
   (BareId (IdStr "7"), None)].

(** A manager whose only batch is in flight: [triggerBatch] has run on the
    manager up to its [await]. *)
Definition example_flushing : World :=
  suspend
    (triggerBatch_begin
       (run createKeyResolver example_scheduler
          [OpEnqueue (BareId (IdStr "1")) None; OpTick 1] (init 0))).


(** A manager whose first batch has been delivered, with the same identity
    pending again. *)
Definition example_second_window : World :=
  (enqueue example_scheduler (BareId (IdStr "1")) None
     (processor_settles createKeyResolver 0 (Returned example_record)
        example_flushing)).2.

(** A signal that has not aborted. *)
Definition example_signal : AbortSignal :=
  {| signal_ref := 0; aborted := false; reason := VUndefined |}.

(** Everything a caller can try on a request in flight. *)
Definition example_interference : list (Op (CombinedResponse:=nullable Keyed)) :=
  [OpCancel None;
   OpHandleCancel {| handle_id := IdStr "1"; handle_promise := 0 |} VNull;
   OpAbort 0 VNull; OpEnqueue (BareId (IdStr "1")) None;
   OpCancel (Some (IdStr "1"))].

(** ** The pending map as an association list *)

Section pending_map.
Implicit Types (m : list (Id * loc)) (k : Id) (l : loc).

Lemma map_get_Some_elem k l m : map_get k m = Some l -> (k, l) ∈ m.
Proof.
  induction m as [|[k' l'] m IH]; simpl; [done|].
  case_decide; intros; simplify_eq; [left|right; auto].
Qed.

Lemma map_get_None k m : map_get k m = None <-> k ∉ m.*1.
Proof.
  induction m as [|[k' l'] m IH]; simpl.
  - split; [intros _; apply not_elem_of_nil | done].
  - rewrite not_elem_of_cons. case_decide; simplify_eq.
    + split; [done|]. by intros [? _].
    + rewrite IH. split; [by split|by intros [_ ?]].
Qed.

Lemma map_get_elem k l m : NoDup m.*1 -> (k, l) ∈ m -> map_get k m = Some l.
Proof.
  induction m as [|[k' l'] m IH]; simpl; [by intros _ ?%elem_of_nil|].
  rewrite NoDup_cons, elem_of_cons. intros [Hk Hm] [?|Hin]; simplify_eq.
  - by rewrite decide_True.
  - rewrite decide_False; [auto|]. intros ->. apply Hk.
    apply list_elem_of_fmap. by exists (k, l).
Qed.

Lemma map_delete_filter k m : map_delete k m = filter (fun x => x.1 <> k) m.
Proof.
  induction m as [|[k' l'] m IH]; simpl; [done|].
  rewrite filter_cons; simpl. rewrite IH.
  destruct (decide (k' = k)), (decide (k' <> k)); done.
Qed.

Lemma map_set_fresh k l m : map_get k m = None -> map_set k l m = m ++ [(k, l)].
Proof.
  induction m as [|[k' l'] m IH]; simpl; [done|].
  case_decide; [done|]. intros ?. by rewrite IH.
Qed.

Lemma map_delete_sublist k m : map_delete k m `sublist_of` m.
Proof. rewrite map_delete_filter. apply sublist_filter. Qed.

Lemma map_get_delete k m : map_get k (map_delete k m) = None.
Proof.
  apply map_get_None. rewrite map_delete_filter.
  intros (x & -> & Hx)%list_elem_of_fmap.
  by apply list_elem_of_filter in Hx as [? _].
Qed.

Lemma map_get_delete_ne k k' m : k <> k' -> map_get k' (map_delete k m) = map_get k' m.
Proof.
  intros Hne. induction m as [|[k0 l0] m IH]; simpl; [done|].
  repeat (case_decide; simpl); simplify_eq; auto; done.
Qed.

End pending_map.

(** ** Settling promises *)

Section settling.
Implicit Types (store : list Settlement) (p q : nat) (s : Settlement).

Lemma length_settle p s store : length (settle p s store) = length store.
Proof.
  unfold settle. destruct (store !! p) as [[]|]; by rewrite ?length_insert.
Qed.

Lemma settle_lookup_ne p q s store : p <> q -> settle p s store !! q = store !! q.
Proof.
  intros. unfold settle.
  destruct (store !! p) as [[]|]; by rewrite ?list_lookup_insert_ne.
Qed.

Lemma settle_lookup_pending p s store :
  store !! p = Some Pending -> settle p s store !! p = Some s.
Proof.
  intros Hp. unfold settle. rewrite Hp.
  apply list_lookup_insert_eq. by eapply lookup_lt_Some.
Qed.

Lemma settle_lookup_settled p q s store :
  store !! q <> Some Pending -> settle p s store !! q = store !! q.
Proof.
  intros Hq. destruct (decide (p = q)) as [->|]; [|by apply settle_lookup_ne].
  unfold settle. destruct (store !! q) as [[]|] eqn:E; congruence.
Qed.

End settling.

(** ** Promises held by the entries of the heap *)

Section heap_promises.
Implicit Types (h : list Entry) (e : Entry) (l : loc) (p : nat).

Lemma elem_of_heap_promises p h :
  p ∈ heap_promises h <-> exists l e, h !! l = Some e /\ p ∈ entry_promises e.
Proof.
  unfold heap_promises. rewrite list_elem_of_bind. split.
  - intros (e & Hp & (l & Hl)%list_elem_of_lookup). eauto.
  - intros (l & e & Hl & Hp). exists e. split; [done|].
    by eapply list_elem_of_lookup_2.
Qed.

(** Where the promises of the entry at [l] sit among all of them. *)
Lemma heap_promises_split h l e :
  h !! l = Some e ->
  exists a b, heap_promises h = a ++ entry_promises e ++ b /\
    forall e', heap_promises (<[l:=e']> h) = a ++ entry_promises e' ++ b.
Proof.
  intros Hl. exists (heap_promises (take l h)), (heap_promises (drop (S l) h)).
  split.
  - rewrite <- (take_drop_middle h l e Hl) at 1.
    unfold heap_promises. by rewrite bind_app, bind_cons.
  - intros e'. rewrite <- (take_drop_middle h l e Hl) at 1.
    assert (length (take l h) = l) as Hlen.
    { apply length_take_le. apply lookup_lt_Some in Hl. lia. }
    rewrite <- Hlen at 1. rewrite insert_app_r_alt, Nat.sub_diag by lia.
    simpl. unfold heap_promises. by rewrite bind_app, bind_cons.
Qed.

Lemma heap_promises_entry_NoDup h l e :
  NoDup (heap_promises h) -> h !! l = Some e -> NoDup (entry_promises e).
Proof.
  intros Hnd Hl. destruct (heap_promises_split h l e Hl) as (a & b & Hab & _).
  rewrite Hab in Hnd. apply NoDup_app in Hnd as (_ & _ & Hnd).
  by apply NoDup_app in Hnd as (? & _).
Qed.

(** A promise belongs to one entry only. *)
Lemma heap_promises_owner h l1 l2 e1 e2 p :
  NoDup (heap_promises h) ->
  h !! l1 = Some e1 -> h !! l2 = Some e2 ->
  p ∈ entry_promises e1 -> p ∈ entry_promises e2 -> l1 = l2.
Proof.
  revert l1 l2. induction h as [|e h IH]; intros l1 l2 Hnd H1 H2 Hp1 Hp2;
    [done|].
  unfold heap_promises in Hnd. rewrite bind_cons in Hnd.
  apply NoDup_app in Hnd as (_ & Hdisj & Hnd).
  destruct l1 as [|l1], l2 as [|l2]; simplify_eq/=; [done| | |].
  - exfalso. apply (Hdisj p Hp1). apply elem_of_heap_promises; eauto.
  - exfalso. apply (Hdisj p Hp2). apply elem_of_heap_promises; eauto.
  - f_equal. eauto.
Qed.

Lemma heap_promises_snoc h e :
  heap_promises (h ++ [e]) = heap_promises h ++ entry_promises e.
Proof. unfold heap_promises. by rewrite bind_app, bind_singleton. Qed.

End heap_promises.

(** ** Well-formedness, entry by entry *)

Section core.
Implicit Types (m : list (Id * loc)) (al : list loc) (h : list Entry)
  (store : list Settlement) (e : Entry) (l : loc) (k : Id).

Lemma Forall_sublist {A} (P : A -> Prop) (l1 l2 : list A) :
  l1 `sublist_of` l2 -> Forall P l2 -> Forall P l1.
Proof.
  rewrite !Forall_forall. intros Hsub HP x Hx.
  apply HP. by eapply elem_of_sublist.
Qed.

Lemma list_alter_insert {A} (f : A -> A) (xs : list A) i x :
  xs !! i = Some x -> alter f i xs = <[i:=f x]> xs.
Proof.
  revert i. induction xs as [|y xs IH]; intros [|i] Hi; simplify_eq/=;
    [done|]. f_equal. by apply IH.
Qed.

Lemma core_ok_entry m al h store l :
  core_ok m al h store -> l ∈ m.*2 ++ al ->
  exists e, h !! l = Some e /\ requests e <> [] /\ Forall (live store) (requests e).
Proof.
  intros (_ & _ & _ & He & _) Hl.
  rewrite Forall_forall in He. specialize (He l Hl).
  unfold entry_ok in He. destruct (h !! l) as [e|]; [|done].
  exists e. by destruct He.
Qed.

Lemma core_ok_pending m al h store k l :
  core_ok m al h store -> map_get k m = Some l ->
  exists e, h !! l = Some e /\ id e = k /\ requests e <> [] /\
    Forall (live store) (requests e).
Proof.
  intros Hok Hk. apply map_get_Some_elem in Hk.
  destruct (core_ok_entry m al h store l Hok) as (e & He & Hne & Hlive).
  { apply elem_of_app. left. apply list_elem_of_fmap. by exists (k, l). }
  exists e. split_and!; try done.
  destruct Hok as (_ & Hid & _). rewrite Forall_forall in Hid.
  specialize (Hid _ Hk). simpl in Hid. rewrite He in Hid. by simplify_eq/=.
Qed.

Lemma core_ok_sub m m' al al' h store :
  core_ok m al h store -> m' `sublist_of` m -> al' `sublist_of` al ->
  core_ok m' al' h store.
Proof.
  intros (Hk & Hid & Hl & He & Hs) Hm Hal.
  assert (m'.*2 ++ al' `sublist_of` m.*2 ++ al) as Hsub.
  { apply sublist_app; [by apply fmap_sublist|done]. }
  split_and!; try done.
  - eapply sublist_NoDup; [done|]. by apply fmap_sublist.
  - by eapply Forall_sublist.
  - by eapply sublist_NoDup.
  - by eapply Forall_sublist.
Qed.

(** Two keys of a well-formed map never share an entry. *)
Lemma core_ok_loc_key m al h store k1 k2 l :
  core_ok m al h store -> (k1, l) ∈ m -> (k2, l) ∈ m -> k1 = k2.
Proof.
  intros (_ & Hid & _) H1 H2. rewrite Forall_forall in Hid.
  pose proof (Hid _ H1) as E1. pose proof (Hid _ H2) as E2.
  simpl in *. congruence.
Qed.

Lemma entry_ok_frame h h' store store' l :
  entry_ok h store l -> h' !! l = h !! l ->
  (forall e r, h !! l = Some e -> r ∈ requests e ->
     store' !! promise r = store !! promise r) ->
  entry_ok h' store' l.
Proof.
  unfold entry_ok. intros Hok -> Hst.
  destruct (h !! l) as [e|]; [|done]. destruct Hok as [Hne Hlive].
  split; [done|]. rewrite Forall_forall in *. intros r Hr.
  destruct (Hlive r Hr) as [Hc Hp]. split; [done|].
  by rewrite (Hst e r).
Qed.

Lemma store_ok_insert h store store' l e e' :
  store_ok h store -> h !! l = Some e ->
  entry_promises e' `sublist_of` entry_promises e ->
  (length store <= length store')%nat ->
  store_ok (<[l:=e']> h) store'.
Proof.
  intros [Hnd Hlt] Hl Hsub Hlen.
  destruct (heap_promises_split h l e Hl) as (a & b & Hab & Hins).
  unfold store_ok. rewrite Hins. rewrite Hab in Hnd, Hlt.
  assert (a ++ entry_promises e' ++ b `sublist_of` a ++ entry_promises e ++ b)
    as Hs by (apply sublist_app; [done|]; by apply sublist_app).
  split; [by eapply sublist_NoDup|].
  eapply Forall_sublist; [done|].
  eapply Forall_impl; [done|]. simpl. lia.
Qed.

Lemma store_ok_push h store l e r :
  store_ok h store -> h !! l = Some e -> promise r = length store ->
  store_ok (<[l:=push_request r e]> h) (store ++ [Pending]).
Proof.
  intros [Hnd Hlt] Hl Hr.
  destruct (heap_promises_split h l e Hl) as (a & b & Hab & Hins).
  unfold store_ok. rewrite Hins. rewrite Hab in Hnd, Hlt.
  assert (entry_promises (push_request r e) = entry_promises e ++ [length store])
    as ->.
  { unfold entry_promises, push_request. simpl. rewrite fmap_app. simpl.
    by rewrite Hr. }
  assert (a ++ (entry_promises e ++ [length store]) ++ b
            ≡ₚ length store :: (a ++ entry_promises e ++ b)) as Hperm.
  { rewrite <- (assoc_L (++) (entry_promises e)). simpl.
    rewrite !(assoc_L (++)). by rewrite <- Permutation_middle. }
  split.
  - rewrite Hperm. apply NoDup_cons. split; [|done].
    intros Hin. rewrite Forall_forall in Hlt. specialize (Hlt _ Hin). lia.
  - rewrite Hperm. rewrite length_app. simpl. constructor; [lia|].
    eapply Forall_impl; [done|]. simpl. lia.
Qed.

Lemma store_ok_alloc h store e :
  store_ok h store -> entry_promises e = [length store] ->
  store_ok (h ++ [e]) (store ++ [Pending]).
Proof.
  intros [Hnd Hlt] He. unfold store_ok. rewrite heap_promises_snoc, He.
  split.
  - apply NoDup_app. split_and!; [done| |apply NoDup_singleton].
    intros p Hp ->%list_elem_of_singleton.
    rewrite Forall_forall in Hlt. specialize (Hlt _ Hp). lia.
  - rewrite length_app. simpl. apply Forall_app. split.
    + eapply Forall_impl; [done|]. simpl. lia.
    + repeat constructor. lia.
Qed.

Lemma store_ok_lt h store l e p :
  store_ok h store -> h !! l = Some e -> p ∈ entry_promises e ->
  (p < length store)%nat.
Proof.
  intros [_ Hlt] Hl Hp. rewrite Forall_forall in Hlt. apply Hlt.
  apply elem_of_heap_promises. eauto.
Qed.

End core.

(** ** The settling loops, on the promise store *)

Section loops.
Implicit Types (store : list Settlement) (reqs : list Request) (s : Settlement).

Lemma settle_lookup p q s store :
  settle p s store !! q =
    if decide (p = q) then settle_at s (store !! q) else store !! q.
Proof.
  case_decide as Hpq; [subst q|by apply settle_lookup_ne].
  unfold settle, settle_at. destruct (store !! p) as [[]|] eqn:Hp; try done.
  apply list_lookup_insert_eq. by eapply lookup_lt_Some.
Qed.

Lemma settle_at_idemp s o : settle_at s (settle_at s o) = settle_at s o.
Proof. destruct o as [[]|]; simpl; try done. by destruct s. Qed.

Lemma length_settle_reqs s store reqs :
  length (settle_reqs s store reqs) = length store.
Proof.
  revert store. induction reqs as [|r reqs IH]; intros store; simpl; [done|].
  unfold settle_reqs in *. simpl. rewrite IH.
  destruct (cancelled r); [done|apply length_settle].
Qed.

Lemma settle_reqs_lookup s store reqs q :
  settle_reqs s store reqs !! q =
    if decide (q ∈ live_promises reqs) then settle_at s (store !! q)
    else store !! q.
Proof.
  revert store. induction reqs as [|r reqs IH]; intros store.
  - unfold settle_reqs. cbn [foldl].
    destruct (decide (q ∈ live_promises [])) as [H|]; [|done].
    by apply elem_of_nil in H.
  - unfold settle_reqs in *. cbn [foldl]. rewrite IH. clear IH.
    unfold live_promises. rewrite filter_cons.
    destruct (cancelled r) eqn:Hc; simpl; [done|].
    change (list_fmap Request nat promise ?x) with (promise <$> x).
    rewrite settle_lookup.
    destruct (decide (promise r = q)) as [->|Hne].
    + rewrite (decide_True (P:=_ ∈ _ :: _)) by left.
      case_decide; [apply settle_at_idemp|done].
    + destruct (decide (q ∈ promise <$> filter _ reqs)) as [Hin|Hin].
      * by rewrite decide_True by (by right).
      * rewrite decide_False; [done|].
        rewrite not_elem_of_cons. by split.
Qed.

Lemma foldl_cancel_request w reqs :
  foldl cancel_request w reqs =
    set_promises (fun store => settle_reqs (Rejected BatchCancellationError) store reqs) w.
Proof.
  revert w. induction reqs as [|r reqs IH]; intros w; simpl.
  - by destruct w.
  - rewrite IH. unfold cancel_request, settle_reqs. simpl.
    by destruct (cancelled r).
Qed.

Lemma foldl_reject_live error w reqs :
  foldl (reject_live error) w reqs =
    set_promises (fun store => settle_reqs (Rejected error) store reqs) w.
Proof.
  revert w. induction reqs as [|r reqs IH]; intros w; simpl.
  - by destruct w.
  - rewrite IH. unfold reject_live, settle_reqs. simpl.
    by destruct (cancelled r).
Qed.

Lemma foldl_settle_live entryResult entryError w reqs :
  foldl (settle_live entryResult entryError) w reqs =
    set_promises
      (fun store => settle_reqs (entry_settlement entryResult entryError) store reqs) w.
Proof.
  revert w. induction reqs as [|r reqs IH]; intros w; simpl.
  - by destruct w.
  - rewrite IH. unfold settle_live, settle_reqs, entry_settlement. simpl.
    destruct (cancelled r); [done|].
    by destruct (negb (is_undefined entryError)).
Qed.

End loops.

(** ** The invariant under each mutation *)

Section preservation.
Implicit Types (m : list (Id * loc)) (al : list loc) (h : list Entry)
  (store : list Settlement) (e : Entry) (l : loc) (k : Id) (w : World).

Lemma NoDup_fmap_delete {A B} (f : A -> B) (xs : list A) i x y :
  NoDup (f <$> xs) -> xs !! i = Some x -> y ∈ delete i xs -> f y <> f x.
Proof.
  intros Hnd Hi Hy Heq. rewrite delete_take_drop in Hy.
  rewrite <- (take_drop_middle xs i x Hi) in Hnd.
  rewrite fmap_app, fmap_cons in Hnd.
  apply NoDup_app in Hnd as (_ & Hdisj & Hnd).
  apply NoDup_cons in Hnd as [Hx _].
  apply elem_of_app in Hy as [Hy|Hy].
  - apply (Hdisj (f y)); [by apply list_elem_of_fmap_2|].
    rewrite Heq. left.
  - apply Hx. rewrite <- Heq. by apply list_elem_of_fmap_2.
Qed.

Lemma id_lookup_insert h l e rs l' :
  h !! l = Some e -> id <$> <[l:=with_requests e rs]> h !! l' = id <$> h !! l'.
Proof.
  intros Hl. destruct (decide (l = l')) as [<-|].
  - rewrite list_lookup_insert_eq by (by eapply lookup_lt_Some).
    by rewrite Hl.
  - by rewrite list_lookup_insert_ne.
Qed.

Lemma pending_loc_unique m al h store k l x :
  core_ok m al h store -> map_get k m = Some l ->
  x ∈ map_delete k m -> x.2 <> l.
Proof.
  intros Hok Hk Hx Heq. rewrite map_delete_filter in Hx.
  apply list_elem_of_filter in Hx as [Hne Hx]. destruct x as [k' l']. simpl in *.
  subst l'. apply Hne. eapply core_ok_loc_key; [done..|].
  by apply map_get_Some_elem.
Qed.

Lemma pending_not_awaiting m al h store k l :
  core_ok m al h store -> map_get k m = Some l -> l ∉ al.
Proof.
  intros (_ & _ & Hnd & _) Hk%map_get_Some_elem.
  apply NoDup_app in Hnd as (_ & Hdisj & _). apply Hdisj.
  apply list_elem_of_fmap. by exists (k, l).
Qed.

(** Removing the request at [idx] from the entry of [k] and settling its
    promise; the entry leaves the map when it becomes empty. *)
Lemma core_ok_splice m al h store k l e idx req s :
  core_ok m al h store -> map_get k m = Some l -> h !! l = Some e ->
  requests e !! idx = Some req ->
  core_ok
    (match delete idx (requests e) with [] => map_delete k m | _ => m end) al
    (<[l:=with_requests e (delete idx (requests e))]> h)
    (settle (promise req) s store).
Proof.
  intros Hok Hk Hl Hidx.
  set (rem := delete idx (requests e)).
  set (m' := match rem with [] => map_delete k m | _ => m end).
  assert (m' `sublist_of` m) as Hsub.
  { unfold m'. destruct rem; [apply map_delete_sublist|done]. }
  pose proof (core_ok_sub _ _ _ _ _ _ Hok Hsub (reflexivity al))
    as (Hk' & Hid' & Hnd' & He' & Hs').
  assert (NoDup (entry_promises e)) as Hnde.
  { destruct Hs' as [? _]. by eapply heap_promises_entry_NoDup. }
  assert (forall r, r ∈ rem -> promise r <> promise req) as Hrem.
  { intros r Hr. by eapply (NoDup_fmap_delete promise). }
  split_and!; try done.
  - eapply Forall_impl; [exact Hid'|]. intros x Hx. simpl in *.
    by rewrite (id_lookup_insert h l e rem).
  - rewrite Forall_forall in *. intros l' Hl'.
    destruct (decide (l' = l)) as [->|Hne].
    + assert (rem <> []) as Hrne.
      { intros Hnil. apply elem_of_app in Hl' as [Hl'|Hl'].
        - apply list_elem_of_fmap in Hl' as (x & -> & Hx).
          unfold m' in Hx. rewrite Hnil in Hx.
          by eapply pending_loc_unique.
        - by eapply pending_not_awaiting. }
      unfold entry_ok.
      rewrite list_lookup_insert_eq by (by eapply lookup_lt_Some).
      simpl. split; [done|]. rewrite Forall_forall. intros r Hr.
      destruct (core_ok_pending _ _ _ _ _ _ Hok Hk) as (e0 & He0 & _ & _ & Hlive).
      simplify_eq. rewrite Forall_forall in Hlive.
      destruct (Hlive r) as [Hc Hp].
      { eapply elem_of_sublist; [done|apply sublist_delete]. }
      split; [done|]. rewrite settle_lookup_ne; [done|].
      intros Heq. by apply (Hrem r).
    + eapply entry_ok_frame; [by apply He'| |].
      * by rewrite list_lookup_insert_ne.
      * intros e2 r He2 Hr. apply settle_lookup_ne. intros Heq.
        apply Hne. destruct Hs' as [Hnd _].
        eapply (heap_promises_owner h l' l e2 e (promise r)); try done.
        -- by apply list_elem_of_fmap_2.
        -- rewrite <- Heq. apply list_elem_of_fmap_2.
           by eapply list_elem_of_lookup_2.
  - eapply store_ok_insert; [done..| |by rewrite length_settle].
    unfold entry_promises. simpl. apply fmap_sublist, sublist_delete.
Qed.

(** The loops of [cancel] over the entry at [l], once [l] has left the map. *)
Lemma core_ok_cancel_entry m m' al h store l e :
  core_ok m al h store -> l ∈ m.*2 -> h !! l = Some e ->
  m' `sublist_of` m -> l ∉ m'.*2 ->
  core_ok m' al
    (<[l:=with_requests e (mark_cancelled <$> requests e)]> h)
    (settle_reqs (Rejected BatchCancellationError) store (requests e)).
Proof.
  intros Hok Hlm Hl Hsub Hnot.
  assert (l ∉ al) as Hal.
  { destruct Hok as (_ & _ & Hnd & _).
    apply NoDup_app in Hnd as (_ & Hdisj & _). by apply Hdisj. }
  pose proof (core_ok_sub _ _ _ _ _ _ Hok Hsub (reflexivity al))
    as (Hk' & Hid' & Hnd' & He' & Hs').
  split_and!; try done.
  - eapply Forall_impl; [exact Hid'|]. intros x Hx. simpl in *.
    by rewrite (id_lookup_insert h l e).
  - rewrite Forall_forall in *. intros l' Hl'.
    assert (l' <> l) as Hne.
    { intros ->. apply elem_of_app in Hl' as [?|?]; done. }
    eapply entry_ok_frame; [by apply He'| |].
    + by rewrite list_lookup_insert_ne.
    + intros e2 r He2 Hr. rewrite settle_reqs_lookup.
      rewrite decide_False; [done|]. intros Hin. apply Hne.
      destruct Hs' as [Hnd _].
      eapply (heap_promises_owner h l' l e2 e (promise r)); try done.
      * by apply list_elem_of_fmap_2.
      * unfold live_promises in Hin. unfold entry_promises.
        apply list_elem_of_fmap in Hin as (r' & -> & Hr').
        apply list_elem_of_filter in Hr' as [_ Hr'].
        by apply list_elem_of_fmap_2.
  - eapply store_ok_insert; [done..| |by rewrite length_settle_reqs].
    unfold entry_promises. simpl. rewrite <- list_fmap_compose.
    by apply reflexive_eq.
Qed.

Lemma entry_ok_grow h h' store l :
  store_ok h store -> entry_ok h store l -> h' !! l = h !! l ->
  entry_ok h' (store ++ [Pending]) l.
Proof.
  intros Hs Hok Hl. eapply entry_ok_frame; [done..|].
  intros e r He Hr. apply lookup_app_l.
  eapply store_ok_lt; [done..|]. by apply list_elem_of_fmap_2.
Qed.

Lemma core_ok_push m al h store k l e :
  core_ok m al h store -> map_get k m = Some l -> h !! l = Some e ->
  core_ok m al
    (<[l:=push_request {| promise := length store; cancelled := false |} e]> h)
    (store ++ [Pending]).
Proof.
  intros Hok Hk Hl. pose proof Hok as (Hks & Hid & Hnd & He & Hs).
  split_and!; try done.
  - eapply Forall_impl; [exact Hid|]. intros x Hx. simpl in *.
    unfold push_request. by rewrite (id_lookup_insert h l e).
  - rewrite Forall_forall in *. intros l' Hl'.
    destruct (decide (l' = l)) as [->|Hne].
    + unfold entry_ok.
      rewrite list_lookup_insert_eq by (by eapply lookup_lt_Some). simpl.
      split; [by destruct (requests e)|].
      destruct (core_ok_pending _ _ _ _ _ _ Hok Hk) as (e0 & ? & _ & _ & Hlive).
      simplify_eq. apply Forall_app. split.
      * eapply Forall_impl; [exact Hlive|]. intros r [Hc Hp].
        split; [done|]. by apply lookup_app_l_Some.
      * repeat constructor. simpl. by rewrite lookup_app_r, Nat.sub_diag.
    + apply (entry_ok_grow h); [done|by apply He|].
      by rewrite list_lookup_insert_ne.
  - by apply store_ok_push.
Qed.

Lemma core_ok_alloc m al h store k v :
  core_ok m al h store -> map_get k m = None ->
  core_ok (m ++ [(k, length h)]) al
    (h ++ [{| id := k; payload := v;
              requests := [{| promise := length store; cancelled := false |}] |}])
    (store ++ [Pending]).
Proof.
  intros Hok Hk. pose proof Hok as (Hks & Hid & Hnd & He & Hs).
  assert (forall l, l ∈ m.*2 ++ al -> (l < length h)%nat) as Hlt.
  { intros l Hl. destruct (core_ok_entry _ _ _ _ l Hok Hl) as (e & Hle & _).
    by eapply lookup_lt_Some. }
  split_and!.
  - rewrite fmap_app. simpl. apply NoDup_app. split_and!; [done| |apply NoDup_singleton].
    intros k' Hk' ->%list_elem_of_singleton. by apply map_get_None in Hk.
  - apply Forall_app. split.
    + rewrite Forall_forall in *. intros x Hx. rewrite lookup_app_l; [by apply Hid|].
      apply Hlt, elem_of_app. left. by apply list_elem_of_fmap_2.
    + repeat constructor. simpl. by rewrite lookup_app_r, Nat.sub_diag.
  - rewrite fmap_app. simpl. rewrite <- (assoc_L (++)). simpl.
    rewrite <- Permutation_middle. apply NoDup_cons. split; [|done].
    intros Hin. specialize (Hlt _ Hin). lia.
  - assert (Forall (entry_ok (h ++ [{| id := k; payload := v;
              requests := [{| promise := length store; cancelled := false |}] |}])
              (store ++ [Pending])) (m.*2 ++ al)) as Hold.
    { rewrite Forall_forall in *. intros l Hl.
      apply (entry_ok_grow h); [done|by apply He|].
      apply lookup_app_l. by apply Hlt. }
    rewrite fmap_app. apply Forall_app in Hold as [Hm Hal].
    rewrite !Forall_app. split_and!; [done| |done].
    repeat constructor; simpl.
    unfold entry_ok. rewrite lookup_app_r, Nat.sub_diag by done. simpl.
    split; [done|]. repeat constructor. simpl.
    by rewrite lookup_app_r, Nat.sub_diag.
  - by apply store_ok_alloc.
Qed.

End preservation.

(** ** The invariant under each operation *)

Section operations.
Implicit Types (w : World) (l : loc) (k : Id).

Lemma reset_fields w :
  pending (resetCurrentBatch w) = [] /\
  timer (resetCurrentBatch w) = None /\
  firstRequestTime (resetCurrentBatch w) = None /\
  lastRequestTime (resetCurrentBatch w) = None /\
  heap (resetCurrentBatch w) = heap w /\
  promises (resetCurrentBatch w) = promises w /\
  awaiting (resetCurrentBatch w) = awaiting w /\
  calls (resetCurrentBatch w) = calls w /\
  clock (resetCurrentBatch w) = clock w /\
  timeouts (resetCurrentBatch w) =
    match timer w with
    | Some t => filter (fun x => x.1 <> t) (timeouts w)
    | None => timeouts w
    end.
Proof.
  unfold resetCurrentBatch, clearExistingTimer. simpl.
  destruct (timer w) eqn:Ht; simpl; by rewrite ?Ht.
Qed.

Lemma filter_single_timeout (ts : list (nat * Z)) t :
  ts.*1 = [t] -> filter (fun x => x.1 <> t) ts = [].
Proof.
  destruct ts as [|[t' d] [|? ?]]; intros ?; simplify_eq/=.
  rewrite filter_cons. simpl. by rewrite decide_False by (by intros ?).
Qed.

Lemma timer_ok_reset w :
  timeouts_clearable w ->
  timer_ok (resetCurrentBatch w).
Proof.
  intros Ht. unfold timer_ok.
  destruct (reset_fields w) as (-> & -> & -> & -> & _ & _ & _ & _ & _ & ->).
  split_and!; try done.
  unfold timeouts_clearable in Ht. by destruct (timer w).
Qed.

Lemma timer_ok_timeouts w : timer_ok w -> timeouts_clearable w.
Proof.
  unfold timer_ok, timeouts_clearable.
  destruct (timer w); intros (_ & Ht & _); [|done].
  destruct Ht as [Ht| ->]; [by apply filter_single_timeout|done].
Qed.

Lemma timer_delay_nonneg delay : 0 <= delay -> 0 <= timer_delay delay.
Proof. unfold timer_delay. case_bool_decide; lia. Qed.

Lemma timer_delay_small delay :
  delay <= TIMEOUT_MAX -> timer_delay delay = delay.
Proof. intros ?. unfold timer_delay. by rewrite bool_decide_eq_true_2. Qed.

Lemma timer_ok_first w :
  timer_ok w -> default (clock w) (firstRequestTime w) <= clock w.
Proof.
  unfold timer_ok. destruct (timer w).
  - intros (_ & _ & Ht).
    destruct (firstRequestTime w), (lastRequestTime w); simpl; (done || lia).
  - intros (_ & _ & -> & _). simpl. lia.
Qed.

Lemma timer_ok_same w w' :
  timer w' = timer w -> timeouts w' = timeouts w ->
  firstRequestTime w' = firstRequestTime w ->
  lastRequestTime w' = lastRequestTime w ->
  clock w' = clock w ->
  (pending w' = [] <-> pending w = []) ->
  timer_ok w -> timer_ok w'.
Proof.
  unfold timer_ok. intros -> -> -> -> -> Hp. destruct (timer w); tauto.
Qed.

Lemma wf_reset w :
  core_ok [] (concat (awaiting w)) (heap w) (promises w) ->
  timeouts_clearable w ->
  wf (resetCurrentBatch w).
Proof.
  intros Hcore Ht. split; [|by apply timer_ok_reset].
  by destruct (reset_fields w) as (-> & _ & _ & _ & -> & -> & -> & _).
Qed.

Lemma wf_handle_cancel hd r w : wf w -> wf (handle_cancel hd r w).
Proof.
  intros [Hcore Htimer]. unfold handle_cancel.
  destruct (map_get (handle_id hd) (pending w)) as [l|] eqn:Hk; [|done].
  destruct (heap w !! l) as [e|] eqn:Hl; [|done].
  destruct (list_find _ (requests e)) as [[idx req]|] eqn:Hfind; [|done].
  apply list_find_Some in Hfind as (Hidx & Hp & _).
  pose proof (core_ok_splice _ _ _ _ _ _ _ _ _
    (Rejected (nullish_or r BatchCancellationError)) Hcore Hk Hl Hidx) as Hnew.
  destruct (core_ok_pending _ _ _ _ _ _ Hcore Hk) as (e0 & ? & _ & _ & Hlive).
  simplify_eq. rewrite Forall_forall in Hlive.
  destruct (Hlive req) as [Hc _]; [by eapply list_elem_of_lookup_2|].
  rewrite Hc.
  assert (pending w <> []) as Hne by (by destruct (pending w)).
  pose proof (timer_ok_timeouts w Htimer) as Hto.
  destruct (delete idx (requests e)) as [|r0 rem] eqn:Hrem; simpl.
  - destruct (map_delete (handle_id hd) (pending w)) as [|x m'] eqn:Hm'.
    + by apply wf_reset.
    + split; simpl; [by rewrite Hm'|].
      eapply timer_ok_same; [..|exact Htimer]; simpl; try done.
      rewrite Hm'. by split.
  - destruct (pending w) as [|x m'] eqn:Hm'; [done|].
    split; simpl; [by rewrite Hm'|].
    eapply timer_ok_same; [..|exact Htimer]; simpl; try done.
    all: by rewrite Hm'.
Qed.

Lemma same_manager_refl w : same_manager w w.
Proof. by repeat split. Qed.

Lemma same_manager_trans w1 w2 w3 :
  same_manager w1 w2 -> same_manager w2 w3 -> same_manager w1 w3.
Proof.
  intros (?&?&?&?&?&?&?&?&?) (?&?&?&?&?&?&?&?&?).
  unfold same_manager. split_and!; congruence.
Qed.

Lemma cancel_entry_spec w l e :
  heap w !! l = Some e ->
  cancel_entry w l =
    set_heap <[l:=with_requests e (mark_cancelled <$> requests e)]>
      (set_promises
         (fun store => settle_reqs (Rejected BatchCancellationError) store (requests e))
         w).
Proof.
  intros Hl. unfold cancel_entry. rewrite Hl. by rewrite foldl_cancel_request.
Qed.

Lemma cancel_entry_same w l : same_manager w (cancel_entry w l).
Proof.
  destruct (heap w !! l) as [e|] eqn:Hl.
  - rewrite (cancel_entry_spec w l e Hl). by repeat split.
  - unfold cancel_entry. rewrite Hl. apply same_manager_refl.
Qed.

Lemma foldl_cancel_entry_same ls w : same_manager w (foldl cancel_entry w ls).
Proof.
  revert w. induction ls as [|l ls IH]; intros w; simpl.
  - apply same_manager_refl.
  - eapply same_manager_trans; [apply cancel_entry_same|apply IH].
Qed.

Lemma core_ok_cancel_all m al w :
  core_ok m al (heap w) (promises w) ->
  core_ok [] al (heap (foldl cancel_entry w m.*2))
    (promises (foldl cancel_entry w m.*2)).
Proof.
  revert w. induction m as [|[k l] m IH]; intros w Hok; simpl; [done|].
  apply IH.
  destruct (core_ok_entry _ _ _ _ l Hok) as (e & Hl & _); [by left|].
  rewrite (cancel_entry_spec w l e Hl). simpl.
  eapply core_ok_cancel_entry; [done|by left|done|by apply sublist_cons|].
  destruct Hok as (_ & _ & Hnd & _). simpl in Hnd.
  apply NoDup_cons in Hnd as [Hnot _]. rewrite not_elem_of_app in Hnot.
  by destruct Hnot.
Qed.

Lemma wf_cancel i w : wf w -> wf (cancel i w).
Proof.
  intros [Hcore Htimer]. pose proof (timer_ok_timeouts w Htimer) as Hto.
  unfold cancel. destruct i as [i|].
  - destruct (map_get i (pending w)) as [l|] eqn:Hk; [|done].
    destruct (core_ok_pending _ _ _ _ _ _ Hcore Hk) as (e & Hl & _).
    rewrite (cancel_entry_spec w l e Hl). simpl.
    assert (core_ok (map_delete i (pending w)) (concat (awaiting w))
      (<[l:=with_requests e (mark_cancelled <$> requests e)]> (heap w))
      (settle_reqs (Rejected BatchCancellationError) (promises w) (requests e)))
      as Hnew.
    { eapply core_ok_cancel_entry; [done| |done|apply map_delete_sublist|].
      - apply list_elem_of_fmap. exists (i, l). split; [done|].
        by apply map_get_Some_elem.
      - intros (x & Hx & Hin)%list_elem_of_fmap.
        by eapply pending_loc_unique. }
    assert (pending w <> []) as Hne by (by destruct (pending w)).
    destruct (map_delete i (pending w)) as [|x m'] eqn:Hm'.
    + by apply wf_reset.
    + split; simpl; [by rewrite Hm'|].
      eapply timer_ok_same; [..|exact Htimer]; simpl; try done.
      rewrite Hm'. by split.
  - pose proof (foldl_cancel_entry_same (map_values (pending w)) w)
      as (_ & Ht & Hts & _ & _ & Ha & _).
    apply wf_reset.
    + rewrite Ha. by apply core_ok_cancel_all.
    + unfold timeouts_clearable in *. by rewrite Ht, Hts.
Qed.

End operations.

Section enqueueing.
Context {CombinedResponse : Type}.
Variable resolver : RequestResolver CombinedResponse.
Variable scheduler : Scheduler.
Implicit Types (w : World) (l : loc) (k : Id).

Lemma manage_fields w :
  let w' := manageTimersAndScheduler scheduler w in
  pending w' = pending w /\ heap w' = heap w /\ promises w' = promises w /\
  awaiting w' = awaiting w /\ calls w' = calls w /\ clock w' = clock w /\
  listeners w' = listeners w /\
  firstRequestTime w' = Some (default (clock w) (firstRequestTime w)) /\
  lastRequestTime w' = Some (clock w) /\
  timer w' = Some (nextTimeout w) /\
  timeouts w' =
    match timer w with
    | Some t => filter (fun x => x.1 <> t) (timeouts w)
    | None => timeouts w
    end ++ [(nextTimeout w, clock w + timer_delay (armed_delay scheduler w))].
Proof.
  unfold manageTimersAndScheduler, clearExistingTimer, armed_delay. simpl.
  destruct (timer w) eqn:Ht; simpl; by rewrite ?Ht.
Qed.

Lemma timer_ok_manage w :
  timeouts_clearable w ->
  default (clock w) (firstRequestTime w) <= clock w ->
  pending w <> [] ->
  timer_ok (manageTimersAndScheduler scheduler w).
Proof.
  intros Hto Hfirst Hne. unfold timer_ok.
  destruct (manage_fields w)
    as (-> & _ & _ & _ & _ & -> & _ & -> & -> & -> & ->).
  split; [done|]. split; [|lia].
  left. unfold timeouts_clearable in Hto. destruct (timer w); by rewrite Hto.
Qed.

Lemma wf_manage w :
  core_ok (pending w) (concat (awaiting w)) (heap w) (promises w) ->
  timeouts_clearable w ->
  default (clock w) (firstRequestTime w) <= clock w ->
  pending w <> [] ->
  wf (manageTimersAndScheduler scheduler w).
Proof.
  intros Hcore Hto Hfirst Hne. split; [|by apply timer_ok_manage].
  by destruct (manage_fields w) as (-> & -> & -> & -> & _).
Qed.

(** The [cancel] closure of a handle whose request sits in no entry does
    nothing. *)
Lemma handle_cancel_absent k p r w :
  (forall l e, map_get k (pending w) = Some l -> heap w !! l = Some e ->
     p ∉ entry_promises e) ->
  handle_cancel {| handle_id := k; handle_promise := p |} r w = w.
Proof.
  intros Habs. unfold handle_cancel. simpl.
  destruct (map_get k (pending w)) as [l|] eqn:Hk; [|done].
  destruct (heap w !! l) as [e|] eqn:Hl; [|done].
  destruct (list_find _ (requests e)) as [[idx req]|] eqn:Hfind; [|done].
  apply list_find_Some in Hfind as (Hidx & Hp & _).
  destruct (Habs l e eq_refl Hl). rewrite <- Hp.
  apply list_elem_of_fmap_2. by eapply list_elem_of_lookup_2.
Qed.

Lemma createPromiseHandle_spec k signal w :
  store_ok (heap w) (promises w) ->
  let handle := {| handle_id := k; handle_promise := length (promises w) |} in
  createPromiseHandle k signal w =
    (handle,
     set_listeners (fun ls => ls ++ new_listeners handle signal)
       (set_promises (fun store => store ++ [Pending]) w)).
Proof.
  intros Hs. unfold createPromiseHandle, new_listeners. simpl. f_equal.
  destruct signal as [s|]; [destruct (aborted s)|].
  - rewrite handle_cancel_absent.
    + destruct w; unfold set_listeners, set_promises; simpl.
      by rewrite app_nil_r.
    + simpl. intros l e _ Hl Hin.
      pose proof (store_ok_lt _ _ _ _ _ Hs Hl Hin). lia.
  - done.
  - destruct w; unfold set_listeners, set_promises; simpl.
    by rewrite app_nil_r.
Qed.

Lemma determine_id_fields request w :
  let w0 := (determine_id request w).2 in
  pending w0 = pending w /\ heap w0 = heap w /\ promises w0 = promises w /\
  awaiting w0 = awaiting w /\ calls w0 = calls w /\ clock w0 = clock w /\
  listeners w0 = listeners w /\ timer w0 = timer w /\
  timeouts w0 = timeouts w /\ firstRequestTime w0 = firstRequestTime w /\
  lastRequestTime w0 = lastRequestTime w /\ nextTimeout w0 = nextTimeout w.
Proof. by destruct request as [i|[i|] p]. Qed.

Lemma enqueue_unfold request signal w :
  enqueue scheduler request signal w =
    enqueue_entry scheduler (determine_id request w).1 (determine_payload request) signal
      (determine_id request w).2.
Proof. unfold enqueue. by destruct (determine_id request w). Qed.

Lemma enqueue_entry_fields k v signal w :
  wf w ->
  let p := length (promises w) in
  let handle := {| handle_id := k; handle_promise := p |} in
  let w' := (enqueue_entry scheduler k v signal w).2 in
  (enqueue_entry scheduler k v signal w).1 = handle /\
  promises w' = promises w ++ [Pending] /\
  awaiting w' = awaiting w /\ calls w' = calls w /\ clock w' = clock w /\
  listeners w' = listeners w ++ new_listeners handle signal /\
  firstRequestTime w' = Some (default (clock w) (firstRequestTime w)) /\
  lastRequestTime w' = Some (clock w) /\
  timer w' = Some (nextTimeout w) /\
  timeouts w' =
    [(nextTimeout w,
      clock w + timer_delay (Z.max 0
        (scheduler (clock w) (default (clock w) (firstRequestTime w)) (clock w)
           (Z.of_nat (length (pending w'))))))] /\
  match map_get k (pending w) with
  | Some l =>
      pending w' = pending w /\
      heap w' = alter (push_request {| promise := p; cancelled := false |}) l (heap w)
  | None =>
      pending w' = pending w ++ [(k, length (heap w))] /\
      heap w' = heap w ++
        [{| id := k; payload := v;
            requests := [{| promise := p; cancelled := false |}] |}]
  end /\
  wf w'.
Proof.
  intros [Hcore Htimer]. cbv zeta.
  assert (store_ok (heap w) (promises w)) as Hst
    by (by destruct Hcore as (_ & _ & _ & _ & ?)).
  pose proof (timer_ok_timeouts w Htimer) as Hto.
  pose proof (timer_ok_first w Htimer) as Hfirst.
  unfold enqueue_entry. destruct (map_get k (pending w)) as [l|] eqn:Hk.
  - rewrite (createPromiseHandle_spec k signal w Hst).
    cbn [fst snd handle_promise].
    destruct (core_ok_pending _ _ _ _ _ _ Hcore Hk) as (e & Hl & _).
    match goal with |- context [manageTimersAndScheduler _ ?x] => set (w1 := x) end.
    assert (pending w <> []) as Hne by (intros Hnil; by rewrite Hnil in Hk).
    assert (wf (manageTimersAndScheduler scheduler w1)) as Hwf.
    { apply wf_manage; unfold w1; simpl; [|done..].
      rewrite (list_alter_insert _ _ _ _ Hl). by eapply core_ok_push. }
    destruct (manage_fields w1)
      as (E1 & E2 & E3 & E4 & E5 & E6 & E7 & E8 & E9 & E10 & E11).
    rewrite E1, E2, E3, E4, E5, E6, E7, E8, E9, E10, E11.
    unfold armed_delay, w1. simpl.
    split_and!; try done.
    unfold timeouts_clearable in Hto. destruct (timer w); by rewrite Hto.
  - rewrite (createPromiseHandle_spec k signal w Hst).
    cbn [fst snd handle_promise].
    match goal with |- context [manageTimersAndScheduler _ ?x] => set (w1 := x) end.
    assert (pending w1 = pending w ++ [(k, length (heap w))]) as Hp1.
    { unfold w1. simpl. by apply map_set_fresh. }
    assert (wf (manageTimersAndScheduler scheduler w1)) as Hwf.
    { apply wf_manage.
      - rewrite Hp1. unfold w1. simpl. by apply core_ok_alloc.
      - unfold w1. by simpl.
      - unfold w1. by simpl.
      - rewrite Hp1. by destruct (pending w). }
    destruct (manage_fields w1)
      as (E1 & E2 & E3 & E4 & E5 & E6 & E7 & E8 & E9 & E10 & E11).
    rewrite E1, E2, E3, E4, E5, E6, E7, E8, E9, E10, E11.
    unfold armed_delay. rewrite Hp1. unfold w1. simpl.
    split_and!; try done.
    unfold timeouts_clearable in Hto. destruct (timer w); by rewrite Hto.
Qed.

(** What [enqueue] does to a well-formed world. *)
Lemma enqueue_fields request signal w :
  wf w ->
  let k := (determine_id request w).1 in
  let p := length (promises w) in
  let handle := {| handle_id := k; handle_promise := p |} in
  let w' := (enqueue scheduler request signal w).2 in
  (enqueue scheduler request signal w).1 = handle /\
  promises w' = promises w ++ [Pending] /\
  awaiting w' = awaiting w /\ calls w' = calls w /\ clock w' = clock w /\
  listeners w' = listeners w ++ new_listeners handle signal /\
  firstRequestTime w' = Some (default (clock w) (firstRequestTime w)) /\
  lastRequestTime w' = Some (clock w) /\
  timer w' = Some (nextTimeout w) /\
  timeouts w' =
    [(nextTimeout w,
      clock w + timer_delay (Z.max 0
        (scheduler (clock w) (default (clock w) (firstRequestTime w)) (clock w)
           (Z.of_nat (length (pending w'))))))] /\
  match map_get k (pending w) with
  | Some l =>
      pending w' = pending w /\
      heap w' = alter (push_request {| promise := p; cancelled := false |}) l (heap w)
  | None =>
      pending w' = pending w ++ [(k, length (heap w))] /\
      heap w' = heap w ++
        [{| id := k; payload := determine_payload request;
            requests := [{| promise := p; cancelled := false |}] |}]
  end /\
  wf w'.
Proof.
  intros Hwf. cbv zeta. rewrite enqueue_unfold.
  assert (wf (determine_id request w).2) as Hwf0
    by (by destruct request as [i|[i|] pl]).
  pose proof (enqueue_entry_fields (determine_id request w).1
    (determine_payload request) signal _ Hwf0) as Hf.
  by destruct request as [i|[i|] pl].
Qed.

Lemma wf_enqueue request signal w : wf w -> wf (enqueue scheduler request signal w).2.
Proof. intros Hwf. apply (enqueue_fields request signal w Hwf). Qed.

End enqueueing.

(** ** The flush *)

Section flushing.
Context {CombinedResponse : Type}.
Variable resolver : RequestResolver CombinedResponse.
Implicit Types (w : World) (l : loc) (k : Id) (snapshot : list loc).

Lemma begin_fields w :
  let r := triggerBatch_begin w in
  r.1 = match pending w with
        | [] => None
        | _ => Some (map_values (pending w),
                     request_list (heap w) (map_values (pending w)))
        end /\
  calls r.2 = calls w ++
    match r.1 with
    | Some (_, requestList) => [ProcessorCalled requestList]
    | None => []
    end /\
  pending r.2 = [] /\ timer r.2 = None /\
  firstRequestTime r.2 = None /\ lastRequestTime r.2 = None /\
  heap r.2 = heap w /\ promises r.2 = promises w /\
  awaiting r.2 = awaiting w /\ clock r.2 = clock w /\
  timeouts r.2 =
    match timer w with
    | Some t => filter (fun x => x.1 <> t) (timeouts w)
    | None => timeouts w
    end.
Proof.
  cbv zeta. unfold triggerBatch_begin, request_list.
  destruct (reset_fields w) as (E1 & E2 & E3 & E4 & E5 & E6 & E7 & E8 & E9 & E10).
  remember (resetCurrentBatch w) as w1 eqn:Hw1. clear Hw1.
  destruct (pending w) as [|x m]; simpl.
  - rewrite E1, E2, E3, E4, E5, E6, E7, E8, E9, E10.
    by rewrite app_nil_r.
  - rewrite E1, E2, E3, E4, E5, E6, E7, E8, E9, E10. done.
Qed.

Lemma core_ok_snapshot m al h store :
  core_ok m al h store -> core_ok [] (al ++ m.*2) h store.
Proof.
  intros (_ & _ & Hnd & He & Hs). split_and!; simpl; try done.
  - apply NoDup_nil_2.
  - by rewrite (comm (++)).
  - rewrite Forall_app in *. tauto.
Qed.

Lemma wf_begin w :
  core_ok (pending w) (concat (awaiting w)) (heap w) (promises w) ->
  timeouts_clearable w ->
  wf (suspend (triggerBatch_begin w)).
Proof.
  intros Hcore Htimer.
  destruct (begin_fields w) as (E0 & _ & E1 & E2 & E3 & E4 & E5 & E6 & E7 & _ & E8).
  destruct (triggerBatch_begin w) as [[[snapshot reqs]|] w1]; simpl in *.
  - split.
    + simpl. rewrite E1, E5, E6, E7.
      destruct (pending w) as [|x m] eqn:Hm; [done|]. simplify_eq.
      rewrite concat_app. simpl. rewrite app_nil_r.
      by apply (core_ok_snapshot (x :: m)).
    + unfold timer_ok. simpl. rewrite E1, E2, E3, E4, E8.
      split_and!; try done.
      unfold timeouts_clearable in Htimer. by destruct (timer w).
  - split.
    + rewrite E1, E5, E6, E7. destruct (pending w) as [|x m] eqn:Hm; [done|].
      done.
    + unfold timer_ok. rewrite E1, E2, E3, E4, E8.
      split_and!; try done.
      unfold timeouts_clearable in Htimer. by destruct (timer w).
Qed.

Lemma reject_entry_spec error w l :
  reject_entry error w l =
    match heap w !! l with
    | Some entry =>
        set_promises
          (fun store => settle_reqs (Rejected error) store (requests entry)) w
    | None => w
    end.
Proof.
  unfold reject_entry. destruct (heap w !! l); [|done].
  apply foldl_reject_live.
Qed.

Lemma resolve_entry_spec combinedResponse w l :
  resolve_entry resolver combinedResponse w l =
    match heap w !! l with
    | Some entry =>
        if skipped entry then w
        else
          set_promises
            (fun store =>
               settle_reqs (entry_outcome resolver combinedResponse entry) store
                 (requests entry))
            (log_call (ResolverCalled (descriptor_of entry)) w)
    | None => w
    end.
Proof.
  unfold resolve_entry, skipped, entry_outcome.
  destruct (heap w !! l) as [entry|]; [|done].
  destruct (forallb cancelled (requests entry)); [done|].
  destruct (resolver combinedResponse (descriptor_of entry));
    apply foldl_settle_live.
Qed.

Lemma elem_of_snapshot_entries h snapshot e :
  e ∈ snapshot_entries h snapshot <-> exists l, l ∈ snapshot /\ h !! l = Some e.
Proof. unfold snapshot_entries. by rewrite list_elem_of_omap. Qed.

Lemma length_settle_entries f store es :
  length (settle_entries f store es) = length store.
Proof.
  revert store. induction es as [|e es IH]; intros store; [done|].
  unfold settle_entries in *. simpl. by rewrite IH, length_settle_reqs.
Qed.

Lemma settle_entries_lookup f store es q :
  settle_entries f store es !! q =
    foldl (fun o e =>
             if decide (q ∈ live_promises (requests e)) then settle_at (f e) o
             else o)
      (store !! q) es.
Proof.
  revert store. induction es as [|e es IH]; intros store; [done|].
  unfold settle_entries in *. simpl. by rewrite IH, settle_reqs_lookup.
Qed.

Lemma settle_entries_other f store es q :
  (forall e, e ∈ es -> q ∉ live_promises (requests e)) ->
  settle_entries f store es !! q = store !! q.
Proof.
  rewrite settle_entries_lookup. generalize (store !! q).
  induction es as [|e es IH]; intros o Hq; [done|]. simpl.
  rewrite decide_False by (apply Hq; left).
  apply IH. intros e' He'. apply Hq. by right.
Qed.

Lemma settle_entries_owned f store es q e :
  e ∈ es -> q ∈ live_promises (requests e) ->
  (forall e', e' ∈ es -> q ∈ live_promises (requests e') -> f e' = f e) ->
  settle_entries f store es !! q = settle_at (f e) (store !! q).
Proof.
  rewrite settle_entries_lookup. intros He Hq Hown.
  assert (forall es' o,
    (forall e', e' ∈ es' -> q ∈ live_promises (requests e') -> f e' = f e) ->
    foldl (fun o e' =>
             if decide (q ∈ live_promises (requests e')) then settle_at (f e') o
             else o) (settle_at (f e) o) es' = settle_at (f e) o) as Hidem.
  { induction es' as [|e' es' IH]; intros o Hown'; [done|]. simpl.
    case_decide as Hin.
    - rewrite (Hown' e') by (done || left). rewrite settle_at_idemp.
      apply IH. intros e2 ? ?. apply Hown'; [by right|done].
    - apply IH. intros e2 ? ?. apply Hown'; [by right|done]. }
  generalize (store !! q). revert He Hown.
  induction es as [|e' es IH]; intros He Hown o; [by apply elem_of_nil in He|].
  simpl. case_decide as Hin.
  - rewrite (Hown e') by (done || left).
    apply Hidem. intros e2 ? ?. apply Hown; [by right|done].
  - apply elem_of_cons in He as [->|He]; [done|].
    apply IH; [done|]. intros e2 ? ?. apply Hown; [by right|done].
Qed.

Lemma settle_reqs_skipped s store reqs :
  forallb cancelled reqs = true -> settle_reqs s store reqs = store.
Proof.
  revert store. induction reqs as [|r reqs IH]; intros store; simpl; [done|].
  intros [Hc Hrest]%andb_prop. unfold settle_reqs in *. simpl.
  rewrite Hc. by apply IH.
Qed.

Lemma resume_fields snapshot result w :
  let w' := triggerBatch_resume resolver snapshot result w in
  same_entries w w' /\
  promises w' =
    settle_entries (flush_outcome resolver result) (promises w)
      (snapshot_entries (heap w) snapshot) /\
  calls w' = calls w ++ resolver_calls result (heap w) snapshot.
Proof.
  cbv zeta.
  assert (triggerBatch_resume resolver snapshot result w =
    foldl (fun w l =>
             match result with
             | Returned combinedResponse => resolve_entry resolver combinedResponse w l
             | Thrown error => reject_entry error w l
             end) w snapshot) as -> by (by destruct result).
  revert w. induction snapshot as [|l snapshot IH]; intros w.
  - simpl. unfold resolver_calls, resolved_entries, same_entries. simpl.
    destruct result; rewrite ?filter_nil; simpl; by rewrite app_nil_r.
  - cbn [foldl].
    match goal with |- context [foldl _ ?x snapshot] => set (w1 := x) end.
    destruct (IH w1) as ((H1 & H2 & H3 & H4 & H5 & H6 & H7 & H8 & H9) & Hp & Hc).
    unfold same_entries. rewrite H1, H2, H3, H4, H5, H6, H7, H8, H9, Hp, Hc.
    clear IH H1 H2 H3 H4 H5 H6 H7 H8 H9 Hp Hc.
    unfold resolver_calls, resolved_entries, snapshot_entries.
    cbn [omap list_omap]. fold (omap (M:=list) (fun l => heap w !! l) snapshot).
    unfold w1. destruct result as [combinedResponse|error].
    + rewrite resolve_entry_spec.
      destruct (heap w !! l) as [e|] eqn:Hl; [|done].
      rewrite filter_cons. destruct (skipped e) eqn:Hsk; simpl.
      * unfold settle_entries. simpl.
        by rewrite (settle_reqs_skipped _ _ _ Hsk).
      * split_and!; try done. by rewrite <- (assoc_L (++)).
    + rewrite reject_entry_spec.
      destruct (heap w !! l) as [e|] eqn:Hl; done.
Qed.

Lemma concat_delete {A} (a : list (list A)) (n : nat) snap :
  a !! n = Some snap ->
  exists a1 a2, concat a = a1 ++ snap ++ a2 /\ concat (delete n a) = a1 ++ a2.
Proof.
  intros Hn. exists (concat (take n a)), (concat (drop (S n) a)). split.
  - rewrite <- (take_drop_middle a n snap Hn) at 1.
    by rewrite concat_app.
  - by rewrite delete_take_drop, concat_app.
Qed.

Lemma live_promises_subseteq reqs q :
  q ∈ live_promises reqs -> q ∈ promise <$> reqs.
Proof.
  unfold live_promises. intros (r & -> & Hr)%list_elem_of_fmap.
  apply list_elem_of_filter in Hr as [_ Hr]. by apply list_elem_of_fmap_2.
Qed.

(** Once a flush has settled its entries it no longer refers to them. *)
Lemma core_ok_settled m al1 snap al2 h store f :
  core_ok m (al1 ++ snap ++ al2) h store ->
  core_ok m (al1 ++ al2) h (settle_entries f store (snapshot_entries h snap)).
Proof.
  intros Hok. pose proof Hok as (Hk & Hid & Hnd & He & [Hs1 Hs2]).
  assert (al1 ++ al2 `sublist_of` al1 ++ snap ++ al2) as Hsub.
  { apply sublist_app; [done|]. by apply sublist_inserts_l. }
  assert (forall l, l ∈ m.*2 ++ al1 ++ al2 -> l ∉ snap) as Hout.
  { intros l Hl Hin. rewrite !NoDup_app in Hnd.
    destruct Hnd as (_ & Hd1 & _ & Hd2 & _ & Hd3 & _).
    rewrite !elem_of_app in Hl. destruct Hl as [Hl|[Hl|Hl]].
    - apply (Hd1 l Hl). rewrite !elem_of_app. tauto.
    - apply (Hd2 l Hl). rewrite !elem_of_app. tauto.
    - by apply (Hd3 l Hin). }
  split_and!; try done.
  - apply (sublist_NoDup _ (m.*2 ++ al1 ++ snap ++ al2)); [done|].
    by apply sublist_app.
  - rewrite Forall_forall in *. intros l Hl.
    eapply entry_ok_frame; [|done|].
    + apply He. rewrite !elem_of_app in *. tauto.
    + intros e r Hle Hr. apply settle_entries_other.
      intros e' (l' & Hl' & Hle')%elem_of_snapshot_entries Hq%live_promises_subseteq.
      apply (Hout l Hl).
      assert (l = l') as ->; [|done].
      eapply (heap_promises_owner h l l' e e' (promise r)); try done.
      by apply list_elem_of_fmap_2.
  - split; [done|]. by rewrite length_settle_entries.
Qed.

End flushing.

(** ** Every reachable world is well-formed *)

Section reachable.
Context {CombinedResponse : Type}.
Variable resolver : RequestResolver CombinedResponse.
Variable scheduler : Scheduler.
Implicit Types (w : World).

Lemma wf_init t0 : wf (init t0).
Proof.
  split; [|done]. split_and!; simpl; try constructor.
  - apply NoDup_nil_2.
  - constructor.
Qed.

Lemma wf_abort signal r w : wf w -> wf (abort signal r w).
Proof.
  intros Hwf. unfold abort.
  generalize (filter (fun x : nat * Handle => x.1 = signal) (listeners w)).
  assert (wf (set_listeners (filter (fun x => x.1 <> signal)) w)) as Hwf'
    by done.
  revert Hwf'. generalize (set_listeners (filter (fun x => x.1 <> signal)) w).
  intros w1 Hw1 fired. revert w1 Hw1.
  induction fired as [|x fired IH]; intros w1 Hw1; simpl; [done|].
  apply IH. by apply wf_handle_cancel.
Qed.

Lemma wf_timeout_fires t w : wf w -> wf (timeout_fires t w).
Proof.
  intros Hwf. pose proof Hwf as [Hcore Htimer]. unfold timeout_fires.
  destruct (list_find _ (timeouts w)) as [[n [t' due]]|] eqn:Hfind; [|done].
  case_bool_decide; [|done].
  apply list_find_Some in Hfind as (Hn & Ht & _). simpl in Ht. subst t'.
  unfold triggerBatch_unbound. split; [done|].
  unfold timer_ok in *. simpl. destruct (timer w) as [t0|].
  - destruct Htimer as (Hp & Hts & Hfl). split; [done|]. split; [|done].
    right. destruct Hts as [Hts|Hts]; [|by rewrite Hts].
    destruct (timeouts w) as [|[t1 d1] [|? ?]]; simplify_eq/=.
    destruct n; simplify_eq/=.
    rewrite filter_cons. simpl. by rewrite decide_False by (by intros ?).
  - destruct Htimer as (_ & Hts & _). by rewrite Hts in Hn.
Qed.

Lemma wf_tick (ms : N) w : wf w -> wf (set_clock (clock w + Z.of_N ms) w).
Proof.
  intros [Hcore Htimer]. split; [done|].
  unfold timer_ok in *. simpl. destruct (timer w); [|done].
  destruct Htimer as (Hp & Hts & Hfl). split; [done|]. split; [done|].
  destruct (firstRequestTime w), (lastRequestTime w); try done. lia.
Qed.

Lemma wf_processor_settles n result w :
  wf w -> wf (processor_settles resolver n result w).
Proof.
  intros [Hcore Htimer]. unfold processor_settles.
  destruct (awaiting w !! n) as [snapshot|] eqn:Hn; [|done].
  destruct (resume_fields resolver snapshot result (set_awaiting (delete n) w))
    as ((H1 & H2 & H3 & H4 & H5 & H6 & H7 & H8 & H9) & Hp & Hc).
  simpl in *. split.
  - rewrite H1, H2, H7, Hp.
    destruct (concat_delete _ _ _ Hn) as (a1 & a2 & Ha & ->).
    rewrite Ha in Hcore. by apply core_ok_settled.
  - eapply timer_ok_same; [..|exact Htimer]; by rewrite ?H2.
Qed.

Lemma wf_step op w : wf w -> wf (step resolver scheduler w op).
Proof.
  intros Hwf. destruct op; simpl.
  - by apply wf_enqueue.
  - by apply wf_cancel.
  - by apply wf_handle_cancel.
  - by apply wf_abort.
  - by apply wf_tick.
  - by apply wf_timeout_fires.
  - by apply wf_processor_settles.
Qed.

Lemma wf_run ops w : wf w -> wf (run resolver scheduler ops w).
Proof.
  revert w. induction ops as [|op ops IH]; intros w Hwf; simpl; [done|].
  apply IH. by apply wf_step.
Qed.

(** Whatever happens to a new manager, the world stays well-formed. *)
Lemma reachable_wf t0 ops : wf (run resolver scheduler ops (init t0)).
Proof. apply wf_run, wf_init. Qed.

End reachable.

(** ** What a flush settles *)

Section settling_a_snapshot.
Context {CombinedResponse : Type}.
Variable resolver : RequestResolver CombinedResponse.
Implicit Types (w : World) (l : loc) (snapshot : list loc).

Lemma NoDup_fmap_inj {A B} (f : A -> B) (xs : list A) x y :
  NoDup (f <$> xs) -> x ∈ xs -> y ∈ xs -> f x = f y -> x = y.
Proof.
  induction xs as [|z xs IH]; simpl; [by intros _ ?%elem_of_nil|].
  rewrite NoDup_cons, !elem_of_cons. intros [Hz Hnd] [->|Hx] [->|Hy] Heq;
    try done.
  - destruct Hz. rewrite Heq. by apply list_elem_of_fmap_2.
  - destruct Hz. rewrite <- Heq. by apply list_elem_of_fmap_2.
  - by apply IH.
Qed.

(** The promise of a request of a snapshot entry, after the flush. *)
Lemma resume_settles snapshot result w l e r :
  snapshot_ok w snapshot -> l ∈ snapshot -> heap w !! l = Some e ->
  r ∈ requests e ->
  promises (triggerBatch_resume resolver snapshot result w) !! promise r =
    if cancelled r then promises w !! promise r
    else Some (flush_outcome resolver result e).
Proof.
  intros [Hnd Hwait] Hl He Hr.
  destruct (resume_fields resolver snapshot result w) as (_ & -> & _).
  assert (forall l' e', l' ∈ snapshot -> heap w !! l' = Some e' ->
    promise r ∈ entry_promises e' -> e' = e) as Hown.
  { intros l' e' _ He' Hin.
    assert (l' = l) as ->; [|congruence].
    eapply heap_promises_owner; [done..|]. by apply list_elem_of_fmap_2. }
  destruct (cancelled r) eqn:Hc.
  - apply settle_entries_other.
    intros e' (l' & Hl' & He')%elem_of_snapshot_entries Hin.
    pose proof (live_promises_subseteq _ _ Hin) as Hin'.
    rewrite (Hown l' e' Hl' He' Hin') in Hin.
    unfold live_promises in Hin.
    apply list_elem_of_fmap in Hin as (r' & Heq & Hr').
    apply list_elem_of_filter in Hr' as [Hc' Hr'].
    assert (r = r') as <-; [|congruence].
    eapply (NoDup_fmap_inj promise); [|done..].
    by eapply heap_promises_entry_NoDup.
  - assert (promise r ∈ live_promises (requests e)) as Hlive.
    { unfold live_promises. apply list_elem_of_fmap_2.
      by apply list_elem_of_filter. }
    rewrite (settle_entries_owned _ _ _ _ e); [| |done|].
    + rewrite Forall_forall in Hwait. specialize (Hwait l Hl).
      unfold entry_waiting in Hwait. rewrite He in Hwait.
      rewrite Forall_forall in Hwait. by rewrite (Hwait r Hr Hc).
    + apply elem_of_snapshot_entries. eauto.
    + intros e' (l' & Hl' & He')%elem_of_snapshot_entries Hin.
      f_equal. apply (Hown l' e' Hl' He').
      by apply live_promises_subseteq.
Qed.

(** A promise that no entry of the snapshot holds is left alone. *)
Lemma resume_frame snapshot result w q :
  (forall l e, l ∈ snapshot -> heap w !! l = Some e -> q ∉ entry_promises e) ->
  promises (triggerBatch_resume resolver snapshot result w) !! q = promises w !! q.
Proof.
  intros Hq. destruct (resume_fields resolver snapshot result w) as (_ & -> & _).
  apply settle_entries_other.
  intros e (l & Hl & He)%elem_of_snapshot_entries Hin%live_promises_subseteq.
  by apply (Hq l e).
Qed.

Lemma core_ok_waiting m al h store l :
  core_ok m al h store -> l ∈ m.*2 ++ al -> entry_waiting h store l.
Proof.
  intros Hok Hl. destruct (core_ok_entry _ _ _ _ l Hok Hl) as (e & He & _ & Hlive).
  unfold entry_waiting. rewrite He.
  eapply Forall_impl; [done|]. by intros r [_ ?] _.
Qed.

(** The snapshot of a suspended flush is as the flush needs it. *)
Lemma wf_snapshot_ok w snapshot :
  wf w -> snapshot ∈ awaiting w -> snapshot_ok w snapshot.
Proof.
  intros [Hcore _] Hin. split; [by destruct Hcore as (_ & _ & _ & _ & ? & _)|].
  rewrite Forall_forall. intros l Hl. eapply core_ok_waiting; [done|].
  apply elem_of_app. right. apply list_elem_of_In, in_concat.
  exists snapshot. by rewrite <- !list_elem_of_In.
Qed.

(** So is the snapshot a flush has just taken. *)
Lemma wf_begin_snapshot_ok w :
  wf w -> snapshot_ok (triggerBatch_begin w).2 (map_values (pending w)).
Proof.
  intros [Hcore _].
  destruct (begin_fields w) as (_ & _ & _ & _ & _ & _ & Hh & Hp & _).
  unfold snapshot_ok. rewrite Hh, Hp.
  split; [by destruct Hcore as (_ & _ & _ & _ & ? & _)|].
  rewrite Forall_forall. intros l Hl. eapply core_ok_waiting; [done|].
  apply elem_of_app. by left.
Qed.

End settling_a_snapshot.

(** ** Cancelling, precisely *)

Section cancelling.
Context {CombinedResponse : Type}.
Variable resolver : RequestResolver CombinedResponse.
Implicit Types (w : World) (l : loc) (snapshot : list loc).

Lemma list_find_NoDup {A B} `{EqDecision B} (f : A -> B) (xs : list A) i x :
  NoDup (f <$> xs) -> xs !! i = Some x ->
  list_find (fun y => f y = f x) xs = Some (i, x).
Proof.
  intros Hnd Hi. apply list_find_Some. split_and!; [done..|].
  intros j y Hj Hlt Heq.
  assert (j = i); [|lia].
  eapply (NoDup_lookup (f <$> xs) j i (f x)); [done|..].
  - by rewrite list_lookup_fmap, Hj, <- Heq.
  - by rewrite list_lookup_fmap, Hi.
Qed.

(** What the [cancel] closure of a handle does to a well-formed world in
    which the request of the handle is the one at [idx] of the entry of its
    identity. *)
Lemma handle_cancel_fields X reason w l e idx req :
  wf w -> map_get X (pending w) = Some l -> heap w !! l = Some e ->
  requests e !! idx = Some req ->
  let w' := handle_cancel {| handle_id := X; handle_promise := promise req |}
              reason w in
  let remaining := delete idx (requests e) in
  promises w' =
    <[promise req := Rejected (nullish_or reason BatchCancellationError)]>
      (promises w) /\
  promises w !! promise req = Some Pending /\
  heap w' = <[l:=with_requests e remaining]> (heap w) /\
  pending w' = match remaining with [] => map_delete X (pending w) | _ => pending w end /\
  awaiting w' = awaiting w /\ calls w' = calls w /\ clock w' = clock w /\
  (pending w' <> [] -> timer w' = timer w /\ timeouts w' = timeouts w /\
                       firstRequestTime w' = firstRequestTime w /\
                       lastRequestTime w' = lastRequestTime w) /\
  (pending w' = [] -> timer w' = None /\ timeouts w' = [] /\
                      firstRequestTime w' = None /\ lastRequestTime w' = None).
Proof.
  intros [Hcore Htimer] Hk Hl Hidx. cbv zeta.
  destruct (core_ok_pending _ _ _ _ _ _ Hcore Hk) as (e0 & ? & _ & _ & Hlive).
  simplify_eq. rewrite Forall_forall in Hlive.
  destruct (Hlive req) as [Hc Hp]; [by eapply list_elem_of_lookup_2|].
  assert (NoDup (promise <$> requests e)) as Hnd.
  { destruct Hcore as (_ & _ & _ & _ & Hnd & _).
    by eapply heap_promises_entry_NoDup. }
  pose proof (timer_ok_timeouts w Htimer) as Hto.
  unfold handle_cancel. simpl. rewrite Hk, Hl.
  rewrite (list_find_NoDup promise _ idx req Hnd Hidx), Hc.
  assert (settle (promise req) (Rejected (nullish_or reason BatchCancellationError))
            (promises w) =
          <[promise req:=Rejected (nullish_or reason BatchCancellationError)]>
            (promises w)) as Hsettle by (unfold settle; by rewrite Hp).
  destruct (delete idx (requests e)) as [|r0 rem]; simpl.
  - destruct (map_delete X (pending w)) as [|x m'] eqn:Hm'.
    + destruct (reset_fields
        (set_pending (map_delete X)
           (set_heap <[l:=with_requests e []]>
              (reject (promise req) (nullish_or reason BatchCancellationError) w))))
        as (E1 & E2 & E3 & E4 & E5 & E6 & E7 & E8 & E9 & E10).
      rewrite E1, E2, E3, E4, E5, E6, E7, E8, E9, E10. simpl.
      split_and!; try done.
      intros _. split_and!; try done.
      unfold timeouts_clearable in Hto. by destruct (timer w).
    + simpl. rewrite Hm'. split_and!; try done.
  - destruct (pending w) as [|x m'] eqn:Hm'; [done|]. simpl.
    rewrite Hm'. split_and!; try done.
Qed.

(** The promises after the loops of [cancel] over some entries: a promise
    keeps its state or, if it was pending, is rejected with a cancellation. *)
Lemma cancel_entries_promises ls w q :
  promises (foldl cancel_entry w ls) !! q = promises w !! q \/
  promises (foldl cancel_entry w ls) !! q =
    settle_at (Rejected BatchCancellationError) (promises w !! q).
Proof.
  revert w. induction ls as [|l ls IH]; intros w; simpl; [by left|].
  assert (promises (cancel_entry w l) !! q = promises w !! q \/
          promises (cancel_entry w l) !! q =
            settle_at (Rejected BatchCancellationError) (promises w !! q)) as Hstep.
  { destruct (heap w !! l) as [e|] eqn:Hl.
    - rewrite (cancel_entry_spec w l e Hl). simpl. rewrite settle_reqs_lookup.
      case_decide; [by right|by left].
    - unfold cancel_entry. rewrite Hl. by left. }
  destruct (IH (cancel_entry w l)) as [->| ->], Hstep as [->| ->]; auto.
  right. apply settle_at_idemp.
Qed.

Lemma cancel_entries_heap ls w l :
  l ∉ ls -> heap (foldl cancel_entry w ls) !! l = heap w !! l.
Proof.
  revert w. induction ls as [|l' ls IH]; intros w Hl; simpl; [done|].
  apply not_elem_of_cons in Hl as [Hne Hl]. rewrite IH by done.
  destruct (heap w !! l') as [e|] eqn:Hl'.
  - rewrite (cancel_entry_spec w l' e Hl'). simpl.
    by rewrite list_lookup_insert_ne.
  - unfold cancel_entry. by rewrite Hl'.
Qed.

(** Every request of the entries gone through that was not cancelled has its
    promise rejected with a cancellation, unless it was settled before. *)
Lemma cancel_entries_rejects ls w l e r :
  NoDup ls -> l ∈ ls -> heap w !! l = Some e -> r ∈ requests e ->
  cancelled r = false ->
  promises (foldl cancel_entry w ls) !! promise r =
    settle_at (Rejected BatchCancellationError) (promises w !! promise r).
Proof.
  revert w. induction ls as [|l' ls IH]; intros w Hnd Hl He Hr Hc;
    [by apply elem_of_nil in Hl|].
  apply NoDup_cons in Hnd as [Hl' Hnd]. simpl.
  apply elem_of_cons in Hl as [->|Hl].
  - assert (promises (cancel_entry w l') !! promise r =
        settle_at (Rejected BatchCancellationError) (promises w !! promise r)) as Hstep.
    { rewrite (cancel_entry_spec w l' e He). simpl. rewrite settle_reqs_lookup.
      rewrite decide_True; [done|]. unfold live_promises.
      apply list_elem_of_fmap_2. by apply list_elem_of_filter. }
    destruct (cancel_entries_promises ls (cancel_entry w l') (promise r))
      as [->| ->]; rewrite Hstep; [done|apply settle_at_idemp].
  - assert (l <> l') as Hne by (by intros ->).
    rewrite (IH (cancel_entry w l') Hnd Hl); [|
      destruct (heap w !! l') as [e'|] eqn:El';
        [rewrite (cancel_entry_spec w l' e' El'); simpl;
         by rewrite list_lookup_insert_ne
        |unfold cancel_entry; by rewrite El']|done..].
    destruct (heap w !! l') as [e'|] eqn:El'.
    + rewrite (cancel_entry_spec w l' e' El'). simpl. rewrite settle_reqs_lookup.
      case_decide; [apply settle_at_idemp|done].
    + unfold cancel_entry. by rewrite El'.
Qed.

(** A flush taken now settles every request of the pending map with what the
    flush makes of its entry. *)
Lemma flush_settles w X l e r result :
  wf w -> map_get X (pending w) = Some l -> heap w !! l = Some e ->
  r ∈ requests e ->
  promises
    (triggerBatch_resume resolver (map_values (pending w)) result
       (triggerBatch_begin w).2) !! promise r =
    Some (flush_outcome resolver result e).
Proof.
  intros Hwf Hk Hl Hr.
  pose proof (wf_begin_snapshot_ok w Hwf) as Hok.
  destruct (begin_fields w) as (_ & _ & _ & _ & _ & _ & Hh & _).
  destruct Hwf as [Hcore _].
  destruct (core_ok_pending _ _ _ _ _ _ Hcore Hk) as (e0 & ? & _ & _ & Hlive).
  simplify_eq. rewrite Forall_forall in Hlive. destruct (Hlive r Hr) as [Hc _].
  rewrite (resume_settles resolver _ result _ l e r Hok); [by rewrite Hc| |by rewrite Hh|done].
  apply list_elem_of_fmap. exists (X, l). split; [done|].
  by apply map_get_Some_elem.
Qed.

End cancelling.

Section units.
Implicit Types (w : World) (l : loc) (m : list (Id * loc)).

(** The units of a flush: one per entry of the pending map, in its order,
    under the key of the entry and with the payload the entry holds. *)
Lemma request_list_spec m h :
  Forall (fun x => id <$> h !! x.2 = Some x.1) m ->
  Forall2 (fun x u => exists e, h !! x.2 = Some e /\ u = (x.1, payload e))
    m (request_list h m.*2).
Proof.
  induction 1 as [|[k l] m Hx Hm IH]; simpl; [constructor|].
  unfold request_list in *. simpl in *.
  destruct (h !! l) as [e|] eqn:Hl; [|done]. simpl in *. simplify_eq.
  constructor; [|done]. by exists e.
Qed.

Lemma request_list_ids m h :
  Forall (fun x => id <$> h !! x.2 = Some x.1) m ->
  (request_list h m.*2).*1 = m.*1.
Proof.
  intros Hm. pose proof (request_list_spec m h Hm) as H2.
  induction H2 as [|x u m us (e & _ & ->) _ IH]; [done|].
  apply Forall_cons in Hm as [_ Hm]. simpl. f_equal. by apply IH.
Qed.

(** What a flush passes to the processor, when it calls it. *)
Lemma begin_units w snapshot units :
  (triggerBatch_begin w).1 = Some (snapshot, units) ->
  pending w <> [] /\ snapshot = map_values (pending w) /\
  units = request_list (heap w) (map_values (pending w)).
Proof.
  destruct (begin_fields w) as (Hb & _). rewrite Hb.
  destruct (pending w); [done|]. by intros [= <- <-].
Qed.

Lemma begin_none w : (triggerBatch_begin w).1 = None -> pending w = [].
Proof.
  destruct (begin_fields w) as (Hb & _). rewrite Hb.
  by destruct (pending w).
Qed.

End units.

(** ** Entries out of reach of the pending map *)

Section framing.
Context {CombinedResponse : Type}.
Variable resolver : RequestResolver CombinedResponse.
Variable scheduler : Scheduler.
Implicit Types (w : World) (l : loc).

Lemma heap_frame_refl w : heap_frame w w.
Proof. by split. Qed.

Lemma heap_frame_trans w1 w2 w3 :
  heap_frame w1 w2 -> heap_frame w2 w3 -> heap_frame w1 w3.
Proof.
  intros [Hlen1 H1] [Hlen2 H2]. split; [lia|]. intros l Hl Hout.
  destruct (H1 l Hl Hout) as [E1 Hout1].
  destruct (H2 l) as [E2 Hout2]; [lia|done|]. split; [congruence|done].
Qed.

(** An update of an entry the pending map refers to, with a pending map that
    refers to no other entries than before. *)
Lemma heap_frame_insert w w' l0 e :
  l0 ∈ (pending w).*2 -> heap w' = <[l0:=e]> (heap w) ->
  (pending w').*2 ⊆ (pending w).*2 -> heap_frame w w'.
Proof.
  intros Hl0 Hh Hsub. split; [by rewrite Hh, length_insert|].
  intros l Hl Hout. split; [|by intros ?%Hsub].
  rewrite Hh. apply list_lookup_insert_ne. by intros ->.
Qed.

Lemma map_delete_locs X (m : list (Id * loc)) : (map_delete X m).*2 ⊆ m.*2.
Proof. apply sublist_subseteq, fmap_sublist, map_delete_sublist. Qed.

Lemma map_get_loc X (m : list (Id * loc)) l : map_get X m = Some l -> l ∈ m.*2.
Proof. intros Hk%map_get_Some_elem. apply list_elem_of_fmap. by exists (X, l). Qed.

Lemma heap_frame_handle_cancel hd reason w :
  wf w -> heap_frame w (handle_cancel hd reason w).
Proof.
  intros Hwf.
  destruct (map_get (handle_id hd) (pending w)) as [l0|] eqn:Hk;
    [|unfold handle_cancel; rewrite Hk; apply heap_frame_refl].
  destruct (heap w !! l0) as [e|] eqn:Hl;
    [|unfold handle_cancel; rewrite Hk, Hl; apply heap_frame_refl].
  destruct (list_find (fun r => promise r = handle_promise hd) (requests e))
    as [[idx req]|] eqn:Hfind;
    [|unfold handle_cancel; rewrite Hk, Hl, Hfind; apply heap_frame_refl].
  apply list_find_Some in Hfind as (Hidx & Hp & _).
  destruct hd as [X p]. simpl in *. subst p.
  destruct (handle_cancel_fields X reason w l0 e idx req Hwf Hk Hl Hidx)
    as (_ & _ & Hh & Hm & _).
  eapply heap_frame_insert; [by eapply map_get_loc|exact Hh|].
  rewrite Hm. destruct (delete idx (requests e)); [apply map_delete_locs|done].
Qed.

Lemma heap_frame_cancel_entries ls w :
  ls ⊆ (pending w).*2 -> heap_frame w (foldl cancel_entry w ls).
Proof.
  revert w. induction ls as [|l0 ls IH]; intros w Hsub; simpl;
    [apply heap_frame_refl|].
  assert (heap_frame w (cancel_entry w l0)) as Hstep.
  { destruct (cancel_entry_same w l0) as (Hp & _).
    destruct (heap w !! l0) as [e|] eqn:Hl.
    - eapply heap_frame_insert; [apply Hsub; left| |by rewrite Hp].
      by rewrite (cancel_entry_spec w l0 e Hl).
    - unfold cancel_entry. rewrite Hl. apply heap_frame_refl. }
  eapply heap_frame_trans; [exact Hstep|]. apply IH.
  destruct (cancel_entry_same w l0) as (-> & _).
  intros l Hl. apply Hsub. by right.
Qed.

Lemma heap_frame_shrink w w' :
  heap w' = heap w -> (pending w').*2 ⊆ (pending w).*2 -> heap_frame w w'.
Proof.
  intros Hh Hsub. split; [by rewrite Hh|]. intros l _ Hout.
  split; [by rewrite Hh|by intros ?%Hsub].
Qed.

Lemma heap_frame_reset w : heap_frame w (resetCurrentBatch w).
Proof.
  destruct (reset_fields w) as (Hp & _ & _ & _ & Hh & _).
  apply heap_frame_shrink; [done|]. rewrite Hp. by intros ? ?%elem_of_nil.
Qed.

Lemma heap_frame_cancel i w : heap_frame w (cancel i w).
Proof.
  unfold cancel. destruct i as [i|].
  - destruct (map_get i (pending w)) as [l0|] eqn:Hk; [|apply heap_frame_refl].
    assert (heap_frame w (set_pending (map_delete i) (cancel_entry w l0))) as Hstep.
    { destruct (cancel_entry_same w l0) as (Hp & _).
      destruct (heap w !! l0) as [e|] eqn:Hl.
      - eapply heap_frame_insert; [by eapply map_get_loc| |].
        + by rewrite (cancel_entry_spec w l0 e Hl).
        + simpl. rewrite Hp. apply map_delete_locs.
      - apply heap_frame_shrink; simpl.
        + unfold cancel_entry. by rewrite Hl.
        + rewrite Hp. apply map_delete_locs. }
    destruct (pending (set_pending (map_delete i) (cancel_entry w l0))); [|done].
    eapply heap_frame_trans; [exact Hstep|apply heap_frame_reset].
  - eapply heap_frame_trans; [|apply heap_frame_reset].
    by apply heap_frame_cancel_entries.
Qed.

Lemma heap_frame_enqueue request signal w :
  wf w -> heap_frame w (enqueue scheduler request signal w).2.
Proof.
  intros Hwf.
  destruct (enqueue_fields scheduler request signal w Hwf)
    as (_ & _ & _ & _ & _ & _ & _ & _ & _ & _ & Hcase & _).
  cbv zeta in Hcase.
  destruct (map_get (determine_id request w).1 (pending w)) as [l0|] eqn:Hk.
  - destruct Hcase as [Hp Hh].
    destruct Hwf as [Hcore _].
    destruct (core_ok_pending _ _ _ _ _ _ Hcore Hk) as (e & Hl & _).
    rewrite (list_alter_insert _ _ _ _ Hl) in Hh.
    eapply heap_frame_insert; [by eapply map_get_loc|exact Hh|by rewrite Hp].
  - destruct Hcase as [Hp Hh]. split; [rewrite Hh, length_app; lia|].
    intros l Hl Hout. rewrite Hh, Hp. split; [by apply lookup_app_l|].
    rewrite fmap_app, not_elem_of_app. split; [done|]. simpl.
    rewrite list_elem_of_singleton. lia.
Qed.

Lemma abort_frame signal reason w :
  wf w -> heap_frame w (abort signal reason w).
Proof.
  intros Hwf. unfold abort.
  generalize (filter (fun x : nat * Handle => x.1 = signal) (listeners w)).
  assert (wf (set_listeners (filter (fun x => x.1 <> signal)) w)) as Hwf' by done.
  assert (heap_frame w (set_listeners (filter (fun x => x.1 <> signal)) w)) as Hfr
    by (by split).
  revert Hwf' Hfr. generalize (set_listeners (filter (fun x => x.1 <> signal)) w).
  intros w1 Hw1 Hfr fired. revert w1 Hw1 Hfr.
  induction fired as [|x fired IH]; intros w1 Hw1 Hfr; simpl; [done|].
  apply IH; [by apply wf_handle_cancel|].
  eapply heap_frame_trans; [exact Hfr|by apply heap_frame_handle_cancel].
Qed.

Lemma heap_frame_timeout_fires t w : heap_frame w (timeout_fires t w).
Proof.
  unfold timeout_fires.
  destruct (list_find _ (timeouts w)) as [[n [t' due]]|]; [|apply heap_frame_refl].
  case_bool_decide; [|apply heap_frame_refl].
  by apply heap_frame_shrink.
Qed.

Lemma heap_frame_processor_settles n result w :
  heap_frame w (processor_settles resolver n result w).
Proof.
  unfold processor_settles.
  destruct (awaiting w !! n) as [snapshot|]; [|apply heap_frame_refl].
  destruct (resume_fields resolver snapshot result (set_awaiting (delete n) w))
    as ((Hh & Hp & _) & _).
  apply heap_frame_shrink; [done|]. by rewrite Hp.
Qed.

Lemma heap_frame_step op w : wf w -> heap_frame w (step resolver scheduler w op).
Proof.
  intros Hwf. destruct op; simpl.
  - by apply heap_frame_enqueue.
  - apply heap_frame_cancel.
  - by apply heap_frame_handle_cancel.
  - by apply abort_frame.
  - by split.
  - apply heap_frame_timeout_fires.
  - apply heap_frame_processor_settles.
Qed.

Lemma heap_frame_run ops w : wf w -> heap_frame w (run resolver scheduler ops w).
Proof.
  revert w. induction ops as [|op ops IH]; intros w Hwf; simpl;
    [apply heap_frame_refl|].
  eapply heap_frame_trans; [by apply heap_frame_step|].
  apply IH. by apply wf_step.
Qed.

End framing.

(** ** Enqueuing under one identity *)

Section deduplication.
Context {CombinedResponse : Type}.
Variable resolver : RequestResolver CombinedResponse.
Variable scheduler : Scheduler.
Implicit Types (w : World) (l : loc).

Lemma names_determine_id X request w :
  names X request -> (determine_id request w).1 = X.
Proof. by destruct request as [i|[i|] p]. Qed.

Lemma with_requests_same e : with_requests e (requests e) = e.
Proof. by destruct e. Qed.

(** Requests that name an identity already pending join its entry. *)
Lemma enqueue_all_joins X reqs w l e :
  wf w -> map_get X (pending w) = Some l -> heap w !! l = Some e ->
  Forall (fun x => names X x.1) reqs ->
  let r := enqueue_all scheduler reqs w in
  let ps := seq (length (promises w)) (length reqs) in
  wf r.2 /\ pending r.2 = pending w /\
  handle_promise <$> r.1 = ps /\ Forall (fun h => handle_id h = X) r.1 /\
  promises r.2 = promises w ++ replicate (length reqs) Pending /\
  heap r.2 = <[l:=with_requests e (requests e ++ fresh_requests ps)]> (heap w).
Proof.
  revert w e. induction reqs as [|[request signal] reqs IH];
    intros w e Hwf Hk Hl Hnames; cbv zeta.
  - simpl. rewrite !app_nil_r, with_requests_same.
    split_and!; try done. by rewrite list_insert_id.
  - apply Forall_cons in Hnames as [Hname Hnames]. simpl in Hname.
    destruct (enqueue_fields scheduler request signal w Hwf)
      as (Hhd & Hps & _ & _ & _ & _ & _ & _ & _ & _ & Hcase & Hwf1).
    cbv zeta in Hhd, Hps, Hcase, Hwf1.
    rewrite (names_determine_id X request w Hname) in Hhd, Hcase.
    rewrite Hk in Hcase. destruct Hcase as [Hp Hh].
    rewrite (list_alter_insert _ _ _ _ Hl) in Hh.
    simpl. destruct (enqueue scheduler request signal w) as [hd w1]. simpl in *.
    specialize (IH w1
      (push_request {| promise := length (promises w); cancelled := false |} e)
      Hwf1).
    destruct IH as (Hwf2 & Hp2 & Hhs & Hids & Hps2 & Hh2); [by rewrite Hp| |done|].
    { rewrite Hh. apply list_lookup_insert_eq. by eapply lookup_lt_Some. }
    cbv zeta in *.
    destruct (enqueue_all scheduler reqs w1) as [hds w2]. simpl in *.
    rewrite Hps, length_app in Hhs, Hh2. simpl in Hhs, Hh2.
    rewrite Nat.add_1_r in Hhs, Hh2.
    split_and!; try done.
    + congruence.
    + change (list_fmap Handle nat handle_promise hds) with (handle_promise <$> hds).
      by rewrite Hhs, Hhd.
    + constructor; [by rewrite Hhd|done].
    + by rewrite Hps2, Hps, <- (assoc_L (++)).
    + rewrite Hh2, Hh, list_insert_insert_eq. f_equal.
      unfold with_requests, push_request. simpl.
      by rewrite <- (assoc_L (++)).
Qed.

Lemma request_list_app h ls1 ls2 :
  request_list h (ls1 ++ ls2) = request_list h ls1 ++ request_list h ls2.
Proof. unfold request_list. apply omap_app. Qed.

End deduplication.

(** ** Two behaviours worth a lemma of their own *)

Section behaviours.
Context {CombinedResponse : Type}.
Variable resolver : RequestResolver CombinedResponse.
Variable scheduler : Scheduler.
Implicit Types (w : World) (l : loc) (snapshot : list loc).

(** A signal that has already aborted when [enqueue] is called changes
    nothing: the [cancel] it triggers runs before the request is in the
    pending map. *)
Lemma enqueue_ignores_aborted_signal request s w :
  wf w -> aborted s = true ->
  enqueue scheduler request (Some s) w = enqueue scheduler request None w.
Proof.
  intros Hwf Habort. rewrite !enqueue_unfold.
  assert (store_ok (heap (determine_id request w).2)
            (promises (determine_id request w).2)) as Hst.
  { destruct Hwf as [(_ & _ & _ & _ & Hst) _]. by destruct request as [i|[i|] p]. }
  generalize dependent (determine_id request w).2. intros w0 Hst.
  unfold enqueue_entry.
  rewrite !(createPromiseHandle_spec _ _ w0 Hst).
  unfold new_listeners. by rewrite Habort.
Qed.

(** A successful flush calls the resolution policy once for each entry of the
    snapshot that is not skipped, in order, and settles the requests of an
    entry by what the policy makes of that entry alone. *)
Lemma resolution_is_per_entry snapshot combinedResponse w :
  snapshot_ok w snapshot ->
  let w' := triggerBatch_resume resolver snapshot (Returned combinedResponse) w in
  calls w' = calls w ++
    ((fun e => ResolverCalled (descriptor_of e)) <$>
       resolved_entries (heap w) snapshot) /\
  (forall l e r, l ∈ snapshot -> heap w !! l = Some e -> r ∈ requests e ->
     promises w' !! promise r =
       if cancelled r then promises w !! promise r
       else Some (entry_outcome resolver combinedResponse e)) /\
  (forall q,
     (forall l e, l ∈ snapshot -> heap w !! l = Some e -> q ∉ entry_promises e) ->
     promises w' !! q = promises w !! q).
Proof.
  intros Hok. cbv zeta. split_and!.
  - by destruct (resume_fields resolver snapshot (Returned combinedResponse) w)
      as (_ & _ & ->).
  - intros l e r Hl He Hr.
    by rewrite (resume_settles resolver snapshot _ w l e r Hok Hl He Hr).
  - intros q Hq. by apply resume_frame.
Qed.

(** What the policy makes of an entry, case by case. *)
Lemma entry_outcome_cases combinedResponse e :
  entry_outcome resolver combinedResponse e =
    match resolver combinedResponse (descriptor_of e) with
    | Returned v => Fulfilled v
    | Thrown err => if is_undefined err then Fulfilled VUndefined else Rejected err
    end.
Proof.
  unfold entry_outcome, entry_settlement.
  destruct (resolver combinedResponse (descriptor_of e)) as [v|err]; [done|].
  by destruct (is_undefined err).
Qed.

End behaviours.

(** ** What a cancellation leaves alone *)

Section cancellation_is_quiet.
Implicit Types (w : World).

Lemma quiet_refl w : quiet w w.
Proof. by repeat split. Qed.

Lemma reset_quiet w :
  let w' := resetCurrentBatch w in
  awaiting w' = awaiting w /\ calls w' = calls w /\ clock w' = clock w /\
  listeners w' = listeners w /\ pending w' = [].
Proof.
  unfold resetCurrentBatch, clearExistingTimer. simpl.
  destruct (timer w); simpl; done.
Qed.

Lemma quiet_reset w w1 :
  awaiting w1 = awaiting w -> calls w1 = calls w -> clock w1 = clock w ->
  listeners w1 = listeners w ->
  quiet w (resetCurrentBatch w1).
Proof.
  intros. destruct (reset_quiet w1) as (? & ? & ? & ? & ?).
  unfold quiet. split_and!; congruence.
Qed.

Lemma handle_cancel_quiet hd reason w : quiet w (handle_cancel hd reason w).
Proof.
  unfold handle_cancel.
  destruct (map_get _ _) as [l|]; [|apply quiet_refl].
  destruct (heap w !! l) as [e|]; [|apply quiet_refl].
  destruct (list_find _ _) as [[idx req]|]; [|apply quiet_refl].
  cbv zeta.
  set (w1 := if cancelled req then w else _).
  assert (awaiting w1 = awaiting w /\ calls w1 = calls w /\ clock w1 = clock w /\
          listeners w1 = listeners w /\ window_kept w w1) as H1.
  { unfold w1. destruct (cancelled req); by repeat split. }
  clearbody w1.
  set (w2 := match delete idx (requests e) with [] => _ | _ => _ end).
  assert (awaiting w2 = awaiting w /\ calls w2 = calls w /\ clock w2 = clock w /\
          listeners w2 = listeners w /\ window_kept w w2) as H2.
  { unfold w2. destruct H1 as (? & ? & ? & ? & ? & ? & ? & ?).
    destruct (delete idx (requests e)); unfold window_kept; simpl.
    all: repeat split; assumption. }
  clearbody w2. destruct H2 as (? & ? & ? & ? & ?).
  destruct (pending w2) eqn:Hp.
  - by apply quiet_reset.
  - unfold quiet. by split_and!.
Qed.

Lemma quiet_trans w1 w2 w3 :
  quiet w1 w2 -> quiet w2 w3 -> (pending w3 <> [] -> pending w2 <> []) ->
  quiet w1 w3.
Proof.
  intros (? & ? & ? & ? & H12) (? & ? & ? & ? & H23) Hp.
  unfold quiet. split_and!; try congruence.
  intros Hne. destruct (H23 Hne) as (? & ? & ? & ?).
  destruct (H12 (Hp Hne)) as (? & ? & ? & ?).
  unfold window_kept. split_and!; congruence.
Qed.

Lemma handle_cancel_idle hd reason w :
  pending w = [] -> handle_cancel hd reason w = w.
Proof. intros Hp. unfold handle_cancel. by rewrite Hp. Qed.

Lemma same_manager_quiet w w' : same_manager w w' -> quiet w w'.
Proof.
  intros (? & ? & ? & ? & ? & ? & ? & ? & ?). unfold quiet, window_kept.
  by split_and!.
Qed.

Lemma cancel_quiet i w : quiet w (cancel i w).
Proof.
  destruct i as [i|]; unfold cancel.
  - destruct (map_get i (pending w)) as [l|]; [|apply quiet_refl].
    destruct (cancel_entry_same w l) as (? & ? & ? & ? & ? & ? & ? & ? & ?).
    cbv zeta. set (w1 := set_pending _ _).
    destruct (pending w1) eqn:Hp.
    + by apply quiet_reset.
    + unfold quiet, window_kept. by split_and!.
  - destruct (foldl_cancel_entry_same (map_values (pending w)) w)
      as (? & ? & ? & ? & ? & ? & ? & ? & ?).
    by apply quiet_reset.
Qed.

Lemma foldl_handle_cancel_quiet (hs : list (nat * Handle)) reason w :
  quiet w (foldl (fun w x => handle_cancel x.2 reason w) w hs).
Proof.
  revert w. induction hs as [|h hs IH]; intros w; simpl; [apply quiet_refl|].
  eapply quiet_trans; [apply handle_cancel_quiet|apply IH|].
  intros Hne Hp. apply Hne. clear IH Hne.
  set (w1 := handle_cancel h.2 reason w) in *. clearbody w1.
  induction hs as [|h' hs IH]; simpl; [done|].
  rewrite handle_cancel_idle by done. apply IH.
Qed.

Lemma abort_quiet signal reason w :
  let w' := abort signal reason w in
  awaiting w' = awaiting w /\ calls w' = calls w /\ clock w' = clock w /\
  listeners w' = filter (fun x => x.1 <> signal) (listeners w) /\
  (pending w' <> [] -> window_kept w w').
Proof.
  unfold abort. cbv zeta.
  destruct (foldl_handle_cancel_quiet
    (filter (fun x => x.1 = signal) (listeners w)) reason
    (set_listeners (filter (fun x => x.1 <> signal)) w)) as (? & ? & ? & ? & ?).
  by split_and!.
Qed.

End cancellation_is_quiet.

(** ** The window timestamps *)

Section window_times.
Context {CombinedResponse : Type}.
Variable resolver : RequestResolver CombinedResponse.
Variable scheduler : Scheduler.
Implicit Types (w : World).

Lemma timeout_fires_cases t w :
  timeout_fires t w = w \/
  timeout_fires t w = set_timeouts (filter (fun x => x.1 <> t)) w.
Proof.
  unfold timeout_fires. destruct (list_find _ _) as [[? [? due]]|]; [|by left].
  case_bool_decide; [by right|by left].
Qed.

Lemma suspend_fields (r : option (list loc * list descriptor) * World) :
  pending (suspend r) = pending r.2 /\ timer (suspend r) = timer r.2 /\
  timeouts (suspend r) = timeouts r.2 /\
  firstRequestTime (suspend r) = firstRequestTime r.2 /\
  lastRequestTime (suspend r) = lastRequestTime r.2 /\
  heap (suspend r) = heap r.2 /\ promises (suspend r) = promises r.2 /\
  calls (suspend r) = calls r.2 /\ clock (suspend r) = clock r.2 /\
  awaiting (suspend r) =
    awaiting r.2 ++ match r.1 with Some (snapshot, _) => [snapshot] | None => [] end.
Proof.
  destruct r as [[[snapshot units]|] w]; simpl; split_and!; try done.
  by rewrite app_nil_r.
Qed.

Lemma processor_settles_cases k result w :
  processor_settles resolver k result w = w \/
  exists snapshot, awaiting w !! k = Some snapshot /\
    processor_settles resolver k result w =
      triggerBatch_resume resolver snapshot result (set_awaiting (delete k) w).
Proof.
  unfold processor_settles. destruct (awaiting w !! k); [right; eauto|by left].
Qed.

Lemma wf_window w : wf w -> pending w = [] -> firstRequestTime w = None.
Proof.
  intros [_ Ht] Hp. unfold timer_ok in Ht. destruct (timer w).
  - by destruct Ht as [? _].
  - by destruct Ht as (_ & _ & ? & _).
Qed.

Lemma times_ok_quiet w w' :
  wf w' -> clock w' = clock w -> (pending w' <> [] -> window_kept w w') ->
  times_ok w -> times_ok w'.
Proof.
  intros Hwf Hc Hk Hok first last Hf Hl.
  destruct (decide (pending w' = [])) as [Hp|Hp].
  - by rewrite (wf_window w' Hwf Hp) in Hf.
  - destruct (Hk Hp) as (_ & Hts & Hf' & Hl'). rewrite Hc, Hts.
    apply Hok; congruence.
Qed.

Lemma times_ok_step op w :
  wf w -> times_ok w -> times_ok (step resolver scheduler w op).
Proof.
  intros Hwf Hok.
  pose proof (wf_step resolver scheduler op w Hwf) as Hwf'.
  destruct op as [request signal|i|h reason|signal reason|ms|t|k result]; simpl in *.
  - destruct (enqueue_fields scheduler request signal w Hwf)
      as (_ & _ & _ & _ & Hc & _ & Hf & Hl & _ & Hts & _).
    cbv zeta in *. intros first last Hf' Hl'.
    rewrite Hf in Hf'. rewrite Hl in Hl'. rewrite Hc, Hts.
    injection Hf' as <-. injection Hl' as <-.
    split.
    + destruct Hwf as [_ Ht]. pose proof (timer_ok_first w Ht). lia.
    + repeat constructor. simpl.
      pose proof (timer_delay_nonneg (Z.max 0
        (scheduler (clock w) (default (clock w) (firstRequestTime w)) (clock w)
           (Z.of_nat (length (pending (enqueue scheduler request signal w).2))))))
        as Hd.
      lia.
  - destruct (cancel_quiet i w) as (_ & _ & ? & _ & ?).
    by eapply times_ok_quiet.
  - destruct (handle_cancel_quiet h reason w) as (_ & _ & ? & _ & ?).
    by eapply times_ok_quiet.
  - destruct (abort_quiet signal reason w) as (_ & _ & ? & _ & ?).
    by eapply times_ok_quiet.
  - intros first last Hf Hl. simpl in *.
    destruct (Hok first last Hf Hl) as [? ?]. split; [lia|done].
  - destruct (timeout_fires_cases t w) as [->| ->]; [done|].
    intros first last Hf Hl. simpl in *.
    destruct (Hok first last Hf Hl) as [? Hts]. split; [done|].
    rewrite Forall_forall in *. by intros x [_ ?]%list_elem_of_filter; apply Hts.
  - destruct (processor_settles_cases k result w) as [->|(snapshot & _ & ->)];
      [done|].
    destruct (resume_fields resolver snapshot result (set_awaiting (delete k) w))
      as ((_ & _ & _ & Hts & Hf & Hl & _ & Hc & _) & _).
    intros first last. rewrite Hf, Hl, Hts, Hc. simpl. apply Hok.
Qed.

Lemma times_ok_run ops w :
  wf w -> times_ok w -> times_ok (run resolver scheduler ops w).
Proof.
  revert w. induction ops as [|op ops IH]; intros w Hwf Hok; [done|].
  simpl. apply IH; [by apply wf_step|by apply times_ok_step].
Qed.

End window_times.

(** ** Flushes in flight *)

Section in_flight.
Context {CombinedResponse : Type}.
Variable resolver : RequestResolver CombinedResponse.
Variable scheduler : Scheduler.
Implicit Types (w : World) (l : loc) (snapshot : list loc).

Lemma elem_of_concat {A} (x : A) (ls : list (list A)) (xs : list A) :
  xs ∈ ls -> x ∈ xs -> x ∈ concat ls.
Proof.
  intros Hxs Hx. apply list_elem_of_In, in_concat. exists xs.
  by rewrite <- !list_elem_of_In.
Qed.

Lemma wf_in_flight w snapshot l e r :
  wf w -> snapshot ∈ awaiting w -> l ∈ snapshot -> heap w !! l = Some e ->
  r ∈ requests e ->
  cancelled r = false /\ promises w !! promise r = Some Pending /\
  (l ∉ (pending w).*2) /\ (l < length (heap w))%nat.
Proof.
  intros [(_ & _ & Hnd & Hok & _) _] Hs Hl He Hr.
  assert (l ∈ concat (awaiting w)) as Hin.
  { by eapply elem_of_concat. }
  rewrite Forall_forall in Hok.
  specialize (Hok l). unfold entry_ok in Hok. rewrite He in Hok.
  destruct Hok as [_ Hlive]; [apply elem_of_app; by right|].
  rewrite Forall_forall in Hlive. destruct (Hlive r Hr) as [? ?].
  split_and!; try done.
  - apply NoDup_app in Hnd as (_ & Hdis & _). intros Hp. by apply (Hdis l).
  - by eapply lookup_lt_Some.
Qed.

Lemma awaiting_step op w snapshot :
  wf w -> settles op = false -> snapshot ∈ awaiting w ->
  snapshot ∈ awaiting (step resolver scheduler w op).
Proof.
  intros Hwf Hop Hs.
  destruct op as [request signal|i|h reason|signal reason|ms|t|k result];
    simpl in *; try done.
  - destruct (enqueue_fields scheduler request signal w Hwf) as (_ & _ & Ha & _).
    cbv zeta in Ha. by rewrite Ha.
  - destruct (cancel_quiet i w) as (Ha & _). by rewrite Ha.
  - destruct (handle_cancel_quiet h reason w) as (Ha & _). by rewrite Ha.
  - destruct (abort_quiet signal reason w) as (Ha & _). by rewrite Ha.
  - by destruct (timeout_fires_cases t w) as [->| ->].
Qed.

(** The entries of a suspended flush are never skipped. *)
Lemma in_flight_resolved w snapshot :
  wf w -> snapshot ∈ awaiting w ->
  (fun e => ResolverCalled (descriptor_of e)) <$> resolved_entries (heap w) snapshot =
    ResolverCalled <$> request_list (heap w) snapshot.
Proof.
  intros Hwf Hs. unfold resolved_entries, snapshot_entries, request_list.
  assert (forall l, l ∈ snapshot ->
    exists e, heap w !! l = Some e /\ skipped e = false) as Hall.
  { intros l Hl. destruct Hwf as [(_ & _ & _ & Hok & _) _].
    rewrite Forall_forall in Hok. specialize (Hok l). unfold entry_ok in Hok.
    assert (l ∈ (pending w).*2 ++ concat (awaiting w)) as Hin.
    { apply elem_of_app; right. by eapply elem_of_concat. }
    destruct (heap w !! l) as [e|]; [|by destruct (Hok Hin)].
    destruct (Hok Hin) as [Hne Hlive].
    exists e. split; [done|]. unfold skipped.
    destruct (requests e) as [|r rs]; [done|].
    apply Forall_cons in Hlive as [[Hc _] _]. simpl. by rewrite Hc. }
  clear Hs. induction snapshot as [|l ls IH]; [done|].
  destruct (Hall l) as (e & He & Hsk); [by left|].
  simpl. rewrite He. simpl. rewrite filter_cons, decide_True by done.
  simpl. f_equal. apply IH. intros l' Hl'. apply Hall. by right.
Qed.

End in_flight.

(** ** The completion of a processor call *)

Section completion.
Context {CombinedResponse : Type}.
Variable resolver : RequestResolver CombinedResponse.
Variable scheduler : Scheduler.
Implicit Types (w : World) (l : loc) (snapshot : list loc).

Lemma flush_outcome_settled (result : outcome CombinedResponse) e :
  flush_outcome resolver result e <> Pending.
Proof.
  unfold flush_outcome, entry_outcome, entry_settlement.
  destruct result as [cr|err]; [|done].
  destruct (resolver cr (descriptor_of e)) as [v|err]; simpl; [done|].
  by destruct (is_undefined err).
Qed.

Lemma pending_not_in_flight w snapshot X l e r l' e' :
  wf w -> snapshot ∈ awaiting w ->
  map_get X (pending w) = Some l -> heap w !! l = Some e -> r ∈ requests e ->
  l' ∈ snapshot -> heap w !! l' = Some e' -> promise r ∉ entry_promises e'.
Proof.
  intros Hwf Hs HX He Hr Hl' He' Hin.
  destruct Hwf as [(_ & _ & Hnd & _ & Hst & _) _].
  assert (l = l') as <-.
  { eapply (heap_promises_owner (heap w)); try done.
    apply list_elem_of_fmap. by exists r. }
  apply NoDup_app in Hnd as (_ & Hdis & _).
  apply (Hdis l); [by eapply map_get_loc|by eapply elem_of_concat].
Qed.

End completion.

(** ** From the enqueue to the flush *)

Section arming.
Context {CombinedResponse : Type}.
Variable resolver : RequestResolver CombinedResponse.
Variable scheduler : Scheduler.
Implicit Types (w : World) (l : loc) (snapshot : list loc).

(** The identity of the request is a key of the pending map when [enqueue]
    returns. *)
Lemma enqueue_pending request signal w :
  wf w ->
  let r := enqueue scheduler request signal w in
  handle_id r.1 ∈ (pending r.2).*1.
Proof.
  intros Hwf. cbv zeta.
  destruct (enqueue_fields scheduler request signal w Hwf)
    as (-> & _ & _ & _ & _ & _ & _ & _ & _ & _ & Hcase & _).
  cbv zeta in Hcase. simpl.
  destruct (map_get _ (pending w)) as [l|] eqn:Hk.
  - destruct Hcase as [-> _]. apply list_elem_of_fmap.
    eexists (_, l). split; [done|]. by apply map_get_Some_elem.
  - destruct Hcase as [-> _]. rewrite fmap_app. apply elem_of_app. right.
    simpl. by left.
Qed.

Lemma timeout_fires_early t due w :
  timeouts w = [(t, due)] -> clock w < due -> timeout_fires t w = w.
Proof.
  intros Hts Hdue. unfold timeout_fires. rewrite Hts. simpl.
  rewrite decide_True by done. simpl. rewrite bool_decide_eq_false_2; [done|lia].
Qed.

End arming.

(** ** Cancelling an identity *)

Section cancel_by_identity.
Implicit Types (w : World) (l : loc).

Lemma reset_if_empty_fields w :
  let w' := match pending w with [] => resetCurrentBatch w | _ => w end in
  pending w' = pending w /\ heap w' = heap w /\ promises w' = promises w.
Proof.
  destruct (reset_fields w) as (Hp & _ & _ & _ & Hh & Hs & _).
  cbv zeta. destruct (pending w) eqn:E; [|by rewrite E].
  by rewrite Hp, Hh, Hs.
Qed.

Lemma wf_idle w :
  wf w -> pending w = [] ->
  timer w = None /\ timeouts w = [] /\
  firstRequestTime w = None /\ lastRequestTime w = None.
Proof.
  intros [_ Ht] Hp. unfold timer_ok in Ht. destruct (timer w).
  - by destruct Ht as [? _].
  - by destruct Ht as (_ & ? & ? & ?).
Qed.

End cancel_by_identity.

(** ** Handles *)

Section handles.
Context {CombinedResponse : Type}.
Variable resolver : RequestResolver CombinedResponse.
Variable scheduler : Scheduler.
Implicit Types (w : World) (l : loc).

(** Once [handle.cancel] has run, the pending map holds no request of the
    handle. *)
Lemma handle_cancel_removes h reason w l e :
  wf w -> let w' := handle_cancel h reason w in
  map_get (handle_id h) (pending w') = Some l -> heap w' !! l = Some e ->
  handle_promise h ∉ entry_promises e.
Proof.
  intros Hwf. cbv zeta. destruct h as [k p]. simpl.
  destruct (map_get k (pending w)) as [l0|] eqn:Hk.
  2: { unfold handle_cancel. simpl. rewrite Hk. congruence. }
  pose proof Hwf as [Hcore _].
  destruct (core_ok_pending _ _ _ _ _ _ Hcore Hk) as (e0 & He0 & _).
  destruct (list_find (fun r => promise r = p) (requests e0))
    as [[idx req]|] eqn:Hfind.
  2: { unfold handle_cancel. simpl. rewrite Hk, He0, Hfind.
       intros Hl He. rewrite Hk in Hl. injection Hl as <-.
       rewrite He0 in He. injection He as <-.
       apply list_find_None in Hfind. rewrite Forall_forall in Hfind.
       intros (r & Hp & Hr)%list_elem_of_fmap. by apply (Hfind r Hr). }
  apply list_find_Some in Hfind as (Hidx & <- & _).
  destruct (handle_cancel_fields k reason w l0 e0 idx req Hwf Hk He0 Hidx)
    as (_ & _ & Hh & Hp & _).
  cbv zeta in Hh, Hp. rewrite Hh, Hp.
  assert (promise req ∉ promise <$> delete idx (requests e0)) as Hnot.
  { intros (r & Hp' & Hr)%list_elem_of_fmap.
    eapply (NoDup_fmap_delete promise); [|done|done|done].
    destruct Hcore as (_ & _ & _ & _ & Hnd & _).
    by eapply heap_promises_entry_NoDup. }
  destruct (delete idx (requests e0)) as [|r0 rs].
  - by rewrite map_get_delete.
  - rewrite Hk. intros [= <-].
    rewrite list_lookup_insert_eq by (by eapply lookup_lt_Some).
    by intros [= <-].
Qed.

(** Where a request sits when [enqueue] returns. *)
Lemma enqueue_request_pending request signal w :
  wf w -> let r := enqueue scheduler request signal w in
  exists l e idx,
    map_get (handle_id r.1) (pending r.2) = Some l /\ heap r.2 !! l = Some e /\
    requests e !! idx =
      Some {| promise := handle_promise r.1; cancelled := false |}.
Proof.
  intros Hwf. cbv zeta.
  destruct (enqueue_fields scheduler request signal w Hwf)
    as (-> & _ & _ & _ & _ & _ & _ & _ & _ & _ & Hcase & Hwf').
  cbv zeta in Hcase, Hwf'. simpl.
  set (k := (determine_id request w).1) in *.
  destruct (map_get k (pending w)) as [l|] eqn:Hk.
  - destruct Hcase as [Hp Hh]. destruct Hwf as [Hcore _].
    destruct (core_ok_pending _ _ _ _ _ _ Hcore Hk) as (e & He & _).
    exists l, (push_request {| promise := length (promises w); cancelled := false |} e),
      (length (requests e)).
    rewrite Hp, Hh, list_lookup_alter_eq, He. split_and!; try done.
    simpl. by rewrite lookup_app_r, Nat.sub_diag.
  - destruct Hcase as [Hp Hh]. eexists (length (heap w)), _, 0%nat. split_and!.
    + apply map_get_elem; [by destruct Hwf' as [(? & _) _]|].
      rewrite Hp. apply elem_of_app. right. by left.
    + rewrite Hh, lookup_app_r, Nat.sub_diag by done. done.
    + done.
Qed.

End handles.

(** ** Generated identities *)

Section symbols.
Variable scheduler : Scheduler.
Implicit Types (w : World) (l : loc).

Lemma manage_nextSymbol w :
  nextSymbol (manageTimersAndScheduler scheduler w) = nextSymbol w.
Proof.
  unfold manageTimersAndScheduler, clearExistingTimer. simpl.
  by destruct (timer w).
Qed.

Lemma enqueue_entry_nextSymbol k v signal w :
  wf w -> nextSymbol (enqueue_entry scheduler k v signal w).2 = nextSymbol w.
Proof.
  intros [(_ & _ & _ & _ & Hst) _]. unfold enqueue_entry.
  rewrite (createPromiseHandle_spec k signal w Hst).
  destruct (map_get k (pending w)); cbn [snd]; by rewrite manage_nextSymbol.
Qed.

End symbols.

(** * The claims *)

(** Run on the manager, [triggerBatch] snapshots the pending map and resets
    the batch window (map empty, timer handle null, no timeout armed, both
    timestamps cleared) before it calls the processor. It calls the
    processor at most once, only for a non-empty snapshot, with one unit per
    entry of the snapshot, in order. Whatever happens from then on, a
    request enqueued later leaves the entries of the snapshot as they were,
    joins an entry of the new pending map that is none of them, and is not
    settled when the flush in flight resumes. *)
Lemma triggerBatch_snapshots_then_resets
    {CombinedResponse : Type} (resolver : RequestResolver CombinedResponse)
    (scheduler : Scheduler) (w : World) (ops : list (Op (CombinedResponse:=CombinedResponse)))
    (request : EnqueueRequest) (signal : option AbortSignal)
    (result : outcome CombinedResponse) :
  wf w ->
  let r := triggerBatch_begin w in
  (pending r.2 = [] /\ timer r.2 = None /\ timeouts r.2 = [] /\
   firstRequestTime r.2 = None /\ lastRequestTime r.2 = None) /\
  match r.1 with
  | None => pending w = [] /\ calls r.2 = calls w
  | Some (snapshot, units) =>
      pending w <> [] /\ snapshot = map_values (pending w) /\
      calls r.2 = calls w ++ [ProcessorCalled units] /\
      Forall2 (fun x u => exists e, heap w !! x.2 = Some e /\ u = (x.1, payload e))
        (pending w) units /\
      (let later := enqueue scheduler request signal
                      (run resolver scheduler ops (suspend r)) in
       (forall l, l ∈ snapshot -> heap later.2 !! l = heap w !! l) /\
       (exists l e,
          map_get (handle_id later.1) (pending later.2) = Some l /\
          (l ∉ snapshot) /\ heap later.2 !! l = Some e /\
          handle_promise later.1 ∈ entry_promises e) /\
       promises (triggerBatch_resume resolver snapshot result later.2)
         !! handle_promise later.1 = Some Pending)
  end.
Proof.
  intros Hwf. cbv zeta. pose proof Hwf as [Hcore Htimer].
  destruct (begin_fields w) as (_ & Hcalls & E1 & E2 & E3 & E4 & Hh & _ & _ & _ & E8).
  split.
  { split_and!; try done. rewrite E8.
    apply timer_ok_timeouts in Htimer. unfold timeouts_clearable in Htimer.
    by destruct (timer w). }
  destruct (triggerBatch_begin w).1 as [[snapshot units]|] eqn:Hbegin.
  2: { split; [by apply begin_none|]. by rewrite Hcalls, app_nil_r. }
  apply begin_units in Hbegin as (Hne & -> & ->).
  split; [done|]. split; [done|]. split; [done|].
  split; [apply request_list_spec; by destruct Hcore as (_ & ? & _)|].
  pose proof (wf_begin w Hcore (timer_ok_timeouts w Htimer)) as Hwf0.
  set (w0 := suspend (triggerBatch_begin w)) in *.
  set (w1 := run resolver scheduler ops w0).
  pose proof (wf_run resolver scheduler ops w0 Hwf0) as Hwf1. fold w1 in Hwf1.
  pose proof (heap_frame_run resolver scheduler ops w0 Hwf0) as Hfr1. fold w1 in Hfr1.
  assert (heap w0 = heap w /\ pending w0 = []) as [Hh0 Hp0].
  { unfold w0. destruct (triggerBatch_begin w) as [[[s u]|] w2]; by simpl in *. }
  clearbody w1. clearbody w0.
  pose proof (heap_frame_enqueue scheduler request signal w1 Hwf1) as Hfr2.
  pose proof (heap_frame_trans _ _ _ Hfr1 Hfr2) as [_ Hfr].
  assert (forall l, l ∈ map_values (pending w) ->
    heap (enqueue scheduler request signal w1).2 !! l = heap w !! l /\
    l ∉ (pending (enqueue scheduler request signal w1).2).*2) as Hsnap.
  { intros l Hl. rewrite <- Hh0. apply Hfr.
    - rewrite Hh0. destruct (core_ok_entry _ _ _ _ l Hcore) as (e & He & _).
      { apply elem_of_app. by left. }
      by eapply lookup_lt_Some.
    - rewrite Hp0. apply not_elem_of_nil. }
  destruct (enqueue_fields scheduler request signal w1 Hwf1)
    as (Hhd & Hps & _ & _ & _ & _ & _ & _ & _ & _ & Hcase & Hwf2).
  cbv zeta in Hhd, Hps, Hcase, Hwf2.
  set (k := (determine_id request w1).1) in *.
  assert (exists l e,
    map_get k (pending (enqueue scheduler request signal w1).2) = Some l /\
    heap (enqueue scheduler request signal w1).2 !! l = Some e /\
    length (promises w1) ∈ entry_promises e) as (l0 & e0 & Hk0 & Hl0 & Hin0).
  { destruct (map_get k (pending w1)) as [l0|] eqn:Hk.
    - destruct Hcase as [Hp Hhp]. destruct Hwf1 as [Hcore1 _].
      destruct (core_ok_pending _ _ _ _ _ _ Hcore1 Hk) as (e & Hl & _).
      eexists l0, _. split_and!.
      + by rewrite Hp.
      + rewrite Hhp, list_lookup_alter_eq, Hl. done.
      + unfold entry_promises, push_request. simpl. rewrite fmap_app.
        apply elem_of_app. right. by left.
    - destruct Hcase as [Hp Hhp]. eexists (length (heap w1)), _. split_and!.
      + apply map_get_elem; [by destruct Hwf2 as [(? & _) _]|].
        rewrite Hp. apply elem_of_app. right. by left.
      + rewrite Hhp, lookup_app_r, Nat.sub_diag by done. done.
      + by left. }
  split_and!.
  - intros l Hl. by apply Hsnap.
  - exists l0, e0. rewrite Hhd. simpl. split_and!; try done.
    intros Hin. destruct (Hsnap l0 Hin) as [_ Hout]. apply Hout.
    by eapply map_get_loc.
  - rewrite Hhd. simpl. rewrite resume_frame.
    + rewrite Hps. by rewrite lookup_app_r, Nat.sub_diag.
    + intros l e Hl He Hin.
      destruct (Hsnap l Hl) as [Heq _]. rewrite Heq, <- Hh0 in He.
      destruct Hfr1 as [_ Hfr1]. destruct (Hfr1 l) as [Heq1 _].
      { by eapply lookup_lt_Some. }
      { rewrite Hp0. apply not_elem_of_nil. }
      rewrite <- Heq1 in He.
      destruct Hwf1 as [(_ & _ & _ & _ & Hst) _].
      pose proof (store_ok_lt _ _ _ _ _ Hst He Hin). lia.
Qed.

Lemma filter_none {A} (P : A -> Prop) `{forall x, Decision (P x)} (xs : list A) :
  (forall x, x ∈ xs -> ~ P x) -> filter P xs = [].
Proof.
  induction xs as [|x xs IH]; intros Hxs; [done|].
  rewrite filter_cons, decide_False by (apply Hxs; left).
  apply IH. intros y Hy. apply Hxs. by right.
Qed.

Lemma run_never_flushes {CombinedResponse : Type}
    (resolver : RequestResolver CombinedResponse) (scheduler : Scheduler)
    (ops : list Op) (w : World) :
  wf w -> calls w = [] -> awaiting w = [] ->
  calls (run resolver scheduler ops w) = [] /\
  awaiting (run resolver scheduler ops w) = [].
Proof.
  revert w. induction ops as [|op ops IH]; intros w Hwf Hc Ha; [done|].
  simpl. apply IH; [by apply wf_step|..].
  - destruct op as [request signal|i|h reason|signal reason|ms|t|k result];
      simpl; try done.
    + destruct (enqueue_fields scheduler request signal w Hwf) as (_ & _ & _ & E & _).
      cbv zeta in E. by rewrite E.
    + destruct (cancel_quiet i w) as (_ & E & _). by rewrite E.
    + destruct (handle_cancel_quiet h reason w) as (_ & E & _). by rewrite E.
    + destruct (abort_quiet signal reason w) as (_ & E & _). by rewrite E.
    + by destruct (timeout_fires_cases t w) as [->| ->].
    + unfold processor_settles. by rewrite Ha.
  - destruct op as [request signal|i|h reason|signal reason|ms|t|k result];
      simpl; try done.
    + destruct (enqueue_fields scheduler request signal w Hwf) as (_ & _ & E & _).
      cbv zeta in E. by rewrite E.
    + destruct (cancel_quiet i w) as (E & _). by rewrite E.
    + destruct (handle_cancel_quiet h reason w) as (E & _). by rewrite E.
    + destruct (abort_quiet signal reason w) as (E & _). by rewrite E.
    + by destruct (timeout_fires_cases t w) as [->| ->].
    + unfold processor_settles. by rewrite Ha.
Qed.

(** C1. The flush a timer triggers is [triggerBatch] without its receiver,
    which throws before it reads the pending map. In every state a manager
    can reach, a timer that fires takes no snapshot and resets nothing: the
    pending map, the timer handle and both timestamps are what they were,
    and so are the entries and their promises; no flush is in flight, and
    the processor has not been called, then or before. *)
Theorem C1_timer_flush_does_nothing
    {CombinedResponse : Type} (resolver : RequestResolver CombinedResponse)
    (scheduler : Scheduler) (t0 : Z) (ops : list Op) (t : nat) :
  let w := run resolver scheduler ops (init t0) in
  let w' := timeout_fires t w in
  pending w' = pending w /\ timer w' = timer w /\
  firstRequestTime w' = firstRequestTime w /\
  lastRequestTime w' = lastRequestTime w /\
  heap w' = heap w /\ promises w' = promises w /\
  awaiting w' = [] /\ calls w' = [].
Proof.
  cbv zeta.
  destruct (run_never_flushes resolver scheduler ops (init t0) (wf_init t0))
    as [Hc Ha]; [done..|].
  by destruct (timeout_fires_cases t (run resolver scheduler ops (init t0)))
    as [->| ->].
Qed.

(** C2. Enqueuing an identity that is not pending [N >= 1] times gives [N]
    handles with [N] different promises, all waiting, and one entry for the
    identity, which holds the payload of the first request and the [N]
    requests. The next flush passes one unit for the identity to the
    processor, and when the resolution policy returns a value for it, every
    one of the handles is fulfilled with that value. *)
Theorem C2_same_identity_is_deduplicated
    {CombinedResponse : Type} (resolver : RequestResolver CombinedResponse)
    (scheduler : Scheduler) (w : World) (X : Id)
    (first : EnqueueRequest * option AbortSignal)
    (rest : list (EnqueueRequest * option AbortSignal)) :
  wf w -> map_get X (pending w) = None ->
  Forall (fun x => names X x.1) (first :: rest) ->
  let r := enqueue_all scheduler (first :: rest) w in
  let ps := seq (length (promises w)) (S (length rest)) in
  let v := match first.1 with
           | WithPayload _ (Some p) => p
           | _ => VUndefined
           end in
  handle_promise <$> r.1 = ps /\ Forall (fun h => handle_id h = X) r.1 /\
  NoDup ps /\ Forall (fun p => promises r.2 !! p = Some Pending) ps /\
  pending r.2 = pending w ++ [(X, length (heap w))] /\
  heap r.2 !! length (heap w) =
    Some {| id := X; payload := v; requests := fresh_requests ps |} /\
  exists snapshot units,
    (triggerBatch_begin r.2).1 = Some (snapshot, units) /\
    filter (fun u => u.1 = X) units = [(X, v)] /\
    forall combinedResponse result,
      resolver combinedResponse (X, v) = Returned result ->
      Forall (fun p =>
                promises
                  (triggerBatch_resume resolver snapshot (Returned combinedResponse)
                     (triggerBatch_begin r.2).2) !! p = Some (Fulfilled result))
        ps.
Proof.
  intros Hwf Hk Hnames. cbv zeta.
  change (match first.1 with WithPayload _ (Some p) => p | _ => VUndefined end)
    with (determine_payload first.1).
  apply Forall_cons in Hnames as [Hname Hnames].
  destruct first as [request signal]. simpl in Hname.
  destruct (enqueue_fields scheduler request signal w Hwf)
    as (Hhd & Hps & _ & _ & _ & _ & _ & _ & _ & _ & Hcase & Hwf1).
  cbv zeta in Hhd, Hps, Hcase, Hwf1.
  rewrite (names_determine_id X request w Hname) in Hhd, Hcase.
  rewrite Hk in Hcase. destruct Hcase as [Hp Hh].
  cbn [enqueue_all fst].
  destruct (enqueue scheduler request signal w) as [hd w1]. cbn [fst snd] in *.
  set (e1 := {| id := X; payload := determine_payload request;
                requests := [{| promise := length (promises w); cancelled := false |}] |})
    in *.
  assert (heap w1 !! length (heap w) = Some e1) as Hl1
    by (by rewrite Hh, lookup_app_r, Nat.sub_diag).
  assert (map_get X (pending w1) = Some (length (heap w))) as Hk1.
  { apply map_get_elem; [by destruct Hwf1 as [(? & _) _]|].
    rewrite Hp. apply elem_of_app. right. by left. }
  destruct (enqueue_all_joins scheduler X rest w1 (length (heap w)) e1 Hwf1 Hk1 Hl1 Hnames)
    as (Hwf2 & Hp2 & Hhs & Hids & Hps2 & Hh2).
  cbv zeta in *.
  destruct (enqueue_all scheduler rest w1) as [hds w2]. cbn [fst snd] in *.
  rewrite Hps, length_app in Hhs, Hh2. simpl in Hhs, Hh2.
  rewrite Nat.add_1_r in Hhs, Hh2.
  assert (heap w2 !! length (heap w) =
    Some {| id := X; payload := determine_payload request;
            requests := fresh_requests (seq (length (promises w)) (S (length rest))) |})
    as Hl2.
  { rewrite Hh2. rewrite list_lookup_insert_eq by (by eapply lookup_lt_Some). done. }
  assert (map_get X (pending w2) = Some (length (heap w))) as Hk2 by (by rewrite Hp2).
  assert (Forall (fun p => promises w2 !! p = Some Pending)
    (seq (length (promises w)) (S (length rest)))) as Hpend.
  { rewrite Forall_forall. intros p Hp'. destruct Hwf2 as [Hcore2 _].
    destruct (core_ok_pending _ _ _ _ _ _ Hcore2 Hk2) as (e2 & He2 & _ & _ & Hlive).
    rewrite Hl2 in He2. injection He2 as <-. cbn [requests] in Hlive.
    rewrite Forall_forall in Hlive.
    destruct (Hlive {| promise := p; cancelled := false |}) as [_ Hq]; [|done].
    change ({| promise := p; cancelled := false |}
              ∈ fresh_requests (seq (length (promises w)) (S (length rest)))).
    by apply (list_elem_of_fmap_2 (fun p => {| promise := p; cancelled := false |})). }
  split_and!; try done.
  - rewrite fmap_cons, Hhs, Hhd. done.
  - constructor; [by rewrite Hhd|done].
  - apply NoDup_seq.
  - by rewrite Hp2.
  - exists (map_values (pending w2)),
      (request_list (heap w2) (map_values (pending w2))).
    split_and!.
    + destruct (begin_fields w2) as (-> & _). rewrite Hp2, Hp.
      by destruct (pending w).
    + rewrite Hp2, Hp. unfold map_values.
      rewrite fmap_app, request_list_app, filter_app.
      unfold request_list at 2. simpl. rewrite Hl2. simpl.
      rewrite filter_cons, decide_True by done. rewrite filter_nil.
      rewrite filter_none; [done|].
      intros u Hu Hid.
      assert (u.1 ∈ (request_list (heap w2) (pending w).*2).*1) as Hin
        by (by apply list_elem_of_fmap_2).
      rewrite request_list_ids in Hin.
      * rewrite Hid in Hin. by apply map_get_None in Hk.
      * destruct Hwf2 as [(_ & Hids2 & _) _]. rewrite Hp2, Hp in Hids2.
        by apply Forall_app in Hids2 as [? _].
    + intros combinedResponse result Hres. rewrite Forall_forall. intros p Hp'.
      pose proof (flush_settles resolver w2 X (length (heap w)) _
        {| promise := p; cancelled := false |} (Returned combinedResponse)
        Hwf2 Hk2 Hl2) as Hfs.
      cbn [promise] in Hfs. rewrite Hfs.
      * simpl. unfold entry_outcome, descriptor_of. simpl. by rewrite Hres.
      * by apply (list_elem_of_fmap_2 (fun p => {| promise := p; cancelled := false |})).
Qed.

Lemma C2_witness :
  wf (init 0) /\
  let r := enqueue_all example_scheduler example_same_identity (init 0) in
  handle_promise <$> r.1 = [0; 1; 2]%nat /\
  promises r.2 = [Pending; Pending; Pending] /\
  pending r.2 = [(IdStr "7", 0%nat)] /\
  heap r.2 !! 0%nat =
    Some {| id := IdStr "7"; payload := VStr "first";
            requests := fresh_requests [0; 1; 2]%nat |} /\
  (triggerBatch_begin r.2).1 = Some ([0%nat], [(IdStr "7", VStr "first")]).
Proof.
  assert (wf (init 0)) as Hwf by compute_done.
  split; [exact Hwf|].
  assert (Forall (fun x : EnqueueRequest * option AbortSignal => names (IdStr "7") x.1)
            example_same_identity) as Hnames by compute_done.
  destruct (C2_same_identity_is_deduplicated createKeyResolver example_scheduler
    (init 0) (IdStr "7")
    (WithPayload (Some (IdStr "7")) (Some (VStr "first")), None)
    [(WithPayload (Some (IdStr "7")) (Some (VStr "later")), None);
     (BareId (IdStr "7"), None)] Hwf eq_refl Hnames)
    as (Hhs & _ & _ & _ & Hp & Hh & _).
  split_and!; [exact Hhs|reflexivity|exact Hp|exact Hh|reflexivity].
Defined.

(** C4. When the batch-processing function fails, every handle of the flush
    that is not cancelled is rejected with that very failure, handles marked
    cancelled keep the state they had, no other promise is touched, and the
    resolution policy is not called. *)
Theorem C4_processor_failure_is_batch_wide
    {CombinedResponse : Type} (resolver : RequestResolver CombinedResponse)
    (w : World) (snapshot : list loc) (error : value) :
  snapshot_ok w snapshot ->
  let w' := triggerBatch_resume resolver snapshot (Thrown error) w in
  (forall l e r, l ∈ snapshot -> heap w !! l = Some e -> r ∈ requests e ->
     promises w' !! promise r =
       if cancelled r then promises w !! promise r else Some (Rejected error)) /\
  (forall q,
     (forall l e, l ∈ snapshot -> heap w !! l = Some e -> q ∉ entry_promises e) ->
     promises w' !! q = promises w !! q) /\
  calls w' = calls w.
Proof.
  intros Hok. cbv zeta. split_and!.
  - intros l e r Hl He Hr.
    by rewrite (resume_settles resolver snapshot (Thrown error) w l e r).
  - intros q Hq. by apply resume_frame.
  - destruct (resume_fields resolver snapshot (Thrown error) w) as (_ & _ & ->).
    simpl. by rewrite app_nil_r.
Qed.

Lemma C4_witness :
  snapshot_ok (example_in_flight (IdStr "1")) [0%nat] /\
  let w' := triggerBatch_resume createKeyResolver [0%nat]
              (Thrown (VError "Error" "Processor error"))
              (example_in_flight (IdStr "1")) in
  promises w' !! 1%nat = Some (Rejected (VError "Error" "Processor error")) /\
  promises w' !! 0%nat = Some (Rejected BatchCancellationError) /\
  calls w' = [].
Proof.
  assert (snapshot_ok (example_in_flight (IdStr "1")) [0%nat]) as Hok
    by compute_done.
  split; [exact Hok|].
  destruct (C4_processor_failure_is_batch_wide createKeyResolver
    (example_in_flight (IdStr "1")) [0%nat] (VError "Error" "Processor error") Hok)
    as (Hreq & _ & Hcalls).
  split_and!.
  - apply (Hreq 0%nat (example_entry (IdStr "1"))
             {| promise := 1; cancelled := false |});
      [by left|done|by right; left].
  - apply (Hreq 0%nat (example_entry (IdStr "1"))
             {| promise := 0; cancelled := true |});
      [by left|done|by left].
  - exact Hcalls.
Defined.

(** C9. When the resolution policy throws for an entry of a successful flush,
    the handles of that entry that are not cancelled are rejected with the
    thrown value unless that value is [undefined]; they are then fulfilled
    with [undefined]. *)
Theorem C9_thrown_undefined_counts_as_no_failure
    {CombinedResponse : Type} (resolver : RequestResolver CombinedResponse)
    (w : World) (snapshot : list loc) (combinedResponse : CombinedResponse)
    (l : loc) (e : Entry) (r : Request) (err : value) :
  snapshot_ok w snapshot -> l ∈ snapshot -> heap w !! l = Some e ->
  r ∈ requests e -> cancelled r = false ->
  resolver combinedResponse (descriptor_of e) = Thrown err ->
  promises (triggerBatch_resume resolver snapshot (Returned combinedResponse) w)
    !! promise r =
    Some (if is_undefined err then Fulfilled VUndefined else Rejected err).
Proof.
  intros Hok Hl He Hr Hc Hthrow.
  rewrite (resume_settles resolver snapshot _ w l e r Hok Hl He Hr), Hc.
  simpl. unfold entry_outcome, entry_settlement. rewrite Hthrow.
  by destruct (is_undefined err).
Qed.

Lemma C9_witness :
  snapshot_ok (example_in_flight (IdStr "1")) [0%nat] /\
  promises (triggerBatch_resume throws_undefined [0%nat] (Returned tt)
              (example_in_flight (IdStr "1"))) !! 1%nat =
    Some (Fulfilled VUndefined).
Proof.
  assert (snapshot_ok (example_in_flight (IdStr "1")) [0%nat]) as Hok
    by compute_done.
  split; [exact Hok|].
  apply (C9_thrown_undefined_counts_as_no_failure throws_undefined
    (example_in_flight (IdStr "1")) [0%nat] tt 0%nat (example_entry (IdStr "1"))
    {| promise := 1; cancelled := false |} VUndefined Hok);
    [by left|done|by right; left|done|done].
Defined.




(** C3, at the input where it fails: a first request enqueued with a signal
    that has already aborted stays in the batch, its promise pending. *)
Theorem C3_aborted_signal_is_ignored :
  let r := enqueue example_scheduler (BareId (IdStr "1")) (Some example_aborted)
             (init 0) in
  r.1 = {| handle_id := IdStr "1"; handle_promise := 0 |} /\
  promises r.2 !! 0%nat = Some Pending /\
  pending r.2 = [(IdStr "1", 0%nat)] /\
  heap r.2 !! 0%nat =
    Some {| id := IdStr "1"; payload := VUndefined;
            requests := [{| promise := 0; cancelled := false |}] |} /\
  timer r.2 = Some 1%nat.
Proof. by split_and!. Qed.

(** C6. Cancelling the whole batch rejects every pending handle with a
    [BatchCancellationError], leaves promises that were settled as they are,
    and leaves the manager with an empty pending map, no timer, no armed
    timeout and no timestamps, so that the next enqueue records its own time
    as the start of the window. *)
Theorem C6_cancel_all_resets_the_window
    (scheduler : Scheduler) (w : World)
    (request : EnqueueRequest) (signal : option AbortSignal) :
  wf w ->
  let w' := cancel None w in
  (forall X l e r, map_get X (pending w) = Some l -> heap w !! l = Some e ->
     r ∈ requests e ->
     promises w !! promise r = Some Pending /\
     promises w' !! promise r = Some (Rejected BatchCancellationError)) /\
  (forall q, promises w !! q <> Some Pending -> promises w' !! q = promises w !! q) /\
  pending w' = [] /\ timer w' = None /\ timeouts w' = [] /\
  firstRequestTime w' = None /\ lastRequestTime w' = None /\
  firstRequestTime (enqueue scheduler request signal w').2 = Some (clock w).
Proof.
  intros Hwf. cbv zeta. pose proof (wf_cancel None w Hwf) as Hwf'.
  pose proof Hwf as [Hcore Htimer].
  unfold cancel in *.
  destruct (reset_fields (foldl cancel_entry w (map_values (pending w))))
    as (E1 & E2 & E3 & E4 & _ & E6 & _ & _ & E9 & E10).
  pose proof (foldl_cancel_entry_same (map_values (pending w)) w)
    as (_ & Ht & Hts & _ & _ & _ & _ & Hclk & _).
  rewrite E1, E2, E3, E4, E6, E10.
  split_and!; try done.
  - intros X l e r Hk Hl Hr.
    destruct (core_ok_pending _ _ _ _ _ _ Hcore Hk) as (e0 & ? & _ & _ & Hlive).
    simplify_eq. rewrite Forall_forall in Hlive. destruct (Hlive r Hr) as [Hc Hp].
    split; [done|].
    rewrite (cancel_entries_rejects _ w l e r); try done; [by rewrite Hp| |].
    + destruct Hcore as (_ & _ & Hnd & _). by apply NoDup_app in Hnd as (? & _).
    + apply list_elem_of_fmap. exists (X, l). split; [done|].
      by apply map_get_Some_elem.
  - intros q Hq.
    destruct (cancel_entries_promises (map_values (pending w)) w q) as [->| ->];
      [done|]. by destruct (promises w !! q) as [[]|].
  - rewrite Ht, Hts. apply timer_ok_timeouts in Htimer.
    unfold timeouts_clearable in Htimer. by destruct (timer w).
  - destruct (enqueue_fields scheduler request signal _ Hwf')
      as (_ & _ & _ & _ & _ & _ & -> & _).
    by rewrite E3, E9, Hclk.
Qed.

Lemma C6_witness :
  wf example_pending /\
  let w' := cancel None example_pending in
  promises w' = [Rejected BatchCancellationError; Rejected BatchCancellationError;
                 Rejected BatchCancellationError] /\
  pending w' = [] /\ timeouts w' = [] /\
  firstRequestTime
    (enqueue example_scheduler (BareId (IdStr "3")) None w').2 = Some 0.
Proof.
  assert (wf example_pending) as Hwf by compute_done.
  split; [exact Hwf|].
  destruct (C6_cancel_all_resets_the_window example_scheduler example_pending
    (BareId (IdStr "3")) None Hwf) as (_ & _ & Hp & _ & Hts & _ & _ & Hfirst).
  split_and!; [reflexivity|exact Hp|exact Hts|exact Hfirst].
Defined.

(** C7. Cancelling one handle rejects the promise of that handle alone, with
    the reason given or else a [BatchCancellationError], and removes its
    request alone from the entry. While requests remain, the entry stays in
    the pending map with the remaining requests, which still wait and receive
    the result of the next flush; when none remains, the identity leaves the
    pending map and is not among the units the next flush passes to the
    processor. *)
Theorem C7_handle_cancel_is_local
    {CombinedResponse : Type} (resolver : RequestResolver CombinedResponse)
    (w : World) (X : Id) (l : loc) (e : Entry) (idx : nat) (req : Request)
    (reason : value) :
  wf w -> map_get X (pending w) = Some l -> heap w !! l = Some e ->
  requests e !! idx = Some req ->
  let w' := handle_cancel {| handle_id := X; handle_promise := promise req |}
              reason w in
  let siblings := delete idx (requests e) in
  promises w !! promise req = Some Pending /\
  promises w' !! promise req =
    Some (Rejected match reason with
                   | VUndefined | VNull => BatchCancellationError
                   | _ => reason
                   end) /\
  (forall q, q <> promise req -> promises w' !! q = promises w !! q) /\
  heap w' !! l = Some (with_requests e siblings) /\
  (forall l', l' <> l -> heap w' !! l' = heap w !! l') /\
  (siblings <> [] ->
   pending w' = pending w /\
   Forall (fun r => cancelled r = false /\ promises w' !! promise r = Some Pending)
     siblings /\
   forall combinedResponse v,
     resolver combinedResponse (X, payload e) = Returned v ->
     Forall (fun r =>
               promises
                 (triggerBatch_resume resolver (map_values (pending w'))
                    (Returned combinedResponse) (triggerBatch_begin w').2)
                 !! promise r = Some (Fulfilled v))
       siblings) /\
  (siblings = [] ->
   pending w' = map_delete X (pending w) /\ map_get X (pending w') = None /\
   forall snapshot units,
     (triggerBatch_begin w').1 = Some (snapshot, units) -> X ∉ units.*1).
Proof.
  intros Hwf Hk Hl Hidx. cbv zeta.
  change (match reason with
          | VUndefined | VNull => BatchCancellationError
          | _ => reason
          end) with (nullish_or reason BatchCancellationError).
  pose proof (wf_handle_cancel {| handle_id := X; handle_promise := promise req |}
    reason w Hwf) as Hwf'.
  destruct (handle_cancel_fields X reason w l e idx req Hwf Hk Hl Hidx)
    as (Hp & Hpend & Hh & Hm & _).
  pose proof (lookup_lt_Some _ _ _ Hpend) as Hlt.
  pose proof (lookup_lt_Some _ _ _ Hl) as Hltl.
  assert (id e = X) as Hid.
  { destruct Hwf as [Hcore _].
    destruct (core_ok_pending _ _ _ _ _ _ Hcore Hk) as (e0 & ? & ? & _).
    by simplify_eq. }
  assert (heap
    (handle_cancel {| handle_id := X; handle_promise := promise req |} reason w)
      !! l = Some (with_requests e (delete idx (requests e)))) as Hl'
    by (rewrite Hh; by apply list_lookup_insert_eq).
  split_and!; try done.
  - rewrite Hp. by apply list_lookup_insert_eq.
  - intros q Hq. rewrite Hp. by apply list_lookup_insert_ne.
  - intros l' Hne. rewrite Hh. by apply list_lookup_insert_ne.
  - intros Hne.
    assert (pending
      (handle_cancel {| handle_id := X; handle_promise := promise req |} reason w)
        = pending w) as Hm' by (rewrite Hm; by destruct (delete idx (requests e))).
    assert (Forall
      (fun r => cancelled r = false /\
         promises
           (handle_cancel {| handle_id := X; handle_promise := promise req |}
              reason w) !! promise r = Some Pending)
      (delete idx (requests e))) as Hsib.
    { destruct Hwf' as [Hcore' _].
      destruct (core_ok_pending _ _ _ _ X l Hcore') as (e' & He' & _ & _ & Hlive).
      { by rewrite Hm'. }
      rewrite Hl' in He'. by simplify_eq. }
    split_and!; try done.
    intros combinedResponse v Hv. rewrite Forall_forall. intros r Hr.
    rewrite (flush_settles resolver _ X l (with_requests e (delete idx (requests e))) r);
      [|done|by rewrite Hm'|done|done].
    simpl. unfold entry_outcome, descriptor_of. simpl. rewrite Hid.
    by rewrite Hv.
  - intros Hnil. rewrite Hnil in Hm. split_and!; [done|..].
    + rewrite Hm. apply map_get_delete.
    + intros snapshot units Hbegin.
      apply begin_units in Hbegin as (_ & _ & ->).
      destruct Hwf' as [(_ & Hids & _) _].
      rewrite request_list_ids by done. rewrite Hm.
      apply map_get_None, map_get_delete.
Qed.

Lemma C7_witness :
  wf example_pending /\
  let w' := handle_cancel {| handle_id := IdStr "1"; handle_promise := 0 |}
              (VStr "stop") example_pending in
  promises w' = [Rejected (VStr "stop"); Pending; Pending] /\
  promises w' !! 0%nat = Some (Rejected (VStr "stop")) /\
  heap w' !! 0%nat =
    Some {| id := IdStr "1"; payload := VUndefined;
            requests := [{| promise := 1; cancelled := false |}] |} /\
  pending w' = pending example_pending.
Proof.
  assert (wf example_pending) as Hwf by compute_done.
  split; [exact Hwf|].
  destruct (C7_handle_cancel_is_local createKeyResolver example_pending
    (IdStr "1") 0%nat
    {| id := IdStr "1"; payload := VUndefined;
       requests := [{| promise := 0; cancelled := false |};
                    {| promise := 1; cancelled := false |}] |}
    0%nat {| promise := 0; cancelled := false |} (VStr "stop") Hwf eq_refl eq_refl eq_refl)
    as (_ & Hrej & _ & Hh & _ & Hsib & _).
  split_and!; [reflexivity|exact Hrej|exact Hh|].
  by destruct Hsib as (Hm & _).
Defined.

(** C10 as stated fails: on a response that is [undefined] or [null] the
    two policies throw, and the handles of the flush are rejected; on a
    plain object the key-lookup policy returns what [Object.prototype]
    holds under an identity that is no key of the object. *)
Lemma C10_nullish_response_and_inherited_key :
  createKeyResolver Undefined (IdStr "1", VUndefined) = Thrown VTypeError /\
  createArrayIndexResolver Null (IdNum 0, VUndefined) = Thrown VTypeError /\
  promises
    (triggerBatch_resume createKeyResolver [0%nat; 1%nat] (Returned Undefined)
       (suspend (triggerBatch_begin example_pending))) !! 0%nat =
    Some (Rejected VTypeError) /\
  (∅ : gmap PropertyKey value) !! KeyStr "constructor" = None /\
  createKeyResolver (Present (KeyedRecord ∅)) (IdStr "constructor", VUndefined) =
    Returned (VBuiltin "constructor").
Proof. split_and!; reflexivity. Qed.

(** C10, amended. On a response that is a Map, a plain object or an array
    the key-lookup and array-index policies return for every request; where
    the identity (a safe integer when it is a number) is no key of the Map,
    no property of the object, own or inherited, or no index of the array,
    they return [undefined], and the handles of the entry that are not
    cancelled are fulfilled with [undefined]. On a response that is
    [undefined] or [null] both throw a [TypeError], and the handles are
    rejected with it. *)
Theorem C10_lookup_policies_on_a_response
    (keyed : Keyed) (elems : list value) (request : descriptor) (n : Z)
    (w : World) (snapshot : list loc) (l : loc) (e : Entry) (r : Request) :
  snapshot_ok w snapshot -> l ∈ snapshot -> heap w !! l = Some e ->
  r ∈ requests e -> cancelled r = false ->
  (exists v, createKeyResolver (Present keyed) request = Returned v) /\
  (exists v,
     createArrayIndexResolver (Present elems) (IdNum n, request.2) = Returned v) /\
  (safe_id request.1 -> key_absent keyed request.1 ->
   createKeyResolver (Present keyed) request = Returned VUndefined) /\
  (~ (0 <= n < Z.of_nat (length elems)) ->
   createArrayIndexResolver (Present elems) (IdNum n, request.2) =
     Returned VUndefined) /\
  (safe_id (id e) -> key_absent keyed (id e) ->
   promises
     (triggerBatch_resume createKeyResolver snapshot (Returned (Present keyed)) w)
     !! promise r = Some (Fulfilled VUndefined)) /\
  (id e = IdNum n -> ~ (0 <= n < Z.of_nat (length elems)) ->
   promises
     (triggerBatch_resume createArrayIndexResolver snapshot
        (Returned (Present elems)) w)
     !! promise r = Some (Fulfilled VUndefined)) /\
  (forall (keys : nullable Keyed) (array : nullable (list value)),
     (keys = Undefined \/ keys = Null) -> (array = Undefined \/ array = Null) ->
     createKeyResolver keys request = Thrown VTypeError /\
     createArrayIndexResolver array request = Thrown VTypeError /\
     promises (triggerBatch_resume createKeyResolver snapshot (Returned keys) w)
       !! promise r = Some (Rejected VTypeError) /\
     promises
       (triggerBatch_resume createArrayIndexResolver snapshot (Returned array) w)
       !! promise r = Some (Rejected VTypeError)).
Proof.
  intros Hok Hl He Hr Hc.
  assert (forall i, key_absent keyed i ->
    forall v, createKeyResolver (Present keyed) (i, v) = Returned VUndefined) as Hkey.
  { intros i Habs v. unfold createKeyResolver, key_absent, record_get in *. simpl.
    destruct keyed; [by rewrite Habs|]. destruct Habs as [-> ->]. done. }
  assert (forall v, ~ (0 <= n < Z.of_nat (length elems)) ->
    createArrayIndexResolver (Present elems) (IdNum n, v) = Returned VUndefined)
    as Harr.
  { intros v Hout. unfold createArrayIndexResolver, array_index, array_get. simpl.
    case_bool_decide; [|done].
    rewrite lookup_ge_None_2; [done|]. lia. }
  split_and!.
  - unfold createKeyResolver. destruct keyed; by eexists.
  - by eexists.
  - destruct request as [i v]. intros _ Habs. by apply Hkey.
  - by apply Harr.
  - intros _ Habs.
    rewrite (resume_settles createKeyResolver snapshot _ w l e r Hok Hl He Hr), Hc.
    simpl. unfold entry_outcome, descriptor_of. by rewrite (Hkey _ Habs).
  - intros Hid Hout.
    rewrite (resume_settles createArrayIndexResolver snapshot _ w l e r Hok Hl He Hr), Hc.
    simpl. unfold entry_outcome, descriptor_of. by rewrite Hid, (Harr _ Hout).
  - intros keys array Hk Ha.
    rewrite (resume_settles createKeyResolver snapshot _ w l e r Hok Hl He Hr), Hc.
    rewrite (resume_settles createArrayIndexResolver snapshot _ w l e r Hok Hl He Hr), Hc.
    simpl. unfold entry_outcome.
    destruct Hk as [-> | ->], Ha as [-> | ->]; by split_and!.
Qed.

Lemma C10_witness :
  snapshot_ok (example_in_flight (IdNum 2)) [0%nat] /\
  createKeyResolver example_record (IdNum 2, VUndefined) = Returned VUndefined /\
  createArrayIndexResolver example_array (IdNum 2, VUndefined) = Returned VUndefined /\
  promises (triggerBatch_resume createKeyResolver [0%nat] (Returned example_record)
              (example_in_flight (IdNum 2))) !! 1%nat = Some (Fulfilled VUndefined) /\
  promises (triggerBatch_resume createArrayIndexResolver [0%nat] (Returned example_array)
              (example_in_flight (IdNum 2))) !! 1%nat = Some (Fulfilled VUndefined).
Proof.
  assert (snapshot_ok (example_in_flight (IdNum 2)) [0%nat]) as Hok
    by compute_done.
  split; [exact Hok|].
  destruct (C10_lookup_policies_on_a_response
    (KeyedRecord {[ KeyStr "1" := VObject [("value", VStr "a")] ]})
    [VObject [("value", VStr "a")]; VObject [("value", VStr "b")]]
    (IdNum 2, VUndefined) 2 (example_in_flight (IdNum 2)) [0%nat] 0%nat
    (example_entry (IdNum 2)) {| promise := 1; cancelled := false |} Hok)
    as (_ & _ & Hkey & Harr & Hfk & Hfa & _);
    [by left|done|by right; left|done|].
  split_and!.
  - apply Hkey; compute_done.
  - apply Harr. simpl. lia.
  - apply Hfk; compute_done.
  - apply Hfa; [done|simpl; lia].
Defined.

(** C8, at the input where it fails: under the debounced policy with
    [delayMs = 1000] and [maxWaitMs = 5000] the first enqueue arms the timer
    for the delay the policy returns, 1000 ms; the timer fires, and 6000 ms
    after the first enqueue no flush has occurred: the processor has not
    been called, the request is pending, and no timeout is armed. *)
Theorem C8_no_flush_within_the_max_wait :
  let armed := (enqueue example_debounced (BareId (IdStr "1")) None (init 0)).2 in
  let w :=
    run createKeyResolver example_debounced
      [OpEnqueue (BareId (IdStr "1")) None; OpTick 1000; OpTimeout 1; OpTick 5000]
      (init 0) in
  createDebouncedScheduler 1000 5000 None 0 0 0 1 = 1000 /\
  timeouts armed = [(1%nat, 1000)] /\
  firstRequestTime w = Some 0 /\ clock w = 6000 /\
  calls w = [] /\ timeouts w = [] /\ timer w = Some 1%nat /\
  pending w = [(IdStr "1", 0%nat)] /\ promises w !! 0%nat = Some Pending.
Proof. cbv zeta. split_and!; reflexivity. Qed.

(** * Further properties of the code *)

(** X1. In every state a manager can reach at most one timeout is armed,
    and it is the one the manager refers to in [timer]. The manager refers
    to a timer exactly while requests are pending, which is exactly while
    the two window timestamps are set; with nothing pending nothing is
    armed. *)
Theorem X1_one_timer_per_window
    {CombinedResponse : Type} (resolver : RequestResolver CombinedResponse)
    (scheduler : Scheduler) (t0 : Z) (ops : list Op) :
  let w := run resolver scheduler ops (init t0) in
  (length (timeouts w) <= 1)%nat /\
  (forall t due, (t, due) ∈ timeouts w -> timer w = Some t) /\
  (pending w = [] <-> timer w = None) /\
  (pending w = [] <-> firstRequestTime w = None) /\
  (pending w = [] <-> lastRequestTime w = None) /\
  (pending w = [] -> timeouts w = []).
Proof.
  cbv zeta. destruct (reachable_wf resolver scheduler t0 ops) as [_ Ht].
  set (w := run resolver scheduler ops (init t0)) in *. clearbody w.
  unfold timer_ok in Ht. destruct (timer w) as [t|] eqn:Et.
  - destruct Ht as (Hp & Hts & Hfl).
    destruct (firstRequestTime w), (lastRequestTime w); try done.
    split_and!; try (split; done); try done.
    + destruct Hts as [Hts|Hts]; [|rewrite Hts; simpl; lia].
      destruct (timeouts w) as [|x [|y ts]]; simpl; [lia|lia|done].
    + intros t' due Hin.
      destruct Hts as [Hts|Hts]; [|rewrite Hts in Hin; by apply elem_of_nil in Hin].
      f_equal. apply (list_elem_of_fmap_2 fst) in Hin. rewrite Hts in Hin.
      by apply list_elem_of_singleton in Hin.
  - destruct Ht as (Hp & Hts & Hf & Hl). rewrite Hp, Hts, Hf, Hl.
    split_and!; try done; [simpl; lia|].
    intros t due Hin. by apply elem_of_nil in Hin.
Qed.

(** X2. In every state a manager can reach, the keys of the pending map are
    distinct, no two of them share an entry, and no promise is held by two
    requests; every entry is filed under its own identity and holds at least
    one request, none of them cancelled and each still waiting. *)
Theorem X2_pending_entries_are_live
    {CombinedResponse : Type} (resolver : RequestResolver CombinedResponse)
    (scheduler : Scheduler) (t0 : Z) (ops : list Op) :
  let w := run resolver scheduler ops (init t0) in
  NoDup (pending w).*1 /\ NoDup (pending w).*2 /\
  NoDup (heap_promises (heap w)) /\
  forall X l, (X, l) ∈ pending w ->
    exists e, heap w !! l = Some e /\ id e = X /\ requests e <> [] /\
      Forall (fun r => cancelled r = false /\
                       promises w !! promise r = Some Pending) (requests e).
Proof.
  cbv zeta. destruct (reachable_wf resolver scheduler t0 ops) as [Hcore _].
  set (w := run resolver scheduler ops (init t0)) in *. clearbody w.
  destruct Hcore as (Hk & Hid & Hl & Hok & Hnd & _).
  split; [done|]. split; [by apply NoDup_app in Hl as [? _]|]. split; [done|].
  intros X l Hin.
  rewrite Forall_forall in Hid. specialize (Hid _ Hin). simpl in Hid.
  rewrite Forall_forall in Hok. specialize (Hok l).
  unfold entry_ok in Hok. destruct (heap w !! l) as [e|] eqn:He; [|done].
  destruct Hok as [Hne Hlive].
  { apply elem_of_app. left. apply list_elem_of_fmap. by exists (X, l). }
  exists e. split_and!; try done. by injection Hid.
Qed.

(** X3. In every state a manager can reach, the time of the first request
    of the window is not after that of the last, the last is not in the
    future, and the armed timeout is not due before the last request. *)
Theorem X3_window_times_are_ordered
    {CombinedResponse : Type} (resolver : RequestResolver CombinedResponse)
    (scheduler : Scheduler) (t0 : Z) (ops : list Op) :
  let w := run resolver scheduler ops (init t0) in
  forall first last,
    firstRequestTime w = Some first -> lastRequestTime w = Some last ->
    first <= last <= clock w /\
    forall t due, (t, due) ∈ timeouts w -> last <= due.
Proof.
  cbv zeta. intros first last Hf Hl.
  destruct (times_ok_run resolver scheduler ops (init t0)) with first last
    as [? Hts]; try done.
  { apply wf_init. }
  split; [done|]. intros t due Hin.
  rewrite Forall_forall in Hts. by apply (Hts (t, due)).
Qed.

Lemma X3_witness :
  firstRequestTime example_debounced_run = Some 0 /\
  lastRequestTime example_debounced_run = Some 4500 /\
  0 <= 4500 <= clock example_debounced_run.
Proof.
  split; [reflexivity|]. split; [reflexivity|].
  apply (X3_window_times_are_ordered createKeyResolver example_debounced 0
           [OpEnqueue (BareId (IdStr "1")) None; OpTick 4500;
            OpEnqueue (BareId (IdStr "2")) None] 0 4500); reflexivity.
Defined.

(** X4. Whatever the scheduling policy returns, an enqueue leaves one
    timeout armed, due at the delay the policy returned for the number of
    pending identities, clamped to zero from below, and replaced by 1 ms
    when the runtime cannot hold it; hence no earlier than now. The identity
    of the request is pending, and a timer fired before it is due does
    nothing. *)
Theorem X4_enqueue_arms_one_clamped_timer
    (scheduler : Scheduler) (request : EnqueueRequest)
    (signal : option AbortSignal) (w : World) (c : Z) :
  wf w ->
  let r := enqueue scheduler request signal w in
  let start := default (clock w) (firstRequestTime w) in
  let delay :=
    Z.max 0 (scheduler (clock w) start (clock w)
               (Z.of_nat (length (pending r.2)))) in
  exists t due,
    timer r.2 = Some t /\ timeouts r.2 = [(t, due)] /\
    due = clock w + (if bool_decide (delay <= 2147483647) then delay else 1) /\
    clock w <= due /\
    handle_id r.1 ∈ (pending r.2).*1 /\
    (c < due -> timeout_fires t (set_clock c r.2) = set_clock c r.2).
Proof.
  intros Hwf. cbv zeta.
  pose proof (enqueue_pending scheduler request signal w Hwf) as Hin.
  destruct (enqueue_fields scheduler request signal w Hwf)
    as (_ & _ & _ & _ & _ & _ & _ & _ & Ht & Hts & _).
  cbv zeta in *.
  set (r := enqueue scheduler request signal w) in *. clearbody r.
  eexists _, _. split; [exact Ht|]. split; [exact Hts|]. split; [done|].
  split.
  { unfold timer_delay, TIMEOUT_MAX. case_bool_decide; lia. }
  split; [done|].
  intros Hlt. by eapply timeout_fires_early.
Qed.

Lemma X4_witness :
  wf (init 0) /\
  exists t,
    timeouts (enqueue (fun _ _ _ _ => 2 ^ 31) (BareId (IdStr "1")) None (init 0)).2 =
      [(t, 1)].
Proof.
  assert (wf (init 0)) as Hwf by compute_done.
  split; [exact Hwf|].
  destruct (X4_enqueue_arms_one_clamped_timer (fun _ _ _ _ => 2 ^ 31)
              (BareId (IdStr "1")) None (init 0) 0 Hwf)
    as (t & due & _ & Hts & Hdue & _).
  exists t. rewrite Hts, Hdue. reflexivity.
Defined.

(** X5. Under the fixed-window policy, with a window the timers of the
    runtime can hold and clock readings that are safe integers, the flush of
    a window is due [windowMs] after the first enqueue of the window, and an
    enqueue within the window leaves that time as it is; once the number of
    pending identities has reached a configured maximum the flush is due at
    once. *)
Theorem X5_fixed_window_keeps_its_deadline
    (windowMs : Z) (maxBatchSize : option Z) (request : EnqueueRequest)
    (signal : option AbortSignal) (w : World) :
  wf w ->
  let scheduler := createFixedWindowScheduler windowMs maxBatchSize in
  let w' := (enqueue scheduler request signal w).2 in
  let start := default (clock w) (firstRequestTime w) in
  let full := size_reached maxBatchSize (Z.of_nat (length (pending w'))) in
  0 <= windowMs <= 2147483647 -> 0 <= start -> safe_integer (clock w) ->
  exists t due,
    timer w' = Some t /\ timeouts w' = [(t, due)] /\
    firstRequestTime w' = Some start /\
    due = (if full then clock w else Z.max (clock w) (start + windowMs)) /\
    (full = false -> clock w <= start + windowMs -> due = start + windowMs) /\
    (full = false -> firstRequestTime w = None -> due = clock w + windowMs).
Proof.
  intros Hwf. cbv zeta. intros Hwin Hstart Hsafe.
  pose proof Hwf as [_ Htimer]. pose proof (timer_ok_first w Htimer) as Hfirst.
  destruct (enqueue_fields (createFixedWindowScheduler windowMs maxBatchSize)
              request signal w Hwf)
    as (_ & _ & _ & _ & _ & _ & Hf & _ & Ht & Hts & _).
  cbv zeta in *.
  eexists _, _. split; [exact Ht|]. split; [exact Hts|]. split; [exact Hf|].
  set (size := Z.of_nat (length (pending _))). clearbody size.
  unfold createFixedWindowScheduler. cbv beta zeta.
  destruct (size_reached maxBatchSize size).
  - rewrite timer_delay_small by (unfold TIMEOUT_MAX; lia).
    split; [lia|]. split; congruence.
  - rewrite timer_delay_small by (unfold TIMEOUT_MAX; lia).
    split; [lia|]. split; [lia|]. intros _ ->. simpl. lia.
Qed.

Lemma X5_witness :
  wf example_pending /\
  exists t,
    timeouts (enqueue (createFixedWindowScheduler 1000 None)
                (BareId (IdStr "3")) None example_pending).2 = [(t, 1000)].
Proof.
  assert (wf example_pending) as Hwf by compute_done.
  split; [exact Hwf|].
  destruct (X5_fixed_window_keeps_its_deadline 1000 None (BareId (IdStr "3")) None
              example_pending Hwf)
    as (t & due & _ & Hts & _ & _ & Hkeep & _).
  - lia.
  - vm_compute. discriminate.
  - unfold safe_integer. vm_compute. split; reflexivity.
  - exists t. rewrite Hts. rewrite Hkeep.
    + reflexivity.
    + reflexivity.
    + vm_compute. discriminate.
Defined.

(** X6. A manager constructed without a scheduling policy flushes a window
    10 000 ms after its first enqueue, however many requests join it. *)
Theorem X6_default_policy_is_a_ten_second_window
    (request : EnqueueRequest) (signal : option AbortSignal) (w : World) :
  wf w ->
  let w' := (enqueue (scheduler_option None) request signal w).2 in
  let start := default (clock w) (firstRequestTime w) in
  timeouts w' = [(nextTimeout w, Z.max (clock w) (start + 10000))] /\
  (firstRequestTime w = None -> timeouts w' = [(nextTimeout w, clock w + 10000)]).
Proof.
  intros Hwf. cbv zeta.
  destruct (enqueue_fields (scheduler_option None) request signal w Hwf)
    as (_ & _ & _ & _ & _ & _ & _ & _ & _ & Hts & _).
  cbv zeta in Hts. rewrite Hts.
  pose proof Hwf as [_ Htimer]. pose proof (timer_ok_first w Htimer) as Hfirst.
  set (size := Z.of_nat (length (pending _))). clearbody size.
  unfold scheduler_option, createFixedWindowScheduler. simpl.
  rewrite timer_delay_small by (unfold TIMEOUT_MAX; lia).
  split; [|intros ->; simpl]; do 2 f_equal; lia.
Qed.

Lemma X6_witness :
  wf (init 7) /\
  timeouts (enqueue (scheduler_option None) (BareId (IdStr "1")) None (init 7)).2 =
    [(1%nat, 10007)].
Proof.
  assert (wf (init 7)) as Hwf by compute_done.
  split; [exact Hwf|].
  destruct (X6_default_policy_is_a_ten_second_window (BareId (IdStr "1")) None
              (init 7) Hwf) as [_ H].
  apply H. reflexivity.
Defined.

(** X7. A request object without an id is enqueued under a symbol of its
    own, which is the id of the handle: it opens a new entry with its
    payload, whatever is pending, and joins none; the symbol of the next
    such request is a different one. *)
Theorem X7_request_without_id_opens_an_entry
    (scheduler : Scheduler) (p : option value) (signal : option AbortSignal)
    (w : World) :
  wf w -> symbols_fresh w ->
  let r := enqueue scheduler (WithPayload None p) signal w in
  let X := IdSym (nextSymbol w) in
  handle_id r.1 = X /\ (X ∉ (pending w).*1) /\
  pending r.2 = pending w ++ [(X, length (heap w))] /\
  heap r.2 = heap w ++
    [{| id := X; payload := default VUndefined p;
        requests := [{| promise := handle_promise r.1; cancelled := false |}] |}] /\
  nextSymbol r.2 = S (nextSymbol w) /\ symbols_fresh r.2.
Proof.
  intros Hwf Hfresh. cbv zeta.
  assert (IdSym (nextSymbol w) ∉ (pending w).*1) as Hnew.
  { intros (x & Hx & Hin)%list_elem_of_fmap. unfold symbols_fresh in Hfresh.
    rewrite Forall_forall in Hfresh. specialize (Hfresh x Hin).
    rewrite <- Hx in Hfresh. lia. }
  assert (wf (set_nextSymbol (S (nextSymbol w)) w)) as Hwf0 by done.
  destruct (enqueue_entry_fields scheduler (IdSym (nextSymbol w))
              (determine_payload (WithPayload None p)) signal _ Hwf0)
    as (Hhd & _ & _ & _ & _ & _ & _ & _ & _ & _ & Hcase & _).
  pose proof (enqueue_entry_nextSymbol scheduler (IdSym (nextSymbol w))
                (determine_payload (WithPayload None p)) signal _ Hwf0) as Hnext.
  rewrite enqueue_unfold. cbn [determine_id fst snd] in *.
  set (r := enqueue_entry _ _ _ _ _) in *. clearbody r.
  cbv zeta in Hhd, Hcase. simpl in Hhd, Hcase, Hnext.
  apply map_get_None in Hnew. rewrite Hnew in Hcase. destruct Hcase as [Hp Hh].
  rewrite Hhd. simpl. split_and!; try done.
  - by apply map_get_None.
  - unfold symbols_fresh. rewrite Hp, Hnext. apply Forall_app. split.
    + eapply Forall_impl; [exact Hfresh|]. intros [[s|n|k] l0]; simpl; lia.
    + repeat constructor.
Qed.

Lemma X7_witness :
  wf example_pending /\ symbols_fresh example_pending /\
  pending (enqueue example_scheduler (WithPayload None (Some (VStr "a"))) None
             example_pending).2 =
    [(IdStr "1", 0%nat); (IdStr "2", 1%nat); (IdSym 0, 2%nat)].
Proof.
  assert (wf example_pending) as Hwf by compute_done.
  assert (symbols_fresh example_pending) as Hfresh by compute_done.
  split; [exact Hwf|]. split; [exact Hfresh|].
  destruct (X7_request_without_id_opens_an_entry example_scheduler
              (Some (VStr "a")) None example_pending Hwf Hfresh)
    as (_ & _ & Hp & _).
  rewrite Hp. reflexivity.
Defined.

(** X8. [cancel(id)] for an identity that is not pending does nothing. For
    a pending one it rejects every request under it with a
    [BatchCancellationError], touches no other promise and no other entry,
    and removes the identity from the pending map; the timer and the window
    timestamps stay as they are while other identities are pending, and are
    cleared when none is. *)
Theorem X8_cancel_by_identity (w : World) (X : Id) :
  wf w ->
  let w' := cancel (Some X) w in
  match map_get X (pending w) with
  | None => w' = w
  | Some l =>
      exists e, heap w !! l = Some e /\
        (forall r, r ∈ requests e ->
           promises w !! promise r = Some Pending /\
           promises w' !! promise r = Some (Rejected BatchCancellationError)) /\
        (forall q, q ∉ entry_promises e -> promises w' !! q = promises w !! q) /\
        (forall l', l' <> l -> heap w' !! l' = heap w !! l') /\
        pending w' = map_delete X (pending w) /\
        (pending w' <> [] ->
         timer w' = timer w /\ timeouts w' = timeouts w /\
         firstRequestTime w' = firstRequestTime w /\
         lastRequestTime w' = lastRequestTime w) /\
        (pending w' = [] ->
         timer w' = None /\ timeouts w' = [] /\
         firstRequestTime w' = None /\ lastRequestTime w' = None)
  end.
Proof.
  intros Hwf. cbv zeta.
  pose proof (wf_cancel (Some X) w Hwf) as Hwf'.
  destruct (cancel_quiet (Some X) w) as (_ & _ & _ & _ & Hkept).
  destruct (map_get X (pending w)) as [l|] eqn:HX; [|by unfold cancel; rewrite HX].
  pose proof Hwf as [Hcore _].
  destruct (core_ok_pending _ _ _ _ _ _ Hcore HX) as (e & He & _ & _ & Hlive).
  exists e. split; [done|].
  assert (promises (cancel (Some X) w) =
            settle_reqs (Rejected BatchCancellationError) (promises w) (requests e) /\
          heap (cancel (Some X) w) =
            <[l:=with_requests e (mark_cancelled <$> requests e)]> (heap w) /\
          pending (cancel (Some X) w) = map_delete X (pending w)) as (Hs & Hh & Hp).
  { unfold cancel. rewrite HX. cbv zeta. rewrite (cancel_entry_spec w l e He).
    set (w1 := set_pending _ _).
    destruct (reset_if_empty_fields w1) as (-> & -> & ->). done. }
  rewrite Forall_forall in Hlive.
  split_and!.
  - intros r Hr. destruct (Hlive r Hr) as [Hc Hpend]. split; [done|].
    rewrite Hs, settle_reqs_lookup, decide_True, Hpend; [done|].
    unfold live_promises. apply list_elem_of_fmap. exists r. split; [done|].
    by apply list_elem_of_filter.
  - intros q Hq. rewrite Hs, settle_reqs_lookup, decide_False; [done|].
    intros Hin. by apply Hq, live_promises_subseteq.
  - intros l' Hne. rewrite Hh. by apply list_lookup_insert_ne.
  - done.
  - intros Hne. by apply Hkept.
  - intros Hnil. by apply wf_idle.
Qed.

Lemma X8_witness :
  wf example_pending /\
  promises (cancel (Some (IdStr "1")) example_pending) !! 1%nat =
    Some (Rejected BatchCancellationError) /\
  pending (cancel (Some (IdStr "1")) example_pending) = [(IdStr "2", 1%nat)].
Proof.
  assert (wf example_pending) as Hwf by compute_done.
  split; [exact Hwf|].
  pose proof (X8_cancel_by_identity example_pending (IdStr "1") Hwf) as H.
  cbv zeta in H.
  change (map_get (IdStr "1") (pending example_pending)) with (Some 0%nat) in H.
  destruct H as (e & He & Hrej & _ & _ & Hp & _).
  split.
  - injection He as <-.
    destruct (Hrej {| promise := 1; cancelled := false |}) as [_ Hr].
    + right. left.
    + exact Hr.
  - rewrite Hp. reflexivity.
Defined.

(** X9. Cancelling a handle a second time does nothing, whatever the two
    reasons given. *)
Theorem X9_handle_cancel_is_idempotent
    (h : Handle) (reason reason' : value) (w : World) :
  wf w ->
  handle_cancel h reason' (handle_cancel h reason w) = handle_cancel h reason w.
Proof.
  intros Hwf. destruct h as [k p]. apply handle_cancel_absent.
  intros l e Hl He.
  by apply (handle_cancel_removes {| handle_id := k; handle_promise := p |}
              reason w l e).
Qed.

Lemma X9_witness :
  wf example_pending /\
  handle_cancel {| handle_id := IdStr "1"; handle_promise := 0 |} VNull
    (handle_cancel {| handle_id := IdStr "1"; handle_promise := 0 |}
       (VStr "stop") example_pending) =
  handle_cancel {| handle_id := IdStr "1"; handle_promise := 0 |}
    (VStr "stop") example_pending.
Proof.
  assert (wf example_pending) as Hwf by compute_done.
  split; [exact Hwf|].
  apply (X9_handle_cancel_is_idempotent
           {| handle_id := IdStr "1"; handle_promise := 0 |}
           (VStr "stop") VNull example_pending Hwf).
Defined.

(** X10. When a signal that had not aborted at the time of the enqueue, and
    that no other request listens to, aborts, its listener is detached and
    the handle is cancelled as by [handle.cancel(signal.reason)]: the promise
    of the handle, which was waiting, is rejected with the reason of the
    signal, or with a [BatchCancellationError] when the reason is nullish,
    and no other promise is touched. *)
Theorem X10_abort_cancels_the_handle
    (scheduler : Scheduler) (request : EnqueueRequest) (s : AbortSignal)
    (reason' : value) (w : World) :
  wf w -> aborted s = false -> signal_ref s ∉ (listeners w).*1 ->
  let r := enqueue scheduler request (Some s) w in
  let w' := abort (signal_ref s) reason' r.2 in
  listeners r.2 = listeners w ++ [(signal_ref s, r.1)] /\
  w' = handle_cancel r.1 reason' (set_listeners (fun _ => listeners w) r.2) /\
  listeners w' = listeners w /\
  promises r.2 !! handle_promise r.1 = Some Pending /\
  promises w' !! handle_promise r.1 =
    Some (Rejected (nullish_or reason' BatchCancellationError)) /\
  (forall q, q <> handle_promise r.1 -> promises w' !! q = promises r.2 !! q).
Proof.
  intros Hwf Hs Hfresh. cbv zeta.
  destruct (enqueue_request_pending scheduler request (Some s) w Hwf)
    as (l & e & idx & Hl & He & Hidx).
  destruct (enqueue_fields scheduler request (Some s) w Hwf)
    as (Hhd & _ & _ & _ & _ & Hls & _ & _ & _ & _ & _ & Hwf').
  cbv zeta in *. simpl in Hls. rewrite Hs, <- Hhd in Hls.
  set (r := enqueue scheduler request (Some s) w) in *. clearbody r.
  assert (filter (fun x : nat * Handle => x.1 <> signal_ref s) (listeners w) =
            listeners w /\
          filter (fun x : nat * Handle => x.1 = signal_ref s) (listeners w) = [])
    as [Hkeep Hnone].
  { clear -Hfresh. induction (listeners w) as [|x ls IH]; [done|].
    apply not_elem_of_cons in Hfresh as [Hx Hls].
    rewrite !filter_cons. destruct (IH Hls) as [-> ->].
    rewrite decide_True, decide_False by done. done. }
  assert (abort (signal_ref s) reason' r.2 =
            handle_cancel r.1 reason' (set_listeners (fun _ => listeners w) r.2))
    as Habort.
  { unfold abort. cbv zeta. rewrite Hls, filter_app, Hnone.
    rewrite filter_cons, decide_True by done. simpl.
    f_equal. unfold set_listeners. rewrite Hls, filter_app, Hkeep.
    rewrite filter_cons, decide_False by (by intros []). simpl.
    by rewrite app_nil_r. }
  split; [done|]. split; [done|]. rewrite Habort.
  set (w1 := set_listeners (fun _ => listeners w) r.2).
  assert (wf w1) as Hwf1 by done.
  destruct (handle_cancel_quiet r.1 reason' w1) as (_ & _ & _ & Hlis & _).
  split; [by rewrite Hlis|].
  destruct (handle_cancel_fields (handle_id r.1) reason' w1 l e idx _ Hwf1 Hl He Hidx)
    as (Hps & Hpend & _).
  cbv zeta in Hps. simpl in Hps, Hpend.
  replace ({| handle_id := handle_id r.1; handle_promise := handle_promise r.1 |})
    with r.1 in Hps by (by destruct r.1).
  split; [done|]. rewrite Hps. split.
  - apply list_lookup_insert_eq. by eapply lookup_lt_Some.
  - intros q Hq. by apply list_lookup_insert_ne.
Qed.

Lemma X10_witness :
  wf example_pending /\
  promises
    (abort 0 (VStr "gone")
       (enqueue example_scheduler (BareId (IdStr "1")) (Some example_signal)
          example_pending).2) !! 3%nat =
    Some (Rejected (VStr "gone")).
Proof.
  assert (wf example_pending) as Hwf by compute_done.
  split; [exact Hwf|].
  destruct (X10_abort_cancels_the_handle example_scheduler (BareId (IdStr "1"))
              example_signal (VStr "gone") example_pending Hwf eq_refl)
    as (_ & _ & _ & _ & H & _).
  - vm_compute. intros H. inversion H.
  - exact H.
Defined.

(** X11. Nothing but the completion of its processor call settles a request
    of a flush in flight: through any enqueues, cancellations of the batch,
    of an identity or of a handle, aborted signals, clock ticks and timers,
    the flush stays suspended on the same entry and the promise of the
    request stays pending. *)
Theorem X11_in_flight_requests_cannot_be_cancelled
    {CombinedResponse : Type} (resolver : RequestResolver CombinedResponse)
    (scheduler : Scheduler) (w : World) (snapshot : list loc) (l : loc)
    (e : Entry) (r : Request) (ops : list Op) :
  wf w -> snapshot ∈ awaiting w -> l ∈ snapshot -> heap w !! l = Some e ->
  r ∈ requests e -> Forall (fun op => settles op = false) ops ->
  let w' := run resolver scheduler ops w in
  snapshot ∈ awaiting w' /\ heap w' !! l = Some e /\
  promises w' !! promise r = Some Pending.
Proof.
  intros Hwf Hs Hl He Hr Hops. cbv zeta. revert w Hwf Hs He.
  induction Hops as [|op ops Hop Hops IH]; intros w Hwf Hs He; simpl.
  - destruct (wf_in_flight w snapshot l e r) as (_ & ? & _); done.
  - destruct (wf_in_flight w snapshot l e r) as (_ & _ & Hout & Hlt); try done.
    apply IH.
    + by apply wf_step.
    + by apply awaiting_step.
    + destruct (heap_frame_step resolver scheduler op w Hwf) as [_ Hfr].
      destruct (Hfr l Hlt Hout) as [-> _]. done.
Qed.

Lemma X11_witness :
  wf example_flushing /\ awaiting example_flushing = [[0%nat]] /\
  promises (run createKeyResolver example_scheduler example_interference
              example_flushing) !! 0%nat = Some Pending.
Proof.
  assert (wf example_flushing) as Hwf by compute_done.
  split; [exact Hwf|]. split; [reflexivity|].
  apply (X11_in_flight_requests_cannot_be_cancelled createKeyResolver
           example_scheduler example_flushing [0%nat] 0%nat
           {| id := IdStr "1"; payload := VUndefined;
              requests := [{| promise := 0; cancelled := false |}] |}
           {| promise := 0; cancelled := false |} example_interference Hwf).
  - vm_compute. left.
  - left.
  - reflexivity.
  - left.
  - repeat constructor.
Defined.

(** X12. Run on a manager in a well-formed state, [triggerBatch] calls the
    processor only with a non-empty list, which holds every pending
    identity once, in the order of the pending map. *)
Theorem X12_units_are_the_pending_identities
    (w : World) (snapshot : list loc) (units : list descriptor) :
  wf w -> (triggerBatch_begin w).1 = Some (snapshot, units) ->
  units <> [] /\ NoDup units.*1 /\ units.*1 = (pending w).*1 /\
  calls (triggerBatch_begin w).2 = calls w ++ [ProcessorCalled units].
Proof.
  intros [(Hk & Hid & _) _] Hb.
  destruct (begin_fields w) as (_ & Hcalls & _). cbv zeta in Hcalls.
  rewrite Hb in Hcalls.
  apply begin_units in Hb as (Hne & -> & ->).
  assert ((request_list (heap w) (map_values (pending w))).*1 = (pending w).*1)
    as Hids by (by apply request_list_ids).
  split_and!; try done.
  - intros Hnil. rewrite Hnil in Hids. by destruct (pending w).
  - by rewrite Hids.
Qed.

Lemma X12_witness :
  wf example_pending /\
  (triggerBatch_begin example_pending).1 =
    Some ([0%nat; 1%nat], [(IdStr "1", VUndefined); (IdStr "2", VUndefined)]) /\
  NoDup [IdStr "1"; IdStr "2"].
Proof.
  assert (wf example_pending) as Hwf by compute_done.
  split; [exact Hwf|]. split; [reflexivity|].
  destruct (X12_units_are_the_pending_identities example_pending [0%nat; 1%nat]
              [(IdStr "1", VUndefined); (IdStr "2", VUndefined)] Hwf eq_refl)
    as (_ & Hnd & _).
  exact Hnd.
Defined.

(** X13. When the processor call of a flush completes, in success or in
    failure, every request of the flush, waiting until then, is settled, and
    the flush is over. The window that has opened in the meantime is left as
    it is: its pending map, entries, timer and timestamps are unchanged and
    its requests still wait. *)
Theorem X13_completion_settles_the_flush_only
    {CombinedResponse : Type} (resolver : RequestResolver CombinedResponse)
    (w : World) (k : nat) (snapshot : list loc)
    (result : outcome CombinedResponse) :
  wf w -> awaiting w !! k = Some snapshot ->
  let w' := processor_settles resolver k result w in
  awaiting w' = delete k (awaiting w) /\
  (pending w' = pending w /\ heap w' = heap w /\ timer w' = timer w /\
   timeouts w' = timeouts w /\ firstRequestTime w' = firstRequestTime w /\
   lastRequestTime w' = lastRequestTime w) /\
  (forall l e r, l ∈ snapshot -> heap w !! l = Some e -> r ∈ requests e ->
     promises w !! promise r = Some Pending /\
     promises w' !! promise r = Some (flush_outcome resolver result e) /\
     flush_outcome resolver result e <> Pending) /\
  (forall X l e r, map_get X (pending w) = Some l -> heap w !! l = Some e ->
     r ∈ requests e -> promises w' !! promise r = Some Pending).
Proof.
  intros Hwf Hk. cbv zeta. unfold processor_settles. rewrite Hk.
  assert (snapshot ∈ awaiting w) as Hs by (by eapply list_elem_of_lookup_2).
  set (w1 := set_awaiting (delete k) w).
  destruct (resume_fields resolver snapshot result w1)
    as ((Hh & Hp & Ht & Hts & Hf & Hl & Ha & _) & _ & _).
  split; [done|]. split; [by split_and!|]. split.
  - intros l e r Hl' He Hr.
    destruct (wf_in_flight w snapshot l e r) as (Hc & Hpend & _); try done.
    split; [done|]. split; [|apply flush_outcome_settled].
    rewrite (resume_settles resolver snapshot result w1 l e r); try done.
    + by rewrite Hc.
    + by apply (wf_snapshot_ok w).
  - intros X l e r HX He Hr.
    rewrite resume_frame.
    + destruct Hwf as [Hcore _].
      destruct (core_ok_pending _ _ _ _ _ _ Hcore HX) as (e0 & He0 & _ & _ & Hlive).
      simpl. rewrite He in He0. injection He0 as <-.
      rewrite Forall_forall in Hlive. by destruct (Hlive r Hr).
    + intros l' e' Hl' He'. by eapply pending_not_in_flight.
Qed.

Lemma X13_witness :
  wf example_flushing /\ awaiting example_flushing !! 0%nat = Some [0%nat] /\
  promises (processor_settles createKeyResolver 0 (Returned example_record)
              example_flushing) !! 0%nat =
    Some (Fulfilled (VObject [("value", VStr "a")])).
Proof.
  assert (wf example_flushing) as Hwf by compute_done.
  split; [exact Hwf|]. split; [reflexivity|].
  destruct (X13_completion_settles_the_flush_only createKeyResolver
              example_flushing 0 [0%nat] (Returned example_record) Hwf eq_refl)
    as (_ & _ & H & _).
  destruct (H 0%nat
              {| id := IdStr "1"; payload := VUndefined;
                 requests := [{| promise := 0; cancelled := false |}] |}
              {| promise := 0; cancelled := false |})
    as (_ & Hr & _).
  - left.
  - reflexivity.
  - left.
  - exact Hr.
Defined.

(** X14. When the processor of a flush returns, whatever happened to the
    manager in the meantime, the resolution policy is called once per unit
    the processor was called with, in the same order and with the same
    identity and payload; when the processor fails it is not called. *)
Theorem X14_resolver_sees_the_units_of_the_processor
    {CombinedResponse : Type} (resolver : RequestResolver CombinedResponse)
    (scheduler : Scheduler) (w0 : World) (snapshot : list loc)
    (units : list descriptor) (ops : list Op) (k : nat)
    (result : outcome CombinedResponse) :
  wf w0 -> (triggerBatch_begin w0).1 = Some (snapshot, units) ->
  let w := run resolver scheduler ops (suspend (triggerBatch_begin w0)) in
  awaiting w !! k = Some snapshot ->
  calls (processor_settles resolver k result w) =
    calls w ++ match result with
               | Returned _ => ResolverCalled <$> units
               | Thrown _ => []
               end.
Proof.
  intros Hwf0 Hb. cbv zeta. intros Hk.
  pose proof Hwf0 as [Hcore0 Ht0].
  pose proof (wf_begin w0 Hcore0 (timer_ok_timeouts w0 Ht0)) as Hwf1.
  set (w1 := suspend (triggerBatch_begin w0)) in *.
  pose proof (wf_run resolver scheduler ops w1 Hwf1) as Hwf.
  pose proof (heap_frame_run resolver scheduler ops w1 Hwf1) as [_ Hfr].
  assert (heap w1 = heap w0 /\ pending w1 = []) as [Hh1 Hp1].
  { unfold w1. destruct (suspend_fields (triggerBatch_begin w0))
      as (-> & _ & _ & _ & _ & -> & _).
    by destruct (begin_fields w0) as (_ & _ & ? & _ & _ & _ & ? & _). }
  set (w := run resolver scheduler ops w1) in *. clearbody w.
  assert (snapshot ∈ awaiting w) as Hs by (by eapply list_elem_of_lookup_2).
  apply begin_units in Hb as (_ & -> & ->).
  unfold processor_settles. rewrite Hk.
  destruct (resume_fields resolver (map_values (pending w0)) result
              (set_awaiting (delete k) w)) as (_ & _ & ->).
  simpl. f_equal. destruct result as [cr|err]; simpl; [|done].
  rewrite in_flight_resolved by done.
  f_equal. unfold request_list.
  assert (forall l, l ∈ map_values (pending w0) -> heap w !! l = heap w0 !! l) as Heq.
  { intros l Hl. rewrite <- Hh1.
    destruct (core_ok_entry _ _ _ _ l Hcore0) as (e & He & _).
    { apply elem_of_app. by left. }
    apply Hfr; [rewrite Hh1; by eapply lookup_lt_Some|].
    rewrite Hp1. apply not_elem_of_nil. }
  revert Heq. generalize (map_values (pending w0)).
  intros ls. induction ls as [|l ls IH]; intros Heq; [done|].
  simpl. rewrite Heq by left. destruct (heap w0 !! l); simpl.
  - f_equal. apply IH. intros l' Hl'. apply Heq. by right.
  - apply IH. intros l' Hl'. apply Heq. by right.
Qed.

Lemma X14_witness :
  wf example_pending /\
  (triggerBatch_begin example_pending).1 =
    Some ([0%nat; 1%nat], [(IdStr "1", VUndefined); (IdStr "2", VUndefined)]) /\
  let w := run createKeyResolver example_scheduler
             [OpEnqueue (BareId (IdStr "3")) None]
             (suspend (triggerBatch_begin example_pending)) in
  awaiting w !! 0%nat = Some [0%nat; 1%nat] /\
  calls (processor_settles createKeyResolver 0 (Returned example_record) w) =
    calls w ++ [ResolverCalled (IdStr "1", VUndefined);
                ResolverCalled (IdStr "2", VUndefined)].
Proof.
  assert (wf example_pending) as Hwf by compute_done.
  split; [exact Hwf|]. split; [reflexivity|]. split; [reflexivity|].
  apply (X14_resolver_sees_the_units_of_the_processor createKeyResolver
           example_scheduler example_pending [0%nat; 1%nat]
           [(IdStr "1", VUndefined); (IdStr "2", VUndefined)]
           [OpEnqueue (BareId (IdStr "3")) None] 0 (Returned example_record)
           Hwf eq_refl eq_refl).
Defined.

(** X16. A flush whose processor returns settles a pending request, whose
    identity is a safe integer when it is a number, with what the response
    holds for the identity: under the key-lookup policy the value stored
    under it in a Map, or the own property of a plain object under its
    property key; under the array-index policy the element at the index the
    identity is. *)
Theorem X16_reference_policies_deliver
    (w : World) (X : Id) (l : loc) (e : Entry) (r : Request) :
  wf w -> map_get X (pending w) = Some l -> heap w !! l = Some e ->
  r ∈ requests e -> safe_id X ->
  let flush {CombinedResponse : Type} (resolver : RequestResolver CombinedResponse)
        (combinedResponse : CombinedResponse) :=
    promises
      (triggerBatch_resume resolver (map_values (pending w))
         (Returned combinedResponse) (triggerBatch_begin w).2) !! promise r in
  (forall entries v, entries !! X = Some v ->
     flush createKeyResolver (Present (KeyedMap entries)) = Some (Fulfilled v)) /\
  (forall props v, props !! to_property_key X = Some v ->
     flush createKeyResolver (Present (KeyedRecord props)) = Some (Fulfilled v)) /\
  (forall elems n v, X = IdNum n -> 0 <= n -> elems !! Z.to_nat n = Some v ->
     flush createArrayIndexResolver (Present elems) = Some (Fulfilled v)).
Proof.
  intros Hwf HX He Hr _. cbv zeta.
  assert (id e = X) as Hid.
  { destruct Hwf as [Hcore _].
    destruct (core_ok_pending _ _ _ _ _ _ Hcore HX) as (e0 & He0 & ? & _).
    congruence. }
  assert (forall {CR : Type} (resolver : RequestResolver CR) (cr : CR) v,
    resolver cr (X, payload e) = Returned v ->
    promises
      (triggerBatch_resume resolver (map_values (pending w))
         (Returned cr) (triggerBatch_begin w).2) !! promise r =
    Some (Fulfilled v)) as Hflush.
  { intros CR resolver cr v Hres.
    rewrite (flush_settles resolver w X l e r (Returned cr)) by done.
    simpl. unfold entry_outcome, descriptor_of. by rewrite Hid, Hres. }
  split_and!.
  - intros entries v Hv. apply Hflush. unfold createKeyResolver. simpl.
    by rewrite Hv.
  - intros props v Hv. apply Hflush. unfold createKeyResolver, record_get. simpl.
    by rewrite Hv.
  - intros elems n v -> Hn Hv. apply Hflush.
    unfold createArrayIndexResolver, array_index, array_get. simpl.
    by rewrite bool_decide_eq_true_2, Hv.
Qed.

Lemma X16_witness :
  wf example_pending /\
  promises
    (triggerBatch_resume createKeyResolver (map_values (pending example_pending))
       (Returned example_record) (triggerBatch_begin example_pending).2)
    !! 0%nat = Some (Fulfilled (VObject [("value", VStr "a")])).
Proof.
  assert (wf example_pending) as Hwf by compute_done.
  split; [exact Hwf|].
  destruct (X16_reference_policies_deliver example_pending (IdStr "1") 0%nat
              {| id := IdStr "1"; payload := VUndefined;
                 requests := [{| promise := 0; cancelled := false |};
                              {| promise := 1; cancelled := false |}] |}
              {| promise := 0; cancelled := false |} Hwf eq_refl eq_refl)
    as (_ & H & _).
  - left.
  - exact I.
  - apply (H {[ KeyStr "1" := VObject [("value", VStr "a")] ]}). reflexivity.
Defined.

(** X17. Cancelling a handle whose promise is already settled does nothing,
    also when its identity is pending again in a later window. *)
Theorem X17_cancel_after_settlement_does_nothing
    (h : Handle) (reason : value) (w : World) :
  wf w -> promises w !! handle_promise h <> Some Pending ->
  handle_cancel h reason w = w.
Proof.
  intros [Hcore _] Hsettled. destruct h as [k p]. apply handle_cancel_absent.
  intros l e Hk He (r & Hp & Hr)%list_elem_of_fmap.
  destruct (core_ok_pending _ _ _ _ _ _ Hcore Hk) as (e0 & He0 & _ & _ & Hlive).
  rewrite He in He0. injection He0 as <-.
  rewrite Forall_forall in Hlive. destruct (Hlive r Hr) as [_ Hpend].
  apply Hsettled. simpl. by rewrite Hp.
Qed.

Lemma X17_witness :
  wf example_second_window /\
  pending example_second_window = [(IdStr "1", 1%nat)] /\
  promises example_second_window !! 0%nat =
    Some (Fulfilled (VObject [("value", VStr "a")])) /\
  handle_cancel {| handle_id := IdStr "1"; handle_promise := 0 |} VNull
    example_second_window = example_second_window.
Proof.
  assert (wf example_second_window) as Hwf by compute_done.
  split; [exact Hwf|]. split; [reflexivity|]. split; [reflexivity|].
  apply (X17_cancel_after_settlement_does_nothing
           {| handle_id := IdStr "1"; handle_promise := 0 |} VNull
           example_second_window Hwf).
  vm_compute. discriminate.
Defined.
